(** * tools/patch_rustdesk_android.py: a shallow embedding and its properties

    The script rewrites the Android tree of a RustDesk fork with an ordered
    list of regular-expression rules, optionally moves the Kotlin package
    directory, validates the result and writes a report.

    Python [str] values are lists of code points.  The regular expressions
    the script compiles are values of a small syntax, run by a backtracking
    matcher that follows the order in which [re] explores alternatives. *)

From Stdlib Require Import String Ascii.
From Stdlib Require Import List NArith Bool Arith Lia DecimalString.
Import ListNotations.

Set Implicit Arguments.

(** ** Text *)

Definition char := N.
Definition text := list char.

Definition str (s : string) : text :=
  List.map N_of_ascii (list_ascii_of_string s).

Fixpoint text_eqb (a b : text) : bool :=
  match a, b with
  | [], [] => true
  | x :: a', y :: b' => N.eqb x y && text_eqb a' b'
  | _, _ => false
  end.

(** [s.startswith(p)] *)
Fixpoint starts_with (p s : text) : bool :=
  match p, s with
  | [], _ => true
  | x :: p', y :: s' => N.eqb x y && starts_with p' s'
  | _ :: _, [] => false
  end.

(** [needle in s] *)
Fixpoint contains (needle s : text) : bool :=
  starts_with needle s ||
  match s with
  | [] => false
  | _ :: s' => contains needle s'
  end.

(** The character before the position reached after [s] has been passed. *)
Definition prev_after (prev : option char) (s : text) : option char :=
  fold_left (fun _ c => Some c) s prev.

(** Results of operations that may raise. *)
Inductive result (A : Type) :=
| Ok (a : A)
| Raise.
Arguments Ok {A} a.
Arguments Raise {A}.

(** The part of the Unicode database the script reaches through [\s], [\b]
    and [str.lower] outside ASCII.  It is a parameter of the development. *)
Class UnicodeDB := {
  u_space : char -> bool;
  u_word  : char -> bool;
  u_lower : char -> text
}.

Section WithUnicode.
Context {U : UnicodeDB}.

Definition in_range (lo hi c : N) : bool := N.leb lo c && N.leb c hi.

(** [\s] on [str] patterns *)
Definition is_space (c : char) : bool :=
  if N.ltb c 128
  then in_range 9 13 c || in_range 28 32 c
  else u_space c.

(** [\w] on [str] patterns *)
Definition is_word (c : char) : bool :=
  if N.ltb c 128
  then in_range 48 57 c || in_range 65 90 c || N.eqb c 95 || in_range 97 122 c
  else u_word c.

Definition lower_char (c : char) : text :=
  if N.ltb c 128
  then (if in_range 65 90 c then [c + 32]%N else [c])
  else u_lower c.

Definition lower (s : text) : text := flat_map lower_char s.

(** ** Regular expressions

    Only the constructs the script's patterns use. *)
Inductive regex :=
| RLit (s : text)          (* re.escape(s) *)
| RSpaces                  (* \s+ *)
| RLazyAny                 (* .*? under re.DOTALL *)
| RWordB                   (* \b *)
| RGroup (r : regex)       (* ( r ) *)
| RSeq (r1 r2 : regex)
| RAlt (r1 r2 : regex).    (* r1|r2 *)

Fixpoint ngroups (r : regex) : nat :=
  match r with
  | RGroup r' => S (ngroups r')
  | RSeq r1 r2 | RAlt r1 r2 => ngroups r1 + ngroups r2
  | _ => 0
  end.

(** A match in progress: the previous character (for [\b]), the text still
    ahead and the groups closed so far. *)
Definition cont (R : Type) := option char -> text -> list text -> option R.

Definition or_else {R} (a b : option R) : option R :=
  match a with Some _ => a | None => b end.

Fixpoint m_lit {R} (s : text) (prev : option char) (t : text)
    (gs : list text) (k : cont R) : option R :=
  match s with
  | [] => k prev t gs
  | x :: s' =>
      match t with
      | c :: t' => if N.eqb x c then m_lit s' (Some c) t' gs k else None
      | [] => None
      end
  end.

(** [\s*], greedy: the longest run first, then shorter ones. *)
Fixpoint m_spaces_star {R} (prev : option char) (t : text)
    (gs : list text) (k : cont R) : option R :=
  match t with
  | c :: t' =>
      if is_space c
      then or_else (m_spaces_star (Some c) t' gs k) (k prev t gs)
      else k prev t gs
  | [] => k prev t gs
  end.

Definition m_spaces {R} (prev : option char) (t : text)
    (gs : list text) (k : cont R) : option R :=
  match t with
  | c :: t' => if is_space c then m_spaces_star (Some c) t' gs k else None
  | [] => None
  end.

(** [.*?], lazy: the shortest run first. *)
Fixpoint m_lazy_any {R} (prev : option char) (t : text)
    (gs : list text) (k : cont R) : option R :=
  or_else (k prev t gs)
    match t with
    | c :: t' => m_lazy_any (Some c) t' gs k
    | [] => None
    end.

Definition word_before (prev : option char) : bool :=
  match prev with Some c => is_word c | None => false end.

Definition word_after (t : text) : bool :=
  match t with c :: _ => is_word c | [] => false end.

Definition at_boundary (prev : option char) (t : text) : bool :=
  xorb (word_before prev) (word_after t).

Fixpoint m_re {R} (r : regex) (prev : option char) (t : text)
    (gs : list text) (k : cont R) : option R :=
  match r with
  | RLit s => m_lit s prev t gs k
  | RSpaces => m_spaces prev t gs k
  | RLazyAny => m_lazy_any prev t gs k
  | RWordB => if at_boundary prev t then k prev t gs else None
  | RGroup r' =>
      m_re r' prev t gs
        (fun p t' gs' => k p t' (gs' ++ [firstn (length t - length t') t]))
  | RSeq r1 r2 =>
      m_re r1 prev t gs (fun p t' gs' => m_re r2 p t' gs' k)
  | RAlt r1 r2 =>
      or_else (m_re r1 prev t gs k) (m_re r2 prev t gs k)
  end.

(** The match that starts at the current position, if any: its groups and
    its length.  [must_advance] refuses the empty match, as [re] does right
    after an empty match at the same position. *)
Definition match_here (r : regex) (must_advance : bool)
    (prev : option char) (t : text) : option (list text * nat) :=
  m_re r prev t []
    (fun _ t' gs =>
       let n := length t - length t' in
       if must_advance && Nat.eqb n 0 then None else Some (gs, n)).

(** ** Replacement templates

    [Pattern.sub(repl, s)] takes [repl] literally when it holds no backslash
    and hands it to [re]'s template parser otherwise, before any matching:
    a malformed template raises [re.error] whether or not the pattern
    matches. *)
Inductive titem :=
| TLit (s : text)
| TGroup (i : nat).

Definition is_digit (c : char) : bool := in_range 48 57 c.
Definition is_octdigit (c : char) : bool := in_range 48 55 c.
Definition is_ascii_letter (c : char) : bool :=
  in_range 65 90 c || in_range 97 122 c.
Definition digit_val (c : char) : nat := N.to_nat (c - 48).

Definition backslash : char := 92%N.

(** [sre_parse.ESCAPES] *)
Definition escape_code (c : char) : option char :=
  if N.eqb c 97 then Some 7%N        (* \a *)
  else if N.eqb c 98 then Some 8%N   (* \b *)
  else if N.eqb c 102 then Some 12%N (* \f *)
  else if N.eqb c 110 then Some 10%N (* \n *)
  else if N.eqb c 114 then Some 13%N (* \r *)
  else if N.eqb c 116 then Some 9%N  (* \t *)
  else if N.eqb c 118 then Some 11%N (* \v *)
  else if N.eqb c 92 then Some 92%N  (* \\ *)
  else None.

(** The parser reads one character at a time; what it has seen of an
    unfinished escape is its state. *)
Inductive tstate :=
| SText                        (* outside an escape *)
| SEsc                         (* after a backslash *)
| SG                           (* after \g *)
| SName (digits : option nat)  (* inside \g< *)
| SZero (v : nat) (more : nat) (* after \0 and its octal digits *)
| SDig1 (d : char)             (* after \d, d in 1..9 *)
| SDig2 (d1 d2 : char).        (* after \dd *)

Definition group_ref (ng i : nat) : option titem :=
  if Nat.leb i ng then Some (TGroup i) else None.

Definition chr_item (v : nat) : titem := TLit [N.of_nat v].

(** Reading [c] outside an escape. *)
Definition feed_text (c : char) : tstate * list titem :=
  if N.eqb c backslash then (SEsc, []) else (SText, [TLit [c]]).

Definition after (it : option titem) (c : char)
  : option (tstate * list titem) :=
  match it with
  | Some i => let '(st, out) := feed_text c in Some (st, i :: out)
  | None => None
  end.

Definition feed (ng : nat) (st : tstate) (c : char)
  : option (tstate * list titem) :=
  match st with
  | SText => Some (feed_text c)
  | SEsc =>
      if N.eqb c 103 then Some (SG, [])
      else if N.eqb c 48 then Some (SZero 0 2, [])
      else if is_digit c then Some (SDig1 c, [])
      else match escape_code c with
           | Some e => Some (SText, [TLit [e]])
           | None =>
               if is_ascii_letter c then None
               else Some (SText, [TLit [backslash; c]])
           end
  | SG => if N.eqb c 60 then Some (SName None, []) else None
  | SName ds =>
      if N.eqb c 62 then
        match ds with
        | Some i => option_map (fun it => (SText, [it])) (group_ref ng i)
        | None => None
        end
      else if is_digit c then
        Some (SName (Some (10 * match ds with Some i => i | None => 0 end
                           + digit_val c)), [])
      else None
  | SZero v more =>
      match more with
      | S more' =>
          if is_octdigit c then Some (SZero (8 * v + digit_val c) more', [])
          else after (Some (chr_item v)) c
      | 0 => after (Some (chr_item v)) c
      end
  | SDig1 d =>
      if is_digit c then Some (SDig2 d c, [])
      else after (group_ref ng (digit_val d)) c
  | SDig2 d1 d2 =>
      if is_octdigit d1 && is_octdigit d2 && is_octdigit c then
        let v := 64 * digit_val d1 + 8 * digit_val d2 + digit_val c in
        if Nat.leb v 255 then Some (SText, [chr_item v]) else None
      else after (group_ref ng (10 * digit_val d1 + digit_val d2)) c
  end.

(** The end of the template. *)
Definition finish (ng : nat) (st : tstate) : option (list titem) :=
  match st with
  | SText => Some []
  | SEsc | SG | SName _ => None
  | SZero v _ => Some [chr_item v]
  | SDig1 d => option_map (fun i => [i]) (group_ref ng (digit_val d))
  | SDig2 d1 d2 =>
      option_map (fun i => [i])
        (group_ref ng (10 * digit_val d1 + digit_val d2))
  end.

Fixpoint parse_from (ng : nat) (st : tstate) (s : text)
  : option (list titem) :=
  match s with
  | [] => finish ng st
  | c :: s' =>
      match feed ng st c with
      | Some (st', out) => option_map (app out) (parse_from ng st' s')
      | None => None
      end
  end.

Definition parse_template (ng : nat) (repl : text) : option (list titem) :=
  parse_from ng SText repl.

Definition compile_template (r : regex) (repl : text)
  : option (list titem) :=
  if existsb (N.eqb backslash) repl
  then parse_template (ngroups r) repl
  else Some [TLit repl].

(** [whole] is group 0; [gs] are groups 1, 2, ... *)
Definition expand_item (whole : text) (gs : list text) (i : titem) : text :=
  match i with
  | TLit s => s
  | TGroup 0 => whole
  | TGroup (S n) => nth n gs []
  end.

Definition expand (tpl : list titem) (whole : text) (gs : list text)
  : text :=
  flat_map (expand_item whole gs) tpl.

(** ** Substitution

    [scan] is the loop of [Pattern.sub]: it copies characters until the
    pattern matches, writes the expansion of the template for the match and
    goes on after it.  [skip] counts the characters of the current match
    still to pass over. *)
Fixpoint scan (r : regex) (tpl : list titem) (skip : nat)
    (prev : option char) (t : text) : text :=
  match skip, t with
  | S n, c :: t' => scan r tpl n (Some c) t'
  | S _, [] => []
  | 0, [] =>
      match match_here r false prev [] with
      | Some (gs, _) => expand tpl [] gs
      | None => []
      end
  | 0, c :: t' =>
      match match_here r false prev t with
      | Some (gs, S n) =>
          expand tpl (firstn (S n) t) gs ++ scan r tpl n (Some c) t'
      | Some (gs, 0) =>
          expand tpl [] gs ++
          match match_here r true prev t with
          | Some (gs', S n) =>
              expand tpl (firstn (S n) t) gs' ++ scan r tpl n (Some c) t'
          | _ => c :: scan r tpl 0 (Some c) t'
          end
      | None => c :: scan r tpl 0 (Some c) t'
      end
  end.

(** [pat.sub(repl, s)]; [None] is [re.error]. *)
Definition re_sub (r : regex) (repl : text) (s : text) : option text :=
  match compile_template r repl with
  | Some tpl => Some (scan r tpl 0 None s)
  | None => None
  end.

(** ** Configuration and rules *)

Record PatchConfig := {
  old_package : text;
  new_package : text;
  old_app_name : text;
  new_app_name : text;
  old_scheme : text;
  new_scheme : text;
  old_service : text;
  new_service : text;
  accessibility_desc : text
}.

(** A Python [dict] with [str] keys: insertion order, and a repeated key
    keeps its place and takes the last value. *)
Fixpoint dict_set (k v : text) (d : list (text * text))
  : list (text * text) :=
  match d with
  | [] => [(k, v)]
  | (k', v') :: d' =>
      if text_eqb k' k then (k', v) :: d' else (k', v') :: dict_set k v d'
  end.

Definition mapping (cfg : PatchConfig) : list (text * text) :=
  dict_set (old_app_name cfg) (new_app_name cfg)
    (dict_set (old_package cfg) (new_package cfg) []).

Definition rule : Type := regex * text.

Definition dq : text := [34%N].

(** [\b word \b] *)
Definition safe_word_replace (word : text) : regex :=
  RSeq RWordB (RSeq (RLit word) RWordB).

(** [(<string\s+name="NAME">).*?(</string>)] with [re.DOTALL] *)
Definition string_field (name : text) : regex :=
  RSeq (RGroup (RSeq (RLit (str "<string"))
                 (RSeq RSpaces (RLit (str "name=" ++ dq ++ name ++ dq ++ str ">")))))
       (RSeq RLazyAny (RGroup (RLit (str "</string>")))).

(** [rf"\1{value}\2"] *)
Definition keep_tags (value : text) : text :=
  [backslash; 49%N] ++ value ++ [backslash; 50%N].

Definition fixed_strings (cfg : PatchConfig) : list (text * text) :=
  dict_set (str "Show RustDesk") (str "Show " ++ new_app_name cfg)
    (dict_set (str "RustDesk Service Channel")
              (new_app_name cfg ++ str " Service Channel")
       (dict_set (str "RustDesk Service") (new_app_name cfg ++ str " Service")
          (dict_set (str "RustDesk Input") (new_app_name cfg ++ str " Input")
             []))).

Definition literal_rule (kv : text * text) : rule := (RLit (fst kv), snd kv).

Definition load_library (name : text) : text :=
  str "System.loadLibrary(" ++ dq ++ name ++ dq ++ str ")".

Definition build_rules (cfg : PatchConfig) : list rule :=
  (* 1 *)
  List.map literal_rule (mapping cfg) ++
  (* 2 *)
  [ (string_field (str "accessibility_service_description"),
     keep_tags (accessibility_desc cfg));
    (string_field (str "app_name"), keep_tags (new_app_name cfg));
  (* 3 *)
    (RSeq (RLit (str "android:name=" ++ dq ++ str "."))
          (RSeq (RLit (old_service cfg)) (RLit dq)),
     str "android:name=" ++ dq ++ str "." ++ new_service cfg ++ dq);
  (* 4 *)
    (safe_word_replace (old_service cfg), new_service cfg) ] ++
  (* 5 *)
  List.map literal_rule (fixed_strings cfg) ++
  (* 6 *)
  [ (RSeq (RLit (dq ++ str "input")) (RSeq RSpaces (RLit (str "service" ++ dq))),
     dq ++ str "Todd service" ++ dq);
  (* 7 *)
    (safe_word_replace (str "idShowRustDesk"), str "idShowToddDesk");
  (* 8 *)
    (RSeq (RLit (str "android:scheme=" ++ dq))
          (RSeq (RLit (old_scheme cfg)) (RLit dq)),
     str "android:scheme=" ++ dq ++ new_scheme cfg ++ dq);
  (* 9 *)
    (RSeq (RLit (old_scheme cfg)) (RLit (str "://")),
     new_scheme cfg ++ str "://");
  (* 10 *)
    (RSeq (RLit (str "System.loadLibrary(" ++ dq))
          (RSeq (RAlt (RLit (old_scheme cfg))
                   (RAlt (RLit (new_scheme cfg))
                      (RAlt (RLit (str "rustdesk")) (RLit (str "todddesk")))))
                (RLit (dq ++ str ")"))),
     load_library (str "rustdesk"));
  (* 11 *)
    (RSeq (RLit (str "lib")) (RSeq (RLit (new_scheme cfg)) (RLit (str ".so"))),
     str "librustdesk.so");
    (RLit (str "libtodddesk.so"), str "librustdesk.so") ].

(** The loop of [replace_in_file] over the rules; [None] when a
    substitution raises. *)
Fixpoint apply_rules (rules : list rule) (dst : text) : option text :=
  match rules with
  | [] => Some dst
  | (pat, repl) :: rest =>
      match re_sub pat repl dst with
      | Some dst' => apply_rules rest dst'
      | None => None
      end
  end.

(** The defaults of the command line. *)
Definition default_config : PatchConfig := {|
  old_package := str "com.carriez.flutter_hbb";
  new_package := str "com.celonis.work";
  old_app_name := str "RustDesk";
  new_app_name := str "ToddDesk";
  old_scheme := str "rustdesk";
  new_scheme := str "todddesk";
  old_service := str "InputService";
  new_service := str "ToddService";
  accessibility_desc := str "Made by Todd"
|}.

(** ** Bytes and text

    A file holds bytes, each byte as its value (below 256).  [read_text]
    decodes them as UTF-8 with [errors="replace"] and reads every line end
    as a line feed; [write_text] encodes the text as UTF-8 and writes the
    line ends as they are ([newline="\n"]). *)
Definition bytes := list N.

Definition is_surrogate (c : char) : bool :=
  N.leb 55296 c && N.ltb c 57344.

(** A character that UTF-8 can encode: a code point below 0x110000 that is
    no surrogate. *)
Definition is_scalar (c : char) : bool :=
  N.ltb c 1114112 && negb (is_surrogate c).

(** [c.encode("utf-8")]; [None] is UnicodeEncodeError, raised for a
    surrogate (a number from 0x110000 on is no character of a Python
    string, and is refused as well). *)
Definition encode_char (c : char) : option bytes :=
  if N.ltb c 128 then Some [c]
  else if N.ltb c 2048 then Some [192 + c / 64; 128 + c mod 64]%N
  else if N.ltb c 65536 then
    if is_surrogate c then None
    else Some [224 + c / 4096; 128 + (c / 64) mod 64; 128 + c mod 64]%N
  else if N.ltb c 1114112 then
    Some [240 + c / 262144; 128 + (c / 4096) mod 64;
          128 + (c / 64) mod 64; 128 + c mod 64]%N
  else None.

(** [s.encode("utf-8")] *)
Fixpoint encode (s : text) : option bytes :=
  match s with
  | [] => Some []
  | c :: s' =>
      match encode_char c, encode s' with
      | Some b, Some b' => Some (b ++ b')
      | _, _ => None
      end
  end.

(** The error handlers of [bytes.decode] the script can reach. *)
Inductive errors := Strict | Replace.

Definition replacement : char := 65533%N.

(** A continuation byte, 0x80 to 0xBF. *)
Definition is_cont (b : N) : bool := N.leb 128 b && N.ltb b 192.

(** The second byte of a sequence of three: a continuation byte that
    neither makes the sequence overlong (after 0xE0) nor a surrogate
    (after 0xED). *)
Definition second_of_three (b0 b1 : N) : bool :=
  is_cont b1 && negb (if N.ltb b1 160 then N.eqb b0 224 else N.eqb b0 237).

(** The second byte of a sequence of four: neither overlong (after 0xF0)
    nor beyond 0x10FFFF (after 0xF4). *)
Definition second_of_four (b0 b1 : N) : bool :=
  is_cont b1 && negb (if N.ltb b1 144 then N.eqb b0 240 else N.eqb b0 244).

(** One decoding error, followed by the decoding of what comes after the
    bytes it covers: UnicodeDecodeError, or U+FFFD in their place. *)
Definition bad (e : errors) (rest : option text) : option text :=
  match e with
  | Strict => None
  | Replace => option_map (cons replacement) rest
  end.

(** [b.decode("utf-8", errors)]; [None] is UnicodeDecodeError.  An error
    covers the bytes of the sequence that were valid so far: the lead byte
    alone when the second byte is wrong, two bytes when the third is, three
    when the fourth is, and all that is left of a sequence cut by the end
    of the data. *)
Fixpoint decode (e : errors) (b : bytes) : option text :=
  match b with
  | [] => Some []
  | b0 :: r0 =>
      if N.ltb b0 128 then option_map (cons b0) (decode e r0)
      else if N.ltb b0 194 || N.leb 245 b0 then bad e (decode e r0)
      else if N.ltb b0 224 then
        match r0 with
        | [] => bad e (Some [])
        | b1 :: r1 =>
            if is_cont b1
            then option_map (cons ((b0 - 192) * 64 + (b1 - 128))%N)
                            (decode e r1)
            else bad e (decode e r0)
        end
      else if N.ltb b0 240 then
        match r0 with
        | [] => bad e (Some [])
        | b1 :: r1 =>
            if second_of_three b0 b1 then
              match r1 with
              | [] => bad e (Some [])
              | b2 :: r2 =>
                  if is_cont b2
                  then option_map
                         (cons ((b0 - 224) * 4096 + (b1 - 128) * 64 +
                                (b2 - 128))%N)
                         (decode e r2)
                  else bad e (decode e r1)
              end
            else bad e (decode e r0)
        end
      else
        match r0 with
        | [] => bad e (Some [])
        | b1 :: r1 =>
            if second_of_four b0 b1 then
              match r1 with
              | [] => bad e (Some [])
              | b2 :: r2 =>
                  if is_cont b2 then
                    match r2 with
                    | [] => bad e (Some [])
                    | b3 :: r3 =>
                        if is_cont b3
                        then option_map
                               (cons ((b0 - 240) * 262144 +
                                      (b1 - 128) * 4096 + (b2 - 128) * 64 +
                                      (b3 - 128))%N)
                               (decode e r3)
                        else bad e (decode e r2)
                    end
                  else bad e (decode e r1)
              end
            else bad e (decode e r0)
        end
  end.

Definition cr : char := 13%N.
Definition lf : char := 10%N.

(** Reading with [newline=None]: a carriage return, with the line feed
    that follows it if there is one, is read as one line feed. *)
Fixpoint universal_newlines (s : text) : text :=
  match s with
  | [] => []
  | c :: s' =>
      if N.eqb c cr then
        lf :: match s' with
              | d :: s'' =>
                  if N.eqb d lf then universal_newlines s''
                  else universal_newlines s'
              | [] => []
              end
      else c :: universal_newlines s'
  end.

(** ** The file system

    A path is the list of its components below the file-system root; the
    repository root is given resolved.  A file holds its bytes; file
    metadata and symbolic links are not modelled.  The order of the entries
    stands for the order in which a directory lists them. *)
Definition path := list text.

Inductive entry :=
| File (content : bytes)
| Dir.

Definition fs := list (path * entry).

Fixpoint path_eqb (p q : path) : bool :=
  match p, q with
  | [], [] => true
  | a :: p', b :: q' => text_eqb a b && path_eqb p' q'
  | _, _ => false
  end.

(** [q] lies strictly below [root]. *)
Fixpoint is_under (root q : path) : bool :=
  match root, q with
  | [], _ :: _ => true
  | a :: root', b :: q' => text_eqb a b && is_under root' q'
  | _, _ => false
  end.

Fixpoint find_entry (p : path) (s : fs) : option entry :=
  match s with
  | [] => None
  | (q, e) :: s' => if path_eqb q p then Some e else find_entry p s'
  end.

Definition kind (s : fs) (p : path) : option entry :=
  match p with
  | [] => Some Dir
  | _ => find_entry p s
  end.

Definition exists_ (s : fs) (p : path) : bool :=
  match kind s p with Some _ => true | None => false end.

Definition is_file (s : fs) (p : path) : bool :=
  match kind s p with Some (File _) => true | _ => false end.

Definition is_dir (s : fs) (p : path) : bool :=
  match kind s p with Some Dir => true | _ => false end.

Definition parent (p : path) : path := removelast p.

Definition name (p : path) : text := last p [].

(** [relative_to]: the components after [root] (the script only calls it on
    paths below [root]). *)
Definition relative_to (root p : path) : path := skipn (length root) p.

(** [root.rglob("*")] once the walk is through: everything below [root].
    The walk nests one call per directory level and raises on a tree deeper
    than the interpreter allows; such trees are outside this definition.
    [merge_walk] below follows the walk step by step, as its loop adds to
    the tree it walks. *)
Definition rglob (s : fs) (root : path) : list path :=
  List.map fst (filter (fun pe => is_under root (fst pe)) s).

Fixpoint set_entry (p : path) (e : entry) (s : fs) : fs :=
  match s with
  | [] => [(p, e)]
  | (q, e') :: s' =>
      if path_eqb q p then (q, e) :: s' else (q, e') :: set_entry p e s'
  end.

(** [p.read_text(encoding="utf-8", errors="replace")] *)
Definition read_text (s : fs) (p : path) : result text :=
  match kind s p with
  | Some (File b) =>
      match decode Replace b with
      | Some c => Ok (universal_newlines c)
      | None => Raise
      end
  | _ => Raise
  end.

(** Whether [p] can be opened for writing: it is a file, or it does not
    exist and lies in a directory. *)
Definition writable (s : fs) (p : path) : bool :=
  match p, kind s p with
  | [], _ => false
  | _, Some Dir => false
  | _, Some (File _) => true
  | _, None => is_dir s (parent p)
  end.

(** [p.write_text(c, encoding="utf-8", newline="\n")]: the file system
    after the call, and [false] when the call raised.  Opening the file
    empties or creates it, and the text is encoded as a whole before any of
    it is written: a text that cannot be encoded leaves the file empty. *)
Definition write_text (s : fs) (p : path) (c : text) : fs * bool :=
  if writable s p then
    match encode c with
    | Some b => (set_entry p (File b) s, true)
    | None => (set_entry p (File []) s, false)
    end
  else (s, false).

(** Writing bytes as they are. *)
Definition write_bytes (s : fs) (p : path) (b : bytes) : result fs :=
  if writable s p then Ok (set_entry p (File b) s) else Raise.

(** ** The file walker *)

Definition TEXT_EXTS : list text :=
  [str ".kt"; str ".java"; str ".xml"; str ".gradle"; str ".properties";
   str ".txt"; str ".md"; str ".dart"].

Definition dot : char := 46%N.

(** The text from the last dot of [n] on, given [n] reversed: [None] when
    there is no dot. The second component is what lies before the dot. *)
Fixpoint split_last_dot (rev_n : text) (acc : text) : option (text * text) :=
  match rev_n with
  | [] => None
  | c :: r =>
      if N.eqb c dot then Some (rev r, dot :: acc)
      else split_last_dot r (c :: acc)
  end.

(** [PurePath.suffix]: the last dot and what follows, unless the dot is the
    first or the last character of the name. *)
Definition suffix (p : path) : text :=
  match split_last_dot (rev (name p)) [] with
  | Some (stem, ext) =>
      match stem, ext with
      | _ :: _, _ :: _ :: _ => ext
      | _, _ => []
      end
  | None => []
  end.

Definition in_texts (x : text) (l : list text) : bool :=
  existsb (text_eqb x) l.

(** [p.suffix.lower() in TEXT_EXTS] *)
Definition text_ext (p : path) : bool :=
  in_texts (lower (suffix p)) TEXT_EXTS.

Definition iter_text_files (s : fs) (root : path) : list path :=
  filter (fun p => is_file s p && text_ext p) (rglob s root).

(** ** The rewriter *)

(** [replace_in_file]: the file system after the call, and the "changed"
    flag it returns unless it raises. *)
Definition replace_in_file (s : fs) (p : path) (rules : list rule)
  : fs * result bool :=
  match read_text s p with
  | Raise => (s, Raise)
  | Ok src =>
      match apply_rules rules src with
      | None => (s, Raise)
      | Some dst =>
          if negb (text_eqb dst src) then
            match write_text s p dst with
            | (s', true) => (s', Ok true)
            | (s', false) => (s', Raise)
            end
          else (s, Ok false)
      end
  end.

(** The state of the loop of [main] over the files: the file system, the
    changed files (relative to the repository) and the number scanned.  A
    raise leaves the files rewritten so far as they are, and the file whose
    writing failed empty.  The loop writes to files that are there and
    creates no path, so the lazy walk of [rglob] yields what lies below the
    root when the loop starts. *)
Record rewrite_state := {
  rw_fs : fs;
  rw_changed : list path;
  rw_scanned : nat
}.

Fixpoint rewrite_files (repo : path) (rules : list rule) (files : list path)
    (st : rewrite_state) : rewrite_state * bool :=
  match files with
  | [] => (st, true)
  | f :: files' =>
      match replace_in_file (rw_fs st) f rules with
      | (s', Raise) =>
          ({| rw_fs := s'; rw_changed := rw_changed st;
              rw_scanned := S (rw_scanned st) |}, false)
      | (s', Ok changed) =>
          rewrite_files repo rules files'
            {| rw_fs := s';
               rw_changed :=
                 if changed then rw_changed st ++ [relative_to repo f]
                 else rw_changed st;
               rw_scanned := S (rw_scanned st) |}
      end
  end.

(** ** The directory migrator *)

(** [s.split(".")] *)
Fixpoint split_dots (s : text) (cur : text) : list text :=
  match s with
  | [] => [rev cur]
  | c :: s' =>
      if N.eqb c dot then rev cur :: split_dots s' [] else split_dots s' (c :: cur)
  end.

Definition slash_char : char := 47%N.

Fixpoint split_slashes (s : text) (cur : text) : list text :=
  match s with
  | [] => [rev cur]
  | c :: s' =>
      if N.eqb c slash_char then rev cur :: split_slashes s' []
      else split_slashes s' (c :: cur)
  end.

(** The components of one argument of [Path(...)]: the empty ones are
    dropped (a part of a package name holds no dot, so there is no [.]
    or [..] among them). *)
Definition components (part : text) : path :=
  filter (fun c => negb (text_eqb c [])) (split_slashes part []).

Definition is_absolute (part : text) : bool :=
  match part with
  | c :: _ => N.eqb c slash_char
  | [] => false
  end.

(** [base] joined with the [Path] made of [parts]: a part that starts
    with a slash starts again from the root of the file system. *)
Fixpoint join_parts (base : path) (parts : list text) : path :=
  match parts with
  | [] => base
  | p :: parts' =>
      join_parts (if is_absolute p then components p
                  else base ++ components p) parts'
  end.

(** The Kotlin root joined with the [Path] made of the parts of the
    package name between its dots. *)
Definition package_dir (root : path) (package : text) : path :=
  join_parts root (split_dots package []).

(** [mkdir(parents=True, exist_ok=True)], one ancestor after the other:
    [done] is the part of the path already known to be a directory. *)
Fixpoint mkdir_from (done : path) (todo : path) (s : fs) : result fs :=
  match todo with
  | [] => Ok s
  | c :: todo' =>
      let p := done ++ [c] in
      match kind s p with
      | Some Dir => mkdir_from p todo' s
      | Some (File _) => Raise
      | None => mkdir_from p todo' (set_entry p Dir s)
      end
  end.

Definition mkdir_parents (s : fs) (p : path) : result fs := mkdir_from [] p s.

(** [shutil.copy2(src, dst)]: the bytes of [src] are copied as they are; a
    [dst] that is a directory receives the file under the name of [src],
    and copying a file onto itself raises. *)
Definition copy2 (s : fs) (src dst : path) : result fs :=
  let target := if is_dir s dst then dst ++ [name src] else dst in
  match kind s src with
  | Some (File b) =>
      if path_eqb src target then Raise else write_bytes s target b
  | _ => Raise
  end.

(** [shutil.rmtree(p, ignore_errors=True)] *)
Definition rmtree (s : fs) (p : path) : fs :=
  if is_dir s p
  then filter (fun qe => negb (path_eqb (fst qe) p || is_under p (fst qe))) s
  else s.

(** [shutil.move(src, dst)] for a [dst] that does not exist. *)
Definition rename_under (src dst : path) (q : path) : path :=
  if path_eqb q src || is_under src q then dst ++ relative_to src q else q.

Definition move (s : fs) (src dst : path) : result fs :=
  if is_dir s src && is_under src dst then Raise
  else if negb (is_dir s (parent dst)) then Raise
  else Ok (List.map (fun qe => (rename_under src dst (fst qe), snd qe)) s).

(** The body of the loop of the merge branch, for the items one directory
    yields: the file system it leaves, and [false] when a step raised (the
    copies made before it stay). *)
Fixpoint merge_items (old_dir new_dir : path) (items : list path) (s : fs)
  : fs * bool :=
  match items with
  | [] => (s, true)
  | item :: items' =>
      if is_file s item then
        let dst := new_dir ++ relative_to old_dir item in
        match mkdir_parents s (parent dst) with
        | Raise => (s, false)
        | Ok s1 =>
            match copy2 s1 item dst with
            | Raise => (s1, false)
            | Ok s2 => merge_items old_dir new_dir items' s2
            end
        end
      else merge_items old_dir new_dir items' s
  end.

(** What the directory [d] lists. *)
Definition scandir (s : fs) (d : path) : list path :=
  filter (fun q => negb (path_eqb q []) && path_eqb (parent q) d)
         (List.map fst s).

(** How many directory levels the walk of [rglob] goes down.  The walk of
    CPython 3.11 nests one generator per directory level, and the
    interpreter allows 1000 nested calls ([sys.getrecursionlimit()]), of
    which the script ([main], [move_kotlin_dir]) and the walk itself take
    nine: the directories down to level 990 below the old directory are
    walked, and the walk ends with RecursionError in a directory of level
    991. *)
Definition walk_limit : nat := 991.

(** The loop [for item in old_dir.rglob("*")] with its body.  The walk is
    lazy: a directory is listed when the walk reaches it, its entries go
    through the body of the loop, and then it is listed again for the
    directories to go down into, so the walk also meets what the body has
    put below the old directory in the meantime.  [depth] is the number of
    levels the walk can still go down: at the last one the entries still go
    through the body, and the second listing raises. *)
Fixpoint merge_walk (depth : nat) (old_dir new_dir d : path) (s : fs)
  : fs * bool :=
  match merge_items old_dir new_dir (scandir s d) s with
  | (s1, false) => (s1, false)
  | (s1, true) =>
      match depth with
      | 0 => (s1, false)
      | S depth' =>
          fold_left
            (fun (acc : fs * bool) (sub : path) =>
               if snd acc
               then merge_walk depth' old_dir new_dir sub (fst acc)
               else acc)
            (filter (is_dir s1) (scandir s1 d)) (s1, true)
      end
  end.

(** [rglob] of a path that is no directory yields nothing. *)
Definition merge_files (old_dir new_dir : path) (s : fs) : fs * bool :=
  if is_dir s old_dir then merge_walk walk_limit old_dir new_dir old_dir s
  else (s, true).

(** The notes of the report. *)
Inductive note :=
| KotlinRootNotFound (p : path)
| OldDirNotFound (p : path)
| MergeInto (p : path)
| DeletedOld (p : path)
| Moved (src dst : path).

Definition kotlin_root (repo : path) : path :=
  repo ++ [str "flutter"; str "android"; str "app"; str "src"; str "main";
           str "kotlin"].

(** [move_kotlin_dir]: the file system and the notes after it, and whether
    it returned ([false]: it raised). *)
Definition move_kotlin_dir (repo : path) (cfg : PatchConfig) (s : fs)
    (report_lines : list note) : fs * list note * bool :=
  let root := kotlin_root repo in
  if negb (exists_ s root) then
    (s, report_lines ++ [KotlinRootNotFound root], true)
  else
    let old_dir := package_dir root (old_package cfg) in
    let new_dir := package_dir root (new_package cfg) in
    if negb (exists_ s old_dir) then
      (s, report_lines ++ [OldDirNotFound old_dir], true)
    else
      match mkdir_parents s (parent new_dir) with
      | Raise => (s, report_lines, false)
      | Ok s1 =>
          if exists_ s1 new_dir then
            let notes1 := report_lines ++ [MergeInto new_dir] in
            match merge_files old_dir new_dir s1 with
            | (s2, false) => (s2, notes1, false)
            | (s2, true) =>
                (rmtree s2 old_dir, notes1 ++ [DeletedOld old_dir], true)
            end
          else
            match move s1 old_dir new_dir with
            | Raise => (s1, report_lines, false)
            | Ok s2 => (s2, report_lines ++ [Moved old_dir new_dir], true)
            end
      end.

(** ** The validator *)

Definition scan_any (s : fs) (root : path) (needle : text) : result (list path) :=
  fold_right
    (fun f acc =>
       match read_text s f, acc with
       | Ok c, Ok hits => Ok (if contains needle c then f :: hits else hits)
       | _, _ => Raise
       end)
    (Ok []) (iter_text_files s root).

(** Why a run stops with [SystemExit]. *)
Inductive failure :=
| NoAndroidRoot (p : path)
| NotContained (p : path) (needle : text)
| StillContained (p : path) (needle : text)
| OldPackageLeft (hits : list path)
| NativeSoAltered (hits : list path)
| LoadLibraryAltered (hits : list path).

(** How a run ends: [Exit0] is the normal return of [main], [SystemExit] a
    failed check, [Uncaught] any other exception; the last two give a
    nonzero exit status. *)
Inductive outcome :=
| Exit0 (scanned changed : nat)
| SystemExit (why : failure)
| Uncaught.

Definition exit_status (o : outcome) : nat :=
  match o with Exit0 _ _ => 0 | _ => 1 end.

(** [must_contain] and [must_not_contain]: [None] when the check passes. *)
Definition must_contain (s : fs) (p : path) (needle : text) : option outcome :=
  match read_text s p with
  | Raise => Some Uncaught
  | Ok c =>
      if negb (contains needle c) then Some (SystemExit (NotContained p needle))
      else None
  end.

Definition must_not_contain (s : fs) (p : path) (needle : text)
  : option outcome :=
  match read_text s p with
  | Raise => Some Uncaught
  | Ok c =>
      if contains needle c then Some (SystemExit (StillContained p needle))
      else None
  end.

(** The first check that fails, in order. *)
Fixpoint first_failure (checks : list (option outcome)) : option outcome :=
  match checks with
  | [] => None
  | Some o :: _ => Some o
  | None :: rest => first_failure rest
  end.

Definition android_root (repo : path) : path :=
  repo ++ [str "flutter"; str "android"].

Definition gradle_path (repo : path) : path :=
  repo ++ [str "flutter"; str "android"; str "app"; str "build.gradle"].

Definition manifest_path (repo : path) : path :=
  repo ++ [str "flutter"; str "android"; str "app"; str "src"; str "main";
           str "AndroidManifest.xml"].

Definition check_gradle (repo : path) (cfg : PatchConfig) (s : fs)
  : option outcome :=
  let gradle := gradle_path repo in
  if exists_ s gradle then
    first_failure
      [ must_contain s gradle
          (str "applicationId " ++ dq ++ new_package cfg ++ dq);
        must_not_contain s gradle
          (str "applicationId " ++ dq ++ old_package cfg ++ dq) ]
  else None.

Definition check_manifest (repo : path) (cfg : PatchConfig) (s : fs)
  : option outcome :=
  let manifest := manifest_path repo in
  if exists_ s manifest then
    first_failure
      [ must_contain s manifest (str "package=" ++ dq ++ new_package cfg ++ dq);
        must_contain s manifest
          (str "android:name=" ++ dq ++ str "." ++ new_service cfg ++ dq);
        must_contain s manifest
          (str "android:scheme=" ++ dq ++ new_scheme cfg ++ dq) ]
  else None.

(** A residue check over one or two scans, all made before the test. *)
Definition no_hits (scans : list (result (list path)))
    (why : list path -> failure) : option outcome :=
  match
    fold_right
      (fun r acc =>
         match r, acc with
         | Ok h, Ok hs => Ok (h ++ hs)
         | _, _ => Raise
         end) (Ok []) scans
  with
  | Raise => Some Uncaught
  | Ok [] => None
  | Ok hits => Some (SystemExit (why hits))
  end.

Definition validate (repo : path) (cfg : PatchConfig) (s : fs)
  : option outcome :=
  let root := android_root repo in
  first_failure
    [ check_gradle repo cfg s;
      check_manifest repo cfg s;
      no_hits [scan_any s root (old_package cfg)] OldPackageLeft;
      no_hits [scan_any s root (str "lib" ++ new_scheme cfg ++ str ".so");
               scan_any s root (str "libtodddesk.so")] NativeSoAltered;
      no_hits [scan_any s root (load_library (new_scheme cfg));
               scan_any s root (load_library (str "todddesk"))]
        LoadLibraryAltered ].

(** ** The reporter *)

Definition nl : text := [10%N].
Definition slash : text := [47%N].
Definition tick : text := [96%N].

(** [str(n)] *)
Definition decimal (n : nat) : text :=
  str (NilEmpty.string_of_uint (Nat.to_uint n)).

(** [as_posix] of a relative path. *)
Fixpoint as_posix (p : path) : text :=
  match p with
  | [] => str "."
  | [c] => c
  | c :: p' => c ++ slash ++ as_posix p'
  end.

(** [str] of an absolute path. *)
Definition abs_posix (p : path) : text :=
  match p with
  | [] => slash
  | _ => flat_map (fun c => slash ++ c) p
  end.

Definition note_text (n : note) : text :=
  match n with
  | KotlinRootNotFound p => str "- Kotlin root not found: " ++ abs_posix p
  | OldDirNotFound p =>
      str "- Old kotlin dir not found (skip move): " ++ abs_posix p
  | MergeInto p => str "- New kotlin dir exists, merge files: " ++ abs_posix p
  | DeletedOld p => str "- Deleted old kotlin dir: " ++ abs_posix p
  | Moved a b =>
      str "- Moved kotlin dir: " ++ abs_posix a ++ str " -> " ++ abs_posix b
  end.

Definition target_line (label value : text) : text :=
  str "- " ++ label ++ str ": " ++ tick ++ value ++ tick ++ nl.

Definition report_text (cfg : PatchConfig) (changed_files : list path)
    (report_lines : list note) : text :=
  str "# Todd Android Patch Report" ++ nl ++ nl ++
  str "## Targets" ++ nl ++ nl ++
  target_line (str "old_package") (old_package cfg) ++
  target_line (str "new_package") (new_package cfg) ++
  target_line (str "old_app_name") (old_app_name cfg) ++
  target_line (str "new_app_name") (new_app_name cfg) ++
  target_line (str "old_scheme") (old_scheme cfg) ++
  target_line (str "new_scheme") (new_scheme cfg) ++
  target_line (str "old_service") (old_service cfg) ++
  target_line (str "new_service") (new_service cfg) ++
  target_line (str "accessibility_desc") (accessibility_desc cfg) ++
  nl ++ str "## File changes" ++ nl ++ nl ++
  str "- changed_files_count: **" ++ decimal (length changed_files) ++
  str "**" ++ nl ++
  flat_map (fun f => str "  - " ++ tick ++ as_posix f ++ tick ++ nl)
    (firstn 400 changed_files) ++
  (if Nat.ltb 400 (length changed_files)
   then str "  - ... and " ++ decimal (length changed_files - 400) ++
        str " more" ++ nl
   else []) ++
  nl ++ str "## Directory move / notes" ++ nl ++ nl ++
  match report_lines with
  | [] => str "- (none)" ++ nl
  | _ => flat_map (fun x => note_text x ++ nl) report_lines
  end.

Definition report_path (repo : path) : path :=
  repo ++ [str "todd_patch_report.md"].

Definition write_report (repo : path) (cfg : PatchConfig)
    (changed_files : list path) (report_lines : list note) (s : fs)
  : fs * bool :=
  write_text s (report_path repo) (report_text cfg changed_files report_lines).

(** ** The run *)

(** The two phases that change the tree: the rewriter, then the directory
    migrator when [--move-kotlin-dir] is given.  The last component is
    [false] when one of them raised. *)
Definition patch_tree (repo : path) (cfg : PatchConfig)
    (move_kotlin : bool) (s : fs) : rewrite_state * list note * bool :=
  let '(st, ok) :=
    rewrite_files repo (build_rules cfg)
      (iter_text_files s (android_root repo))
      {| rw_fs := s; rw_changed := []; rw_scanned := 0 |} in
  if negb ok then (st, [], false)
  else if move_kotlin then
    let '(s2, notes, ok2) := move_kotlin_dir repo cfg (rw_fs st) [] in
    ({| rw_fs := s2; rw_changed := rw_changed st;
        rw_scanned := rw_scanned st |}, notes, ok2)
  else (st, [], true).

(** [main], after the command line is parsed: how the run ends and the
    file system it leaves. *)
Definition main (repo : path) (cfg : PatchConfig) (move_kotlin : bool)
    (s : fs) : outcome * fs :=
  if negb (exists_ s (android_root repo)) then
    (SystemExit (NoAndroidRoot (android_root repo)), s)
  else
    let '(st, notes, ok) := patch_tree repo cfg move_kotlin s in
    if negb ok then (Uncaught, rw_fs st)
    else
      match validate repo cfg (rw_fs st) with
      | Some o => (o, rw_fs st)
      | None =>
          match write_report repo cfg (rw_changed st) notes (rw_fs st) with
          | (s', false) => (Uncaught, s')
          | (s', true) => (Exit0 (rw_scanned st) (length (rw_changed st)), s')
          end
      end.

(** Whether [\b old \b] matches at the current position. *)
Definition word_hit (old : text) (prev : option char) (t : text) : bool :=
  at_boundary prev t && starts_with old t &&
  at_boundary (prev_after prev old) (skipn (length old) t).

(** The literals that every match of [r] contains. *)
Fixpoint lits (r : regex) : list text :=
  match r with
  | RLit s => [s]
  | RGroup r' => lits r'
  | RSeq r1 r2 => lits r1 ++ lits r2
  | _ => []
  end.

(** No substitution of the rule list raises: every replacement is a
    well-formed template. *)
Definition templates_ok (rules : list rule) : bool :=
  forallb
    (fun rl =>
       match compile_template (fst rl) (snd rl) with
       | Some _ => true
       | None => false
       end) rules.

(** The canonical native names. *)
Definition native_so : text := str "librustdesk.so".
Definition native_load : text := load_library (str "rustdesk").

(** None of the old package, the old app name and the old service name
    occurs in [t]. *)
Definition no_clash (cfg : PatchConfig) (t : text) : bool :=
  negb (contains (old_package cfg) t) &&
  negb (contains (old_app_name cfg) t) &&
  negb (contains (old_service cfg) t).

(** None of the literals that rules 2, 3, 5, 6, 7, 8, 9 and the last rule
    need occurs in [t]. *)
Definition quiet (t : text) : bool :=
  forallb (fun l => negb (contains l t))
    [ str "<string"; str "android:name=" ++ dq ++ str ".";
      str "RustDesk Input"; str "RustDesk Service";
      str "RustDesk Service Channel"; str "Show RustDesk";
      dq ++ str "input"; str "idShowRustDesk"; str "android:scheme=" ++ dq;
      str "://"; str "libtodddesk.so" ].

(** One pass of the rewriter over the android tree, as [main] makes it. *)
Definition rewriter_pass (repo : path) (cfg : PatchConfig) (s : fs)
  : rewrite_state * bool :=
  rewrite_files repo (build_rules cfg)
    (iter_text_files s (android_root repo))
    {| rw_fs := s; rw_changed := []; rw_scanned := 0 |}.

(** The opening tag of a string field, with [ws] for the white space
    after [<string], and the closing tag. *)
Definition open_tag (ws name : text) : text :=
  str "<string" ++ ws ++ str "name=" ++ dq ++ name ++ dq ++ str ">".

Definition close_tag : text := str "</string>".

(** A replacement value that the template parser reads as itself: no
    backslash in it, and no digit at its start (which would extend the
    group reference before it). *)
Definition plain_value (v : text) : bool :=
  negb (existsb (N.eqb backslash) v) &&
  match v with
  | c :: _ => negb (is_digit c)
  | [] => true
  end.

(** The closing tag does not start inside [content]: the first closing tag
    of [content ++ close_tag] is the one at its end. *)
Fixpoint no_early_close (content : text) : bool :=
  match content with
  | [] => true
  | _ :: content' =>
      negb (starts_with close_tag (content ++ close_tag)) &&
      no_early_close content'
  end.

(** A package name without a slash. *)
Definition no_slash (package : text) : bool :=
  negb (existsb (N.eqb slash_char) package).

(** ** What a pattern matches

    [matches r prev m rest gs]: after [prev] and before [rest], the text
    [m] has the form of [r], with [gs] the groups it closes.  This leaves
    out which of several matches the matcher prefers. *)
Inductive matches : regex -> option char -> text -> text -> list text -> Prop :=
| M_lit s p rest : matches (RLit s) p s rest []
| M_spaces p m rest :
    m <> [] -> forallb is_space m = true -> matches RSpaces p m rest []
| M_any p m rest : matches RLazyAny p m rest []
| M_wordb p rest : at_boundary p rest = true -> matches RWordB p [] rest []
| M_group r p m rest gs :
    matches r p m rest gs -> matches (RGroup r) p m rest (gs ++ [m])
| M_seq r1 r2 p m1 m2 rest g1 g2 :
    matches r1 p m1 (m2 ++ rest) g1 ->
    matches r2 (prev_after p m1) m2 rest g2 ->
    matches (RSeq r1 r2) p (m1 ++ m2) rest (g1 ++ g2)
| M_alt_l r1 r2 p m rest gs :
    matches r1 p m rest gs -> matches (RAlt r1 r2) p m rest gs
| M_alt_r r1 r2 p m rest gs :
    matches r2 p m rest gs -> matches (RAlt r1 r2) p m rest gs.

(** ** The shape of a substitution

    [rewrites r tpl prev u out]: [out] is [u] with some of its parts, each
    a match of [r] where it stands, replaced by the expansion of the
    template, and the characters copied are those at which [r] does not
    match. *)
Inductive rewrites (r : regex) (tpl : list titem)
  : option char -> text -> text -> Prop :=
| rw_end p : rewrites r tpl p [] []
| rw_copy p c u out :
    match_here r false p (c :: u) = None ->
    rewrites r tpl (Some c) u out ->
    rewrites r tpl p (c :: u) (c :: out)
| rw_match p m u gs out :
    m <> [] ->
    match_here r false p (m ++ u) = Some (gs, length m) ->
    rewrites r tpl (prev_after p m) u out ->
    rewrites r tpl p (m ++ u) (expand tpl m gs ++ out).

(** A pattern with a literal that is not empty matches no empty text. *)
Definition has_literal (r : regex) : bool :=
  existsb (fun l => negb (text_eqb l [])) (lits r).

(** [a] ends [o]. *)
Definition ends_with (a o : text) : bool := starts_with (rev a) (rev o).

(** Whether an occurrence of [P] can share characters with an inserted
    [o], or run across it: [P] inside [o], [o] inside [P], an end of [P]
    starting [o], or a start of [P] ending [o]. *)
Definition overlap (P o : text) : bool :=
  contains P o || contains o P ||
  existsb (fun k => starts_with (skipn k P) o || ends_with (firstn k P) o)
          (seq 1 (length P - 1)).

(** ** Patterns without repetition

    The texts a pattern without [\s+] and [.*?] can match, and the
    patterns made of literals, groups and alternatives only, which match
    each of them wherever it stands. *)
Fixpoint fits (r : regex) : list text :=
  match r with
  | RLit s => [s]
  | RWordB => [[]]
  | RGroup r' => fits r'
  | RSeq r1 r2 => flat_map (fun a => List.map (app a) (fits r2)) (fits r1)
  | RAlt r1 r2 => fits r1 ++ fits r2
  | RSpaces | RLazyAny => []
  end.

Fixpoint no_repeat (r : regex) : bool :=
  match r with
  | RLit _ | RWordB => true
  | RGroup r' => no_repeat r'
  | RSeq r1 r2 | RAlt r1 r2 => no_repeat r1 && no_repeat r2
  | RSpaces | RLazyAny => false
  end.

Fixpoint literal_only (r : regex) : bool :=
  match r with
  | RLit _ => true
  | RGroup r' => literal_only r'
  | RSeq r1 r2 | RAlt r1 r2 => literal_only r1 && literal_only r2
  | _ => false
  end.

(** ** Rules with their templates parsed

    [apply_rules] parses the template of a rule each time it is applied;
    [compile_rules] does it once for the list, and [run] is the loop over
    the parsed rules. *)
Definition crule : Type := (regex * list titem)%type.

Fixpoint compile_rules (rules : list rule) : option (list crule) :=
  match rules with
  | [] => Some []
  | (r, repl) :: rest =>
      match compile_template r repl, compile_rules rest with
      | Some tpl, Some l => Some ((r, tpl) :: l)
      | _, _ => None
      end
  end.

Definition sub (rt : crule) (w : text) : text :=
  scan (fst rt) (snd rt) 0 None w.

Definition run (l : list crule) (w : text) : text :=
  fold_left (fun w rt => sub rt w) l w.

Definition default_rules : list crule :=
  match compile_rules (build_rules default_config) with
  | Some l => l
  | None => []
  end.

(** ** What a rule changes

    A [change] describes what a replacement does to a match once the part
    of the match that the replacement repeats at its start and at its end
    is set aside: the text [put] in place of the part in between and,
    when known, whether that part starts and ends with a word
    character. *)
Record change := {
  put : text;
  ends : option (bool * bool)
}.

Definition word_end (c : text) : bool := word_before (prev_after None c).

Definition ends_of (c : text) : option (bool * bool) :=
  match c with
  | [] => None
  | _ :: _ => Some (word_after c, word_end c)
  end.

(** The common start of two texts, and what is left of each. *)
Fixpoint common_prefix (a b : text) : text * (text * text) :=
  match a, b with
  | x :: a', y :: b' =>
      if N.eqb x y
      then let '(g, rest) := common_prefix a' b' in (x :: g, rest)
      else ([], (a, b))
  | _, _ => ([], (a, b))
  end.

(** [m] and [o] without their common start and their common end. *)
Definition changed (m o : text) : text * text :=
  let '(_, (m1, o1)) := common_prefix m o in
  let '(_, (m2, o2)) := common_prefix (rev m1) (rev o1) in
  (rev m2, rev o2).

Definition change_of (trim : bool) (m o : text) : list change :=
  if text_eqb m o then []
  else if trim
       then [ {| put := snd (changed m o);
                 ends := ends_of (fst (changed m o)) |} ]
       else [ {| put := o; ends := ends_of m |} ].

(** The change of a rule [a\s+b]: with [trim], the first and the last
    character are set aside when the replacement repeats them. *)
Definition change_spaced (trim : bool) (a b o : text) : option change :=
  if trim then
    match a, o with
    | h :: a', h' :: o1 =>
        match rev b, rev o1 with
        | e :: rb, e' :: ro =>
            if N.eqb h h' && N.eqb e e'
            then Some {| put := rev ro;
                         ends := match a', rb with
                                 | x :: _, y :: _ => Some (is_word x, is_word y)
                                 | _, _ => None
                                 end |}
            else None
        | _, _ => None
        end
    | _, _ => None
    end
  else Some {| put := o;
               ends := match a, rev b with
                       | x :: _, y :: _ => Some (is_word x, is_word y)
                       | _, _ => None
                       end |}.

Definition changes_const (trim : bool) (r : regex) (o : text)
  : option (list change) :=
  if no_repeat r
  then Some (flat_map (fun m => change_of trim m o) (fits r))
  else match r with
       | RSeq (RLit a) (RSeq RSpaces (RLit b)) =>
           option_map (fun c => [c]) (change_spaced trim a b o)
       | _ => None
       end.

(** The value between [\1] and [\2] in a parsed template. *)
Fixpoint template_value (items : list titem) : option text :=
  match items with
  | [TGroup 2] => Some []
  | TLit s :: rest => option_map (app s) (template_value rest)
  | _ => None
  end.

Definition changes_field (r : regex) (items : list titem)
  : option (list change) :=
  match r with
  | RSeq (RGroup a) (RSeq RLazyAny (RGroup (RLit _))) =>
      if Nat.eqb (ngroups a) 0
      then option_map (fun v => [ {| put := v; ends := None |} ])
                      (template_value items)
      else None
  | _ => None
  end.

Definition changes (trim : bool) (rt : crule) : option (list change) :=
  match snd rt with
  | [TLit o] => changes_const trim (fst rt) o
  | TGroup 1 :: items => changes_field (fst rt) items
  | _ => None
  end.

(** [e] is [m] with the change [ch]. *)
Definition changes_as (ch : change) (m e : text) : Prop :=
  exists g1 c g2,
    m = g1 ++ c ++ g2 /\ e = g1 ++ put ch ++ g2 /\
    match ends ch with
    | Some (fw, lw) => c <> [] /\ word_after c = fw /\ word_end c = lw
    | None => True
    end.

(** A rule keeps a text free of [P] when what it puts in cannot overlap
    an occurrence of [P]. *)
Definition keeps (P : text) (rt : crule) : bool :=
  has_literal (fst rt) &&
  existsb (fun trim =>
             match changes trim rt with
             | Some chs => forallb (fun ch => negb (overlap P (put ch))) chs
             | None => false
             end) [true; false].

(** A rule clears a text of [P] when it matches wherever [P] starts and
    what it puts in cannot overlap an occurrence of [P]. *)
Definition clears (P : text) (rt : crule) : bool :=
  match snd rt with
  | [TLit o] =>
      has_literal (fst rt) && literal_only (fst rt) &&
      existsb (text_eqb P) (fits (fst rt)) &&
      negb (text_eqb P []) && negb (overlap P o)
  | _ => false
  end.

(** ** Whole-word occurrences

    [word_free old w]: [old] stands nowhere in [w] as a whole word, with
    a word boundary on both sides. *)
Definition word_free_from (p0 : option char) (old w : text) : Prop :=
  forall a b, w = a ++ old ++ b ->
    word_hit old (prev_after p0 a) (old ++ b) = false.

Definition word_free (old w : text) : Prop := word_free_from None old w.

Definition ends_eqb (a b : option (bool * bool)) : bool :=
  match a, b with
  | Some (x, y), Some (x', y') => Bool.eqb x x' && Bool.eqb y y'
  | _, _ => false
  end.

(** A rule keeps a text free of the word [old] when what it puts in
    cannot overlap an occurrence of [old] and starts and ends like what
    it takes out: the word boundaries around stay where they are. *)
Definition keeps_word (old : text) (rt : crule) : bool :=
  has_literal (fst rt) &&
  existsb (fun trim =>
             match changes trim rt with
             | Some chs =>
                 forallb (fun ch => negb (overlap old (put ch)) &&
                                    ends_eqb (ends ch) (ends_of (put ch)))
                         chs
             | None => false
             end) [true; false].

(** ** Rules with nothing left to change

    A rule has nothing to change in a text that holds none of [Ps] when
    a literal of its pattern holds one of them, or when each text it can
    match holds one of them or is its own replacement. *)
Definition settled (Ps : list text) (rt : crule) : bool :=
  existsb (fun l => existsb (fun P => contains P l) Ps) (lits (fst rt)) ||
  (has_literal (fst rt) && no_repeat (fst rt) &&
   match snd rt with
   | [TLit o] =>
       forallb (fun m => text_eqb m o || existsb (fun P => contains P m) Ps)
               (fits (fst rt))
   | _ => false
   end).

(** Rule 6 of [build_rules], the log tag: the one rule whose replacement
    can start or end a new match of its own pattern. *)
Definition log_tag_rule : rule :=
  (RSeq (RLit (dq ++ str "input")) (RSeq RSpaces (RLit (str "service" ++ dq))),
   dq ++ str "Todd service" ++ dq).

(** The texts that the rules of the default configuration clear for good:
    the old package, the old application name, the old service in the
    manifest, the old scheme in the manifest and in links, and the renamed
    native library. *)
Definition cleared_literals : list (nat * text) :=
  [ (0, str "com.carriez.flutter_hbb");
    (1, str "RustDesk");
    (4, str "android:name=" ++ dq ++ str ".InputService" ++ dq);
    (12, str "android:scheme=" ++ dq ++ str "rustdesk" ++ dq);
    (13, str "rustdesk://");
    (14, load_library (str "todddesk"));
    (16, str "libtodddesk.so") ].

(** Rule number [k] of the list clears [P] and the rules after it keep it
    out. *)
Definition cleared_at (l : list crule) (kP : nat * text) : bool :=
  match skipn (fst kP) l with
  | rt :: post => clears (snd kP) rt && forallb (keeps (snd kP)) post
  | [] => false
  end.

(** ** String fields with their value in place

    [field_done name v w]: wherever the opening tag of the field [name]
    stands in [w], no closing tag follows at all, or the value [v] and a
    closing tag follow at once. *)
Definition field_done (name v w : text) : Prop :=
  forall x ws rest,
    w = x ++ open_tag ws name ++ rest ->
    ws <> [] -> forallb is_space ws = true ->
    contains close_tag rest = false \/
    starts_with (v ++ close_tag) rest = true.

(** An opening tag after its first character. *)
Definition tag_rest (name ws : text) : text :=
  str "string" ++ ws ++ str "name=" ++ dq ++ name ++ dq ++ str ">".

(** ** Rules that leave string fields alone *)

Definition mem (x : char) (t : text) : bool := existsb (N.eqb x) t.

(** The characters of an opening tag other than its white space. *)
Definition tag_chars (name : text) : text :=
  str "<string" ++ str "name=" ++ dq ++ name ++ dq ++ str ">".

(** [o] cannot share a character position with an opening tag of the
    field: it holds no angle bracket, and a character that no opening tag
    holds. *)
Definition tag_safe (name o : text) : bool :=
  negb (mem 60%N o) && negb (mem 62%N o) &&
  existsb (fun x => negb (is_space x) && negb (mem x (tag_chars name))) o.

(** A rule with a constant replacement keeps the fields with their value:
    what it puts in cannot overlap a tag, and what it matches cannot
    start inside the value and the closing tag of a field. *)
Definition keeps_field (name v : text) (rt : crule) : bool :=
  has_literal (fst rt) &&
  match snd rt with
  | [TLit o] =>
      tag_safe name o && negb (overlap close_tag o) &&
      (if no_repeat (fst rt)
       then forallb (fun m => text_eqb m o ||
                              negb (overlap (v ++ close_tag) m))
                    (fits (fst rt))
       else match fst rt with
            | RSeq (RLit a) (RSeq RSpaces (RLit b)) =>
                negb (overlap (v ++ close_tag) a)
            | _ => false
            end)
  | _ => false
  end.

(** The rule of the field [nb] keeps the field [na] with its value [va]:
    the tags of the two fields cannot overlap, and the opening tag of
    [nb] cannot start inside the value and the closing tag of [na]. *)
Definition fields_apart (na va nb vb : text) : bool :=
  negb (mem 60%N na) && negb (mem 62%N na) &&
  existsb (fun x => negb (is_space x) &&
                    negb (mem x (tag_chars nb ++ vb ++ close_tag)))
          (tag_chars na) &&
  existsb (fun x => negb (is_space x) && negb (mem x (tag_chars na)))
          (tag_chars nb ++ vb ++ close_tag) &&
  negb (overlap (va ++ close_tag) (str "<string")).

(** A text in which the log-tag rule finds nothing to change. *)
Definition log_tag_free (u : text) : Prop :=
  re_sub (fst log_tag_rule) (snd log_tag_rule) u = Some u.

(** ** Configurations that the template parser reads as they are

    A replacement string without a backslash is taken literally; the two
    values placed between [\1] and [\2] must moreover not start with a
    digit, which would run into the group number. *)
Definition no_backslash (v : text) : bool :=
  negb (existsb (N.eqb backslash) v).

Definition plain_config (cfg : PatchConfig) : bool :=
  no_backslash (new_package cfg) && plain_value (new_app_name cfg) &&
  no_backslash (new_service cfg) && no_backslash (new_scheme cfg) &&
  plain_value (accessibility_desc cfg).

(** A text of scalar values without carriage return is encoded without
    error and read back as it was written. *)
Definition storable_char (c : char) : bool :=
  is_scalar c && negb (N.eqb c cr).

Definition storable (t : text) : bool := forallb storable_char t.

(** Whether the literal parts of a template hold characters of [P] only. *)
Definition template_chars (P : char -> bool) (tpl : list titem) : bool :=
  forallb (fun i => match i with
                    | TLit l => forallb P l
                    | TGroup _ => true
                    end) tpl.

(** Rules that give a storable text for each storable text. *)
Definition keep_storable (rules : list rule) : Prop :=
  forall t u, storable t = true -> apply_rules rules t = Some u ->
              storable u = true.

(** Whether no replacement string holds [\g], the start of a group
    reference by name. *)
Definition no_named_group (rules : list rule) : bool :=
  forallb (fun rl => negb (contains [backslash; 103%N] (snd rl))) rules.

(** Whether the name of a path can be encoded: a file name that is not
    valid UTF-8 reaches the script with lone surrogates in it. *)
Definition encodable_path (p : path) : bool :=
  forallb (forallb is_scalar) p.

(** Whether the rules change what the file [f] holds. *)
Definition rules_change (rules : list rule) (s : fs) (f : path) : bool :=
  match read_text s f with
  | Ok t =>
      match apply_rules rules t with
      | Some u => negb (text_eqb u t)
      | None => false
      end
  | Raise => false
  end.

End WithUnicode.

(** ** Sample trees and configurations

    Concrete inputs on which the statements below are evaluated. *)

(** A database in which no character outside ASCII is a space or a word
    character, and lowering leaves such characters as they are. *)
Definition ascii_only : UnicodeDB :=
  {| u_space := fun _ => false; u_word := fun _ => false;
     u_lower := fun c => [c] |}.

(** The bytes of a text in UTF-8 (none for a text that has no encoding). *)
Definition utf8 (t : text) : bytes :=
  match encode t with
  | Some b => b
  | None => []
  end.

Definition sample_repo : path := [str "work"; str "rustdesk"].

Definition sample_app : path :=
  sample_repo ++ [str "flutter"; str "android"; str "app"].

Definition sample_kotlin : path :=
  sample_app ++ [str "src"; str "main"; str "kotlin"].

Definition sample_gradle_text : text :=
  str "android { defaultConfig { applicationId " ++ dq ++
  str "com.carriez.flutter_hbb" ++ dq ++ str " } }".

Definition sample_manifest_text : text :=
  str "<manifest package=" ++ dq ++ str "com.carriez.flutter_hbb" ++ dq ++
  str "><service android:name=" ++ dq ++ str ".InputService" ++ dq ++
  str "/><data android:scheme=" ++ dq ++ str "rustdesk" ++ dq ++
  str "/></manifest>".

Definition sample_kotlin_text : text :=
  str "package com.carriez.flutter_hbb; class InputService { init { " ++
  load_library (str "rustdesk") ++ str " } }".

(** The directories of the sample tree, each before what it holds. *)
Definition sample_dirs : fs :=
  [ ([str "work"], Dir);
    (sample_repo, Dir);
    (sample_repo ++ [str "flutter"], Dir);
    (sample_repo ++ [str "flutter"; str "android"], Dir);
    (sample_app, Dir);
    (sample_app ++ [str "src"], Dir);
    (sample_app ++ [str "src"; str "main"], Dir);
    (sample_kotlin, Dir);
    (sample_kotlin ++ [str "com"], Dir);
    (sample_kotlin ++ [str "com"; str "carriez"], Dir);
    (sample_kotlin ++ [str "com"; str "carriez"; str "flutter_hbb"], Dir) ].

Definition sample_tree : fs :=
  sample_dirs ++
  [ (sample_app ++ [str "build.gradle"], File (utf8 sample_gradle_text));
    (sample_app ++ [str "src"; str "main"; str "AndroidManifest.xml"],
     File (utf8 sample_manifest_text));
    (sample_kotlin ++ [str "com"; str "carriez"; str "flutter_hbb";
                       str "InputService.kt"],
     File (utf8 sample_kotlin_text));
    (sample_app ++ [str "notes.bin"],
     File (utf8 (str "com.carriez.flutter_hbb"))) ].

(** A configuration whose new package contains the old one: the global
    substitution leaves the old package in every file it rewrites. *)
Definition nested_config : PatchConfig := {|
  old_package := str "com.carriez.flutter_hbb";
  new_package := str "com.carriez.flutter_hbb.todd";
  old_app_name := str "RustDesk";
  new_app_name := str "ToddDesk";
  old_scheme := str "rustdesk";
  new_scheme := str "todddesk";
  old_service := str "InputService";
  new_service := str "ToddService";
  accessibility_desc := str "Made by Todd"
|}.

(** [--accessibility-desc "2 apps"]: a value that starts with a digit. *)
Definition digit_config : PatchConfig := {|
  old_package := str "com.carriez.flutter_hbb";
  new_package := str "com.celonis.work";
  old_app_name := str "RustDesk";
  new_app_name := str "ToddDesk";
  old_scheme := str "rustdesk";
  new_scheme := str "todddesk";
  old_service := str "InputService";
  new_service := str "ToddService";
  accessibility_desc := str "2 apps"
|}.

(** A field of [strings.xml], over two lines. *)
Definition sample_field : text :=
  str "<string name=" ++ dq ++ str "accessibility_service_description" ++ dq ++
  str ">Remote" ++ [10%N] ++ str "input</string>".

(** A tree in which the new package directory exists and holds a directory
    [Main.kt], where the old package directory holds a file [Main.kt]. *)
Definition sample_old_dir : path :=
  sample_kotlin ++ [str "com"; str "carriez"; str "flutter_hbb"].

Definition sample_new_dir : path :=
  sample_kotlin ++ [str "com"; str "celonis"; str "work"].

Definition conflict_tree : fs :=
  sample_dirs ++
  [ (sample_kotlin ++ [str "com"; str "celonis"], Dir);
    (sample_new_dir, Dir);
    (sample_new_dir ++ [str "Main.kt"], Dir);
    (sample_old_dir ++ [str "Main.kt"], File (utf8 (str "class Main"))) ].

(** [--old-app-name rustdesk]: the old app name, in lower case, occurs in
    the native names. *)
Definition lowercase_config : PatchConfig := {|
  old_package := str "com.carriez.flutter_hbb";
  new_package := str "com.celonis.work";
  old_app_name := str "rustdesk";
  new_app_name := str "ToddDesk";
  old_scheme := str "rustdesk";
  new_scheme := str "todddesk";
  old_service := str "InputService";
  new_service := str "ToddService";
  accessibility_desc := str "Made by Todd"
|}.

(** The native file name as the value of the [app_name] field. *)
Definition sample_name_field : text :=
  str "<string name=" ++ dq ++ str "app_name" ++ dq ++
  str ">librustdesk.so</string>".

(** Two log tags in a row that share a quote. *)
Definition sample_log_text : text :=
  dq ++ str "input service" ++ dq ++ str "input service" ++ dq.

Definition log_tree : fs :=
  sample_dirs ++
  [ (sample_app ++ [str "notes.md"], File (utf8 sample_log_text)) ].

(** [--new-package] equal to [--old-package]. *)
Definition same_package_config : PatchConfig := {|
  old_package := str "com.carriez.flutter_hbb";
  new_package := str "com.carriez.flutter_hbb";
  old_app_name := str "RustDesk";
  new_app_name := str "ToddDesk";
  old_scheme := str "rustdesk";
  new_scheme := str "todddesk";
  old_service := str "InputService";
  new_service := str "ToddService";
  accessibility_desc := str "Made by Todd"
|}.

(** A tree without Kotlin sources. *)
Definition bare_tree : fs :=
  [ ([str "work"], Dir);
    (sample_repo, Dir);
    (sample_repo ++ [str "flutter"], Dir);
    (sample_repo ++ [str "flutter"; str "android"], Dir);
    (sample_app, Dir);
    (sample_app ++ [str "build.gradle"], File (utf8 sample_gradle_text)) ].

(** A tree whose only text file is the Kotlin source that loads the native
    library. *)
Definition sample_kotlin_file : path :=
  sample_old_dir ++ [str "InputService.kt"].

Definition native_tree : fs :=
  sample_dirs ++ [ (sample_kotlin_file, File (utf8 sample_kotlin_text)) ].

(** [--old-scheme so]: the old scheme is the extension of the native
    library. *)
Definition so_scheme_config : PatchConfig := {|
  old_package := str "com.carriez.flutter_hbb";
  new_package := str "com.celonis.work";
  old_app_name := str "RustDesk";
  new_app_name := str "ToddDesk";
  old_scheme := str "so";
  new_scheme := str "todddesk";
  old_service := str "InputService";
  new_service := str "ToddService";
  accessibility_desc := str "Made by Todd"
|}.

(** An application name given on the command line by bytes that are not
    valid UTF-8: the interpreter hands the byte 0x80 to the script as the
    lone surrogate U+DC80. *)
Definition surrogate_config : PatchConfig := {|
  old_package := str "com.carriez.flutter_hbb";
  new_package := str "com.celonis.work";
  old_app_name := str "RustDesk";
  new_app_name := str "Todd" ++ [56448%N];
  old_scheme := str "rustdesk";
  new_scheme := str "todddesk";
  old_service := str "InputService";
  new_service := str "ToddService";
  accessibility_desc := str "Made by Todd"
|}.

(** A tree whose only text file is a [strings.xml] with the [app_name]
    field. *)
Definition sample_strings : path := sample_app ++ [str "strings.xml"].

Definition name_tree : fs :=
  sample_dirs ++ [ (sample_strings, File (utf8 sample_name_field)) ].

(** A repository below a directory whose name is not valid UTF-8, with an
    android tree that holds no file. *)
Definition surrogate_repo : path := [[56448%N]; str "rustdesk"].

Definition surrogate_tree : fs :=
  [ ([[56448%N]], Dir);
    (surrogate_repo, Dir);
    (surrogate_repo ++ [str "flutter"], Dir);
    (surrogate_repo ++ [str "flutter"; str "android"], Dir) ].

Unset Implicit Arguments.

Ltac pick_member := repeat (try (left; reflexivity); right).

(** [H : starts_with (... ++ ns ++ ...) t = true] for a concrete [t], and a
    goal on the length of the pattern: one case per length of [ns]. *)
Ltac by_length H ns :=
  repeat (destruct ns as [|? ns];
          [ simpl in H; first [discriminate H | reflexivity]
          | simpl in H;
            first [ discriminate H
                  | apply andb_true_iff in H; destruct H as [_ H] ] ]).

(** ** Basic facts *)

Section Properties.
Context {U : UnicodeDB}.

(** ** Bytes and text *)

(** Induction on the length: the decoder looks up to four bytes ahead. *)
Lemma length_ind {A} (P : list A -> Prop) :
  (forall b, (forall r, length r < length b -> P r) -> P b) ->
  forall b, P b.
Proof.
  intros H b. remember (length b) as n eqn:E. revert b E.
  induction n as [n IH] using lt_wf_ind. intros b E. apply H.
  intros r L. apply (IH (length r)); [lia | reflexivity].
Qed.

(** With [errors="replace"] decoding never raises. *)
Lemma decode_replace_total (b : bytes) : decode Replace b <> None.
Proof.
  induction b as [b IH] using length_ind.
  assert (T : forall r, length r < length b ->
                forall c, option_map (cons c) (decode Replace r) <> None).
  { intros r L c. specialize (IH r L).
    destruct (decode Replace r); [discriminate | contradiction]. }
  destruct b as [|b0 r0]; [discriminate|]. cbn [decode bad].
  repeat match goal with
         | |- context [if ?c then _ else _] => destruct c
         | |- context [match ?r with [] => _ | _ :: _ => _ end] =>
             destruct r
         | |- option_map _ (Some _) <> None => discriminate
         | |- option_map _ (decode Replace _) <> None =>
             apply T; simpl; lia
         end.
Qed.

Lemma decode_replace_text (b : bytes) : exists t, decode Replace b = Some t.
Proof.
  pose proof (decode_replace_total b) as H.
  destruct (decode Replace b) as [t|]; [now exists t | contradiction].
Qed.

(** Where strict decoding succeeds, replacing decodes to the same text. *)
Lemma decode_strict_replace (b : bytes) (t : text) :
  decode Strict b = Some t -> decode Replace b = Some t.
Proof.
  revert t. induction b as [b IH] using length_ind. intros t.
  assert (T : forall r, length r < length b ->
                forall c t, option_map (cons c) (decode Strict r) = Some t ->
                            option_map (cons c) (decode Replace r) = Some t).
  { intros r L c t' H. destruct (decode Strict r) as [u|] eqn:E;
      [|discriminate]. now rewrite (IH r L u E). }
  destruct b as [|b0 r0]; [trivial|]. cbn [decode bad].
  repeat match goal with
         | |- context [if ?c then _ else _] => destruct c
         | |- context [match ?r with [] => _ | _ :: _ => _ end] =>
             destruct r
         | |- None = Some _ -> _ => discriminate
         | |- option_map _ (decode Strict _) = Some _ -> _ =>
             apply T; simpl; lia
         end.
Qed.

(** Where strict decoding raises, the text holds U+FFFD. *)
Lemma decode_invalid_replaced (b : bytes) :
  decode Strict b = None ->
  exists t, decode Replace b = Some t /\ In replacement t.
Proof.
  induction b as [b IH] using length_ind.
  assert (T : forall r, length r < length b ->
                forall c, option_map (cons c) (decode Strict r) = None ->
                  exists t, option_map (cons c) (decode Replace r) = Some t /\
                            In replacement t).
  { intros r L c H. destruct (decode Strict r) as [u|] eqn:E;
      [discriminate|].
    destruct (IH r L E) as [t [-> I]]. exists (c :: t). simpl. auto. }
  assert (B : forall r, exists t,
                option_map (cons replacement) (decode Replace r) = Some t /\
                In replacement t).
  { intros r. destruct (decode_replace_text r) as [u ->].
    exists (replacement :: u). simpl. auto. }
  destruct b as [|b0 r0]; [discriminate|]. cbn [decode bad].
  repeat match goal with
         | |- context [if ?c then _ else _] => destruct c
         | |- context [match ?r with [] => _ | _ :: _ => _ end] =>
             destruct r
         | |- option_map _ (decode Strict _) = None -> _ =>
             apply T; simpl; lia
         | |- None = None ->
              exists t, option_map _ (decode Replace _) = Some t /\ _ =>
             intros _; apply B
         | |- None = None -> exists t, option_map _ (Some []) = Some t /\ _ =>
             intros _; exists [replacement]; simpl; auto
         end.
Qed.

(** The parts of a code point that go into the bytes of its encoding. *)
Lemma split64 (c : N) :
  exists q r, (c = 64 * q + r /\ r < 64 /\ c / 64 = q /\ c mod 64 = r)%N.
Proof.
  exists (c / 64)%N, (c mod 64)%N. repeat split.
  - apply N.div_mod. discriminate.
  - apply N.mod_lt. discriminate.
Qed.

Ltac by_cases :=
  repeat match goal with
         | |- context [N.ltb ?a ?b] => destruct (N.ltb_spec a b); try lia
         | |- context [N.leb ?a ?b] => destruct (N.leb_spec a b); try lia
         | |- context [N.eqb ?a ?b] => destruct (N.eqb_spec a b); try lia
         | H : context [N.ltb ?a ?b] |- _ =>
             destruct (N.ltb_spec a b); try lia
         | H : context [N.leb ?a ?b] |- _ =>
             destruct (N.leb_spec a b); try lia
         | H : context [N.eqb ?a ?b] |- _ =>
             destruct (N.eqb_spec a b); try lia
         end.

(** Decoding the encoding of a character gives the character back. *)
Lemma encode_char_decode (e : errors) (c : char) (bs rest : bytes) :
  encode_char c = Some bs ->
  decode e (bs ++ rest) = option_map (cons c) (decode e rest).
Proof.
  unfold encode_char, is_surrogate.
  assert (D2 : (c / 4096 = c / 64 / 64)%N)
    by (rewrite N.Div0.div_div; reflexivity).
  assert (D3 : (c / 262144 = c / 64 / 64 / 64)%N)
    by (rewrite !N.Div0.div_div; reflexivity).
  rewrite D2, D3.
  destruct (split64 c) as [q0 [r0 [E0 [R0 [Q0 M0]]]]]. rewrite Q0, M0.
  destruct (split64 q0) as [q1 [r1 [E1 [R1 [Q1 M1]]]]]. rewrite Q1, M1.
  destruct (split64 q1) as [q2 [r2 [E2 [R2 [Q2 M2]]]]]. rewrite Q2, M2.
  clear D2 D3 Q0 M0 Q1 M1 Q2 M2.
  destruct (N.ltb_spec c 128).
  { intros E. assert (B : bs = [c]) by congruence. subst bs. clear E.
    cbn [app decode]. by_cases. reflexivity. }
  destruct (N.ltb_spec c 2048).
  { intros E. assert (B : bs = [192 + q0; 128 + r0]%N) by congruence.
    subst bs. clear E. cbn [app decode]. unfold is_cont.
    by_cases; cbn [orb andb]; do 2 f_equal; lia. }
  destruct (N.ltb_spec c 65536).
  { destruct (N.leb_spec 55296 c), (N.ltb_spec c 57344);
      cbn [andb]; try discriminate;
      intros E;
      (assert (B : bs = [224 + q1; 128 + r1; 128 + r0]%N) by congruence);
      subst bs; clear E; cbn [app decode];
      unfold second_of_three, is_cont; by_cases;
      cbn [orb andb negb]; do 2 f_equal; lia. }
  destruct (N.ltb_spec c 1114112); [|discriminate].
  intros E.
  assert (B : bs = [240 + q2; 128 + r2; 128 + r1; 128 + r0]%N) by congruence.
  subst bs. clear E. cbn [app decode]. unfold second_of_four, is_cont.
  by_cases; cbn [orb andb negb]; do 2 f_equal; lia.
Qed.

Lemma encode_decode (e : errors) (t : text) (b : bytes) :
  encode t = Some b -> decode e b = Some t.
Proof.
  revert b. induction t as [|c t IH]; intros b; simpl.
  - now intros [= <-].
  - destruct (encode_char c) as [bs|] eqn:C; [|discriminate].
    destruct (encode t) as [b'|]; [|discriminate]. intros [= <-].
    rewrite (encode_char_decode e c bs b' C), (IH b' eq_refl). reflexivity.
Qed.

(** The texts that can be encoded are those of scalar values. *)
Lemma encode_char_scalar (c : char) :
  encode_char c <> None <-> is_scalar c = true.
Proof.
  unfold encode_char, is_scalar, is_surrogate.
  destruct (N.ltb_spec c 128), (N.ltb_spec c 2048), (N.ltb_spec c 65536),
    (N.ltb_spec c 1114112), (N.leb_spec 55296 c), (N.ltb_spec c 57344);
    cbn [andb negb]; try lia; split; try discriminate; try reflexivity;
    intros X; try discriminate X; try now contradiction X.
Qed.

Lemma encode_scalar (t : text) :
  encode t <> None <-> forallb is_scalar t = true.
Proof.
  induction t as [|c t IH]; simpl; [split; [reflexivity | discriminate]|].
  rewrite andb_true_iff, <- IH, <- encode_char_scalar.
  destruct (encode_char c), (encode t); split; intros H;
    try discriminate; try (split; discriminate);
    try (destruct H as [H1 H2]; congruence); try congruence.
Qed.

Lemma encodes (t : text) :
  forallb is_scalar t = true -> exists b, encode t = Some b.
Proof.
  intros H. apply encode_scalar in H.
  destruct (encode t) as [b|]; [now exists b | contradiction].
Qed.

(** Decoding gives scalar values only. *)
Lemma decode_scalar (e : errors) (b : bytes) (t : text) :
  decode e b = Some t -> forallb is_scalar t = true.
Proof.
  revert t. induction b as [b IH] using length_ind. intros t.
  assert (Ta : forall r v, length r < length b -> is_scalar v = true ->
                 option_map (cons v) (decode e r) = Some t ->
                 forallb is_scalar t = true).
  { intros r v L V H. destruct (decode e r) as [u|] eqn:E; [|discriminate].
    injection H as <-. simpl. now rewrite V, (IH r L u E). }
  assert (Tb : forall r, length r < length b ->
                 bad e (decode e r) = Some t -> forallb is_scalar t = true).
  { intros r L. destruct e; [discriminate|]. now apply Ta. }
  assert (Tc : bad e (Some []) = Some t -> forallb is_scalar t = true).
  { destruct e; [discriminate|]. now intros [= <-]. }
  destruct b as [|b0 r0]; [now intros [= <-]|]. cbn [decode].
  unfold second_of_three, second_of_four, is_cont.
  repeat first
    [ progress by_cases
    | progress cbn [orb andb negb]
    | progress rewrite ?andb_false_r, ?andb_true_r
    | match goal with
      | |- context [match ?r with [] => _ | _ :: _ => _ end] => destruct r
      end ];
    first
      [ exact Tc
      | apply Tb; simpl; lia
      | apply Ta; [simpl; lia |];
        unfold is_scalar, is_surrogate; by_cases; reflexivity ].
Qed.

(** ** Line ends *)

Lemma newlines_no_cr (s : text) :
  forallb (fun c => negb (N.eqb c cr)) (universal_newlines s) = true.
Proof.
  induction s as [s IH] using length_ind.
  destruct s as [|c s']; [reflexivity|]. cbn [universal_newlines].
  destruct (N.eqb c cr) eqn:C.
  - cbn [forallb]. change (N.eqb lf cr) with false. cbn [negb andb].
    destruct s' as [|d s'']; [reflexivity|].
    destruct (N.eqb d lf); apply IH; simpl; lia.
  - cbn [forallb]. rewrite C. cbn [negb andb]. apply IH. simpl. lia.
Qed.

(** A text without carriage return is read as it is. *)
Lemma newlines_plain (s : text) :
  forallb (fun c => negb (N.eqb c cr)) s = true -> universal_newlines s = s.
Proof.
  induction s as [|c s IH]; [reflexivity|]. cbn [forallb universal_newlines].
  intros H. apply andb_true_iff in H. destruct H as [C H].
  apply negb_true_iff in C. rewrite C. f_equal. now apply IH.
Qed.

Lemma newlines_keep (P : char -> bool) (s : text) :
  P lf = true -> forallb P s = true ->
  forallb P (universal_newlines s) = true.
Proof.
  intros L. induction s as [s IH] using length_ind.
  destruct s as [|c s']; [reflexivity|]. cbn [universal_newlines forallb].
  intros H. apply andb_true_iff in H. destruct H as [C H].
  destruct (N.eqb c cr).
  - cbn [forallb]. rewrite L. cbn [andb].
    destruct s' as [|d s'']; [reflexivity|].
    cbn [forallb] in H. apply andb_true_iff in H. destruct H as [D H'].
    destruct (N.eqb d lf); apply IH; simpl; try lia;
      [exact H' | now rewrite D, H'].
  - cbn [forallb]. rewrite C. cbn [andb]. apply IH; [simpl; lia | exact H].
Qed.


Lemma text_eqb_eq (a b : text) : text_eqb a b = true <-> a = b.
Proof.
  revert b; induction a as [|x a IH]; intros [|y b]; simpl;
    try (split; [discriminate | discriminate]); try tauto.
  rewrite andb_true_iff, N.eqb_eq, IH.
  split; [intros [-> ->]; reflexivity | intros E; inversion E; auto].
Qed.

Lemma text_eqb_refl (a : text) : text_eqb a a = true.
Proof. apply text_eqb_eq; reflexivity. Qed.

Lemma text_eqb_neq (a b : text) : text_eqb a b = false <-> a <> b.
Proof.
  rewrite <- text_eqb_eq. destruct (text_eqb a b); split; congruence.
Qed.

Lemma path_eqb_eq (p q : path) : path_eqb p q = true <-> p = q.
Proof.
  revert q; induction p as [|x p IH]; intros [|y q]; simpl;
    try (split; [discriminate | discriminate]); try tauto.
  rewrite andb_true_iff, text_eqb_eq, IH.
  split; [intros [-> ->]; reflexivity | intros E; inversion E; auto].
Qed.

Lemma path_eqb_refl (p : path) : path_eqb p p = true.
Proof. apply path_eqb_eq; reflexivity. Qed.

Lemma is_under_longer (root q : path) :
  is_under root q = true -> length root < length q.
Proof.
  revert q; induction root as [|a root IH]; intros [|b q]; simpl;
    try discriminate; try lia.
  rewrite andb_true_iff. intros [_ H]. apply IH in H. lia.
Qed.

Lemma is_under_neq (root q : path) : is_under root q = true -> q <> root.
Proof. intros H E. apply is_under_longer in H. subst. lia. Qed.

(** Writing one entry leaves every other path as it was. *)
Lemma find_set_other (p q : path) (e : entry) (s : fs) :
  p <> q -> find_entry q (set_entry p e s) = find_entry q s.
Proof.
  intros N. induction s as [|[r e'] s IH]; simpl.
  - destruct (path_eqb p q) eqn:E; [apply path_eqb_eq in E; contradiction | reflexivity].
  - destruct (path_eqb r p) eqn:E; simpl.
    + apply path_eqb_eq in E. subst r.
      destruct (path_eqb p q) eqn:E'; [apply path_eqb_eq in E'; contradiction | reflexivity].
    + destruct (path_eqb r q); [reflexivity | exact IH].
Qed.

Lemma find_set_same (p : path) (e : entry) (s : fs) :
  find_entry p (set_entry p e s) = Some e.
Proof.
  induction s as [|[r e'] s IH]; simpl.
  - now rewrite path_eqb_refl.
  - destruct (path_eqb r p) eqn:E; simpl; rewrite E; [reflexivity | exact IH].
Qed.

Lemma kind_set_other (p q : path) (e : entry) (s : fs) :
  p <> q -> kind (set_entry p e s) q = kind s q.
Proof. intros N. destruct q; simpl; [reflexivity | now apply find_set_other]. Qed.

(** ... and adds nothing below a directory it is not in. *)
Lemma rglob_set_outside (p root : path) (e : entry) (s : fs) :
  is_under root p = false -> rglob (set_entry p e s) root = rglob s root.
Proof.
  intros H. unfold rglob. induction s as [|[r e'] s IH]; simpl.
  - now rewrite H.
  - destruct (path_eqb r p) eqn:E; simpl.
    + destruct (is_under root r); reflexivity.
    + destruct (is_under root r); simpl; now rewrite IH.
Qed.

Lemma rglob_under (s : fs) (root f : path) :
  In f (rglob s root) -> is_under root f = true.
Proof.
  unfold rglob. rewrite in_map_iff. intros [[q e] [<- H]].
  apply filter_In in H. tauto.
Qed.

Lemma iter_text_files_under (s : fs) (root f : path) :
  In f (iter_text_files s root) -> is_under root f = true.
Proof.
  unfold iter_text_files. intros H. apply filter_In in H.
  apply rglob_under with (s := s). tauto.
Qed.

(** ** The residue scans *)

Lemma scan_any_clean (s : fs) (root : path) (needle : text) :
  scan_any s root needle = Ok [] ->
  forall f c, In f (iter_text_files s root) ->
    read_text s f = Ok c -> contains needle c = false.
Proof.
  unfold scan_any. induction (iter_text_files s root) as [|g l IH]; simpl.
  - intros _ f c [].
  - destruct (read_text s g) as [cg|] eqn:Rg; [|discriminate].
    destruct (fold_right _ _ l) as [hits|]; [|discriminate].
    destruct (contains needle cg) eqn:Cg; [discriminate|].
    intros E f c [<- | Hin] Rf.
    + congruence.
    + now apply (IH E f c).
Qed.

Lemma scan_any_residue (s : fs) (root : path) (needle : text) (f : path)
    (c : text) :
  In f (iter_text_files s root) -> read_text s f = Ok c ->
  contains needle c = true -> scan_any s root needle <> Ok [].
Proof.
  intros Hin Rf Cf E.
  rewrite (scan_any_clean _ _ _ E f c Hin Rf) in Cf. discriminate.
Qed.

Lemma first_failure_none (l : list (option outcome)) :
  first_failure l = None -> forall x, In x l -> x = None.
Proof.
  induction l as [|[o|] l IH]; simpl; intros E x Hx.
  - destruct Hx.
  - discriminate.
  - destruct Hx as [<- | Hx]; [reflexivity | now apply IH].
Qed.

Lemma first_failure_some (l : list (option outcome)) (P : outcome -> Prop) :
  (forall o, In (Some o) l -> P o) ->
  forall o, first_failure l = Some o -> P o.
Proof.
  induction l as [|[o'|] l IH]; simpl; intros H o E.
  - discriminate.
  - inversion E; subst. apply H. now left.
  - apply IH; [|exact E]. intros o1 H1. apply H. now right.
Qed.

Lemma must_contain_status (s : fs) (p : path) (needle : text) (o : outcome) :
  must_contain s p needle = Some o -> exit_status o = 1.
Proof.
  unfold must_contain. destruct (read_text s p); [|now intros [= <-]].
  destruct (negb _); [now intros [= <-] | discriminate].
Qed.

Lemma must_not_contain_status (s : fs) (p : path) (needle : text)
    (o : outcome) :
  must_not_contain s p needle = Some o -> exit_status o = 1.
Proof.
  unfold must_not_contain. destruct (read_text s p); [|now intros [= <-]].
  destruct (contains _ _); [now intros [= <-] | discriminate].
Qed.

Lemma no_hits_status (scans : list (result (list path)))
    (why : list path -> failure) (o : outcome) :
  no_hits scans why = Some o -> exit_status o = 1.
Proof.
  unfold no_hits. destruct (fold_right _ _ scans) as [[|h hs]|];
    [discriminate | now intros [= <-] | now intros [= <-]].
Qed.

Lemma no_hits_one (r : result (list path)) (why : list path -> failure) :
  no_hits [r] why = None <-> r = Ok [].
Proof.
  unfold no_hits; simpl. destruct r as [[|h hs]|]; simpl;
    split; try discriminate; try reflexivity.
Qed.

(** A failed validation never ends the run with status 0. *)
Lemma validate_status (repo : path) (cfg : PatchConfig) (s : fs)
    (o : outcome) :
  validate repo cfg s = Some o -> exit_status o = 1.
Proof.
  unfold validate. intros V.
  apply (first_failure_some _ (fun o => exit_status o = 1)) in V; [exact V|].
  clear o V. intros o H. simpl in H.
  destruct H as [H | [H | [H | [H | [H | []]]]]];
    try (eapply no_hits_status; exact H).
  - unfold check_gradle in H. destruct (exists_ _ _); [|discriminate].
    apply (first_failure_some _ (fun o => exit_status o = 1)) in H;
      [exact H|].
    clear. intros o [H | [H | []]].
    + eapply must_contain_status; exact H.
    + eapply must_not_contain_status; exact H.
  - unfold check_manifest in H. destruct (exists_ _ _); [|discriminate].
    apply (first_failure_some _ (fun o => exit_status o = 1)) in H;
      [exact H|].
    clear. intros o [H | [H | [H | []]]]; eapply must_contain_status; exact H.
Qed.

(** A validation that passes has found no file with the old package. *)
Lemma validate_pass_scan (repo : path) (cfg : PatchConfig) (s : fs) :
  validate repo cfg s = None ->
  scan_any s (android_root repo) (old_package cfg) = Ok [].
Proof.
  intros H. apply no_hits_one with (why := OldPackageLeft).
  apply (first_failure_none _ H). simpl. auto.
Qed.

(** ** The run as a whole *)

(** What [main] returns once the android root is there. *)
Lemma main_unfold (repo : path) (cfg : PatchConfig) (mv : bool) (s : fs)
    (st : rewrite_state) (notes : list note) (ok : bool) :
  exists_ s (android_root repo) = true ->
  patch_tree repo cfg mv s = (st, notes, ok) ->
  main repo cfg mv s =
    if negb ok then (Uncaught, rw_fs st)
    else match validate repo cfg (rw_fs st) with
         | Some o => (o, rw_fs st)
         | None =>
             match write_report repo cfg (rw_changed st) notes (rw_fs st) with
             | (s', false) => (Uncaught, s')
             | (s', true) =>
                 (Exit0 (rw_scanned st) (length (rw_changed st)), s')
             end
         end.
Proof. intros E P. unfold main. rewrite E, P. reflexivity. Qed.

(** A file the scan reaches still holds the old package: the run stops
    with a nonzero status on the tree the rules and the move left. *)
Lemma residue_stops_run (repo : path) (cfg : PatchConfig) (mv : bool)
    (s : fs) (st : rewrite_state) (notes : list note) (ok : bool)
    (f : path) (c : text) :
  exists_ s (android_root repo) = true ->
  patch_tree repo cfg mv s = (st, notes, ok) ->
  In f (iter_text_files (rw_fs st) (android_root repo)) ->
  read_text (rw_fs st) f = Ok c ->
  contains (old_package cfg) c = true ->
  exit_status (fst (main repo cfg mv s)) = 1 /\
  snd (main repo cfg mv s) = rw_fs st.
Proof.
  intros E P Hin Rf Cf. rewrite (main_unfold _ _ _ _ _ _ _ E P).
  destruct ok; simpl; [|split; reflexivity].
  destruct (validate repo cfg (rw_fs st)) as [o|] eqn:V.
  - split; [exact (validate_status _ _ _ _ V) | reflexivity].
  - exfalso. apply validate_pass_scan in V.
    exact (scan_any_residue _ _ _ _ _ Hin Rf Cf V).
Qed.

(** The report lies outside the android tree. *)
Lemma report_outside (repo : path) :
  is_under (android_root repo) (report_path repo) = false.
Proof.
  destruct (is_under _ _) eqn:E; [|reflexivity].
  apply is_under_longer in E. unfold android_root, report_path in E.
  rewrite !length_app in E. simpl in E. lia.
Qed.

(** A write changes nothing but the file written, whether it returns or
    raises. *)
Lemma write_text_cases (s : fs) (p : path) (c : text) :
  fst (write_text s p c) = s \/
  exists b, fst (write_text s p c) = set_entry p (File b) s.
Proof.
  unfold write_text. destruct (writable s p); [|now left].
  destruct (encode c) as [b|]; right; eexists; reflexivity.
Qed.

(** Writing the report changes nothing the file walker sees below the
    android root. *)
Lemma write_report_frame (repo : path) (cfg : PatchConfig)
    (changed : list path) (notes : list note) (s s' : fs) (ok : bool) :
  write_report repo cfg changed notes s = (s', ok) ->
  iter_text_files s' (android_root repo) =
    iter_text_files s (android_root repo) /\
  forall f, is_under (android_root repo) f = true ->
    read_text s' f = read_text s f.
Proof.
  unfold write_report. intros W.
  destruct (write_text_cases s (report_path repo)
              (report_text cfg changed notes)) as [E|[b E]];
    rewrite W in E; cbn [fst] in E; subst s'; [now split|].
  assert (K : forall f, is_under (android_root repo) f = true ->
                kind (set_entry (report_path repo) (File b) s) f = kind s f).
  { intros f Hf. apply kind_set_other. intros <-.
    rewrite report_outside in Hf. discriminate. }
  split.
  - unfold iter_text_files. rewrite rglob_set_outside by apply report_outside.
    apply filter_ext_in. intros f Hf. apply rglob_under in Hf.
    unfold is_file. now rewrite K.
  - intros f Hf. unfold read_text. now rewrite K.
Qed.

(** C1. A run that ends with status 0 leaves no scanned file of
    flutter/android with the old package identifier in it; and when a
    scanned file of the tree left by the rules and the optional move still
    holds it, the run ends with a nonzero status. *)
Theorem old_package_gone_or_run_fails (repo : path) (cfg : PatchConfig)
    (mv : bool) (s : fs) :
  (exit_status (fst (main repo cfg mv s)) = 0 ->
   forall f c,
     In f (iter_text_files (snd (main repo cfg mv s)) (android_root repo)) ->
     read_text (snd (main repo cfg mv s)) f = Ok c ->
     contains (old_package cfg) c = false) /\
  (forall st notes ok f c,
     exists_ s (android_root repo) = true ->
     patch_tree repo cfg mv s = (st, notes, ok) ->
     In f (iter_text_files (rw_fs st) (android_root repo)) ->
     read_text (rw_fs st) f = Ok c ->
     contains (old_package cfg) c = true ->
     exit_status (fst (main repo cfg mv s)) <> 0).
Proof.
  split.
  - destruct (exists_ s (android_root repo)) eqn:E.
    + destruct (patch_tree repo cfg mv s) as [[st notes] ok] eqn:P.
      rewrite (main_unfold _ _ _ _ _ _ _ E P).
      destruct ok; simpl; [|discriminate].
      destruct (validate repo cfg (rw_fs st)) as [o|] eqn:V.
      * simpl. rewrite (validate_status _ _ _ _ V). discriminate.
      * destruct (write_report _ _ _ _ _) as [s' [|]] eqn:W; simpl;
          [|discriminate].
        intros _ f c Hin Rf.
        destruct (write_report_frame _ _ _ _ _ _ _ W) as [I R].
        rewrite I in Hin. rewrite (R f) in Rf
          by (eapply iter_text_files_under; exact Hin).
        exact (scan_any_clean _ _ _ (validate_pass_scan _ _ _ V) f c Hin Rf).
    + unfold main. rewrite E. simpl. discriminate.
  - intros st notes ok f c E P Hin Rf Cf.
    destruct (residue_stops_run _ _ _ _ _ _ _ _ _ E P Hin Rf Cf) as [H _].
    rewrite H. discriminate.
Qed.

(** C10. Without a flutter/android subtree under the repository root the
    run stops at once with a fatal error and a nonzero status, whatever the
    configuration, and the file system is as it was: nothing rewritten, no
    report. *)
Theorem missing_android_root_aborts (repo : path) (cfg : PatchConfig)
    (mv : bool) (s : fs) :
  exists_ s (android_root repo) = false ->
  main repo cfg mv s = (SystemExit (NoAndroidRoot (android_root repo)), s) /\
  exit_status (fst (main repo cfg mv s)) <> 0.
Proof.
  intros E. unfold main. rewrite E. simpl. split; [reflexivity | discriminate].
Qed.

(** ** The rewriter *)

Lemma read_text_file (s : fs) (p : path) :
  is_file s p = true -> exists src, read_text s p = Ok src.
Proof.
  unfold is_file, read_text. destruct (kind s p) as [[b|]|]; try discriminate.
  intros _. destruct (decode_replace_text b) as [t ->]. now eexists.
Qed.

Lemma read_text_is_file (s : fs) (f : path) (c : text) :
  read_text s f = Ok c -> is_file s f = true.
Proof.
  unfold read_text, is_file. destruct (kind s f) as [[?|]|];
    [reflexivity | discriminate | discriminate].
Qed.

(** A text that was read holds no carriage return: reading it again as a
    text would give the same. *)
Lemma read_text_no_cr (s : fs) (p : path) (c : text) :
  read_text s p = Ok c -> forallb (fun x => negb (N.eqb x cr)) c = true.
Proof.
  unfold read_text. destruct (kind s p) as [[b|]|]; try discriminate.
  destruct (decode Replace b); [|discriminate]. intros [= <-].
  apply newlines_no_cr.
Qed.

Lemma read_text_scalar (s : fs) (p : path) (c : text) :
  read_text s p = Ok c -> forallb is_scalar c = true.
Proof.
  unfold read_text. destruct (kind s p) as [[b|]|]; try discriminate.
  destruct (decode Replace b) as [t|] eqn:D; [|discriminate]. intros [= <-].
  apply newlines_keep; [reflexivity | exact (decode_scalar _ _ _ D)].
Qed.

Lemma is_file_writable (s : fs) (p : path) :
  is_file s p = true -> writable s p = true.
Proof.
  unfold is_file, writable. destruct p as [|a p]; simpl; [discriminate|].
  now destruct (find_entry (a :: p) s) as [[?|]|].
Qed.

(** Writing to a file that is there. *)
Lemma write_text_existing (s : fs) (p : path) (c : text) :
  is_file s p = true ->
  write_text s p c =
    match encode c with
    | Some b => (set_entry p (File b) s, true)
    | None => (set_entry p (File []) s, false)
    end.
Proof. intros F. unfold write_text. now rewrite (is_file_writable _ _ F). Qed.

Lemma kind_set_same (p : path) (e : entry) (s : fs) :
  p <> [] -> kind (set_entry p e s) p = Some e.
Proof. destruct p; [contradiction|]. intros _. simpl. apply find_set_same. Qed.

Lemma is_file_nonempty (s : fs) (p : path) : is_file s p = true -> p <> [].
Proof. unfold is_file. destruct p; [discriminate | discriminate]. Qed.

(** What was written is read back with its line ends read as line feeds. *)
Lemma read_written (s : fs) (p : path) (c : text) (b : bytes) :
  p <> [] -> encode c = Some b ->
  read_text (set_entry p (File b) s) p = Ok (universal_newlines c).
Proof.
  intros N E. unfold read_text. rewrite (kind_set_same _ _ _ N).
  now rewrite (encode_decode Replace _ _ E).
Qed.

(** The three ways [replace_in_file] ends on a file whose text the rules
    rewrite: nothing to write, the new text written, or a new text that
    cannot be encoded. *)
Lemma replace_in_file_unchanged (s : fs) (p : path) (rules : list rule)
    (src : text) :
  read_text s p = Ok src -> apply_rules rules src = Some src ->
  replace_in_file s p rules = (s, Ok false).
Proof.
  intros R A. unfold replace_in_file. now rewrite R, A, text_eqb_refl.
Qed.

Lemma replace_in_file_written (s : fs) (p : path) (rules : list rule)
    (src dst : text) (b : bytes) :
  read_text s p = Ok src -> apply_rules rules src = Some dst ->
  dst <> src -> encode dst = Some b ->
  replace_in_file s p rules = (set_entry p (File b) s, Ok true).
Proof.
  intros R A D E. unfold replace_in_file. rewrite R, A.
  apply text_eqb_neq in D. rewrite D. cbn [negb].
  now rewrite (write_text_existing _ _ _ (read_text_is_file _ _ _ R)), E.
Qed.

Lemma replace_in_file_failed (s : fs) (p : path) (rules : list rule)
    (src dst : text) :
  read_text s p = Ok src -> apply_rules rules src = Some dst ->
  dst <> src -> encode dst = None ->
  replace_in_file s p rules = (set_entry p (File []) s, Raise).
Proof.
  intros R A D E. unfold replace_in_file. rewrite R, A.
  apply text_eqb_neq in D. rewrite D. cbn [negb].
  now rewrite (write_text_existing _ _ _ (read_text_is_file _ _ _ R)), E.
Qed.

(** A text without line feed that the text read holds stood in the text
    before its line ends were read as line feeds. *)
Lemma starts_with_newlines (needle t : text) :
  forallb (fun c => negb (N.eqb c lf)) needle = true ->
  starts_with needle (universal_newlines t) = true ->
  starts_with needle t = true.
Proof.
  revert t. induction needle as [|x needle IH]; intros t L; [reflexivity|].
  cbn [forallb] in L. apply andb_true_iff in L. destruct L as [Lx L].
  apply negb_true_iff in Lx.
  destruct t as [|c t]; [discriminate|]. cbn [universal_newlines].
  destruct (N.eqb c cr).
  - cbn [starts_with]. now rewrite Lx.
  - cbn [starts_with]. intros H. apply andb_true_iff in H.
    destruct H as [-> H]. now apply IH.
Qed.

Lemma contains_newlines (needle t : text) :
  forallb (fun c => negb (N.eqb c lf)) needle = true ->
  contains needle t = false ->
  contains needle (universal_newlines t) = false.
Proof.
  intros L. induction t as [t IH] using length_ind.
  destruct t as [|c t]; [intros H; exact H|].
  intros H. pose proof H as H'. cbn [contains] in H'.
  apply orb_false_iff in H'. destruct H' as [S T].
  assert (S' : starts_with needle (universal_newlines (c :: t)) = false).
  { destruct (starts_with needle (universal_newlines (c :: t))) eqn:Q;
      [|reflexivity].
    apply (starts_with_newlines _ _ L) in Q. congruence. }
  assert (Tl : contains needle (universal_newlines t) = false)
    by (apply IH; [simpl; lia | exact T]).
  revert S'. cbn [universal_newlines]. destruct (N.eqb c cr).
  - intros S'. cbn [contains]. rewrite S'. cbn [orb].
    destruct t as [|d t']; [exact T|].
    destruct (N.eqb d lf); [|exact Tl].
    apply IH; [simpl; lia|]. cbn [contains] in T.
    apply orb_false_iff in T. tauto.
  - intros S'. cbn [contains]. now rewrite S', Tl.
Qed.

(** A character that is no line end stays where it is read. *)
Lemma newlines_in (x : char) (t : text) :
  N.eqb x cr = false -> N.eqb x lf = false ->
  In x t -> In x (universal_newlines t).
Proof.
  intros C L. induction t as [t IH] using length_ind.
  destruct t as [|c t']; [intros []|]. cbn [universal_newlines].
  intros [->|I].
  - rewrite C. now left.
  - destruct (N.eqb c cr); [|right; apply IH; [simpl; lia | exact I]].
    right. destruct t' as [|d t'']; [destruct I|].
    destruct (N.eqb d lf) eqn:D.
    + destruct I as [->|I]; [congruence|]. apply IH; [simpl; lia | exact I].
    + apply IH; [simpl; lia | exact I].
Qed.

(** C9 (amended). A file the rewriter processes is read without raising,
    whatever bytes it holds: the text read is the strict decoding of the
    bytes where there is one, with its line ends read as line feeds, and
    holds U+FFFD where there is none.  When the rules give the text read,
    the file system and the changed files stay as they are.  When they give
    another text that can be encoded, the file is written back with the
    encoding of that text, and its path (relative to the repository) joins
    the changed files.  When they give a text that cannot be encoded, the
    file is left empty and the loop raises. *)
Theorem rewriter_writes_iff_changed (repo : path) (rules : list rule)
    (s : fs) (p : path) (b : bytes) (changed : list path) (n : nat) :
  kind s p = Some (File b) ->
  exists src,
    read_text s p = Ok src /\
    (forall t, decode Strict b = Some t -> src = universal_newlines t) /\
    (decode Strict b = None -> In replacement src) /\
    forall dst, apply_rules rules src = Some dst ->
      (dst = src ->
         replace_in_file s p rules = (s, Ok false) /\
         rewrite_files repo rules [p]
           {| rw_fs := s; rw_changed := changed; rw_scanned := n |} =
         ({| rw_fs := s; rw_changed := changed; rw_scanned := S n |}, true)) /\
      (dst <> src ->
         forall b', encode dst = Some b' ->
         replace_in_file s p rules = (set_entry p (File b') s, Ok true) /\
         kind (set_entry p (File b') s) p = Some (File b') /\
         read_text (set_entry p (File b') s) p =
           Ok (universal_newlines dst) /\
         rewrite_files repo rules [p]
           {| rw_fs := s; rw_changed := changed; rw_scanned := n |} =
         ({| rw_fs := set_entry p (File b') s;
             rw_changed := changed ++ [relative_to repo p];
             rw_scanned := S n |}, true)) /\
      (dst <> src ->
         encode dst = None ->
         replace_in_file s p rules = (set_entry p (File []) s, Raise) /\
         rewrite_files repo rules [p]
           {| rw_fs := s; rw_changed := changed; rw_scanned := n |} =
         ({| rw_fs := set_entry p (File []) s; rw_changed := changed;
             rw_scanned := S n |}, false)).
Proof.
  intros K.
  assert (F : is_file s p = true) by (unfold is_file; now rewrite K).
  pose proof (is_file_nonempty _ _ F) as Np.
  destruct (decode_replace_text b) as [t D].
  assert (R : read_text s p = Ok (universal_newlines t))
    by (unfold read_text; now rewrite K, D).
  exists (universal_newlines t). split; [exact R|]. split; [|split].
  - intros t' S. apply decode_strict_replace in S. congruence.
  - intros S. destruct (decode_invalid_replaced _ S) as [t' [D' I]].
    assert (t' = t) by congruence. subst t'.
    now apply newlines_in.
  - intros dst A. split; [|split].
    + intros ->.
      pose proof (replace_in_file_unchanged _ _ _ _ R A) as E.
      split; [exact E|]. simpl. now rewrite E.
    + intros N b' Eb.
      pose proof (replace_in_file_written _ _ _ _ _ _ R A N Eb) as E.
      split; [exact E|]. split; [exact (kind_set_same _ _ _ Np)|].
      split; [exact (read_written _ _ _ _ Np Eb)|]. simpl. now rewrite E.
    + intros N Eb.
      pose proof (replace_in_file_failed _ _ _ _ _ R A N Eb) as E.
      split; [exact E|]. simpl. now rewrite E.
Qed.

(** ** The extension allow-list *)

Lemma iter_text_files_spec (s : fs) (root f : path) :
  In f (iter_text_files s root) ->
  is_file s f = true /\ text_ext f = true /\ is_under root f = true.
Proof.
  intros H. pose proof (iter_text_files_under _ _ _ H) as Hu.
  unfold iter_text_files in H. apply filter_In in H.
  destruct H as [_ H]. apply andb_true_iff in H. tauto.
Qed.

(** One file rewritten: every other path keeps what it had. *)
Lemma replace_in_file_cases (s : fs) (p : path) (rules : list rule) :
  fst (replace_in_file s p rules) = s \/
  is_file s p = true /\
  exists b, fst (replace_in_file s p rules) = set_entry p (File b) s.
Proof.
  unfold replace_in_file. destruct (read_text s p) as [src|] eqn:R;
    [|now left].
  destruct (apply_rules rules src) as [dst|]; [|now left].
  destruct (negb _); [|now left].
  rewrite (write_text_existing _ _ _ (read_text_is_file _ _ _ R)).
  right. split; [exact (read_text_is_file _ _ _ R)|].
  destruct (encode dst) as [b|]; eexists; reflexivity.
Qed.

Lemma replace_in_file_frame (s s' : fs) (p q : path) (rules : list rule)
    (r : result bool) :
  replace_in_file s p rules = (s', r) -> p <> q -> kind s' q = kind s q.
Proof.
  intros E N. destruct (replace_in_file_cases s p rules) as [H|[_ [b H]]];
    rewrite E in H; cbn [fst] in H; subst s'; [reflexivity|].
  now apply kind_set_other.
Qed.

Lemma rewrite_files_frame (repo : path) (rules : list rule)
    (files : list path) (st : rewrite_state) (q : path) :
  ~ In q files ->
  kind (rw_fs (fst (rewrite_files repo rules files st))) q = kind (rw_fs st) q.
Proof.
  revert st. induction files as [|f files IH]; intros st N; simpl.
  - reflexivity.
  - destruct (replace_in_file (rw_fs st) f rules) as [s' [b|]] eqn:E; simpl.
    + rewrite IH by (intros H; apply N; now right). simpl.
      apply (replace_in_file_frame _ _ _ _ _ _ E).
      intros ->. apply N. now left.
    + apply (replace_in_file_frame _ _ _ _ _ _ E).
      intros ->. apply N. now left.
Qed.

(** Replacing the content of an existing file changes neither the paths
    nor what is a file. *)
Lemma rglob_set_file (s : fs) (f root : path) (e : entry) :
  exists_ s f = true -> f <> [] ->
  rglob (set_entry f e s) root = rglob s root.
Proof.
  unfold exists_, kind, rglob. destruct f as [|a f]; [congruence|].
  intros H _. induction s as [|[r e'] s IH]; simpl in *; [discriminate|].
  destruct (path_eqb r (a :: f)) eqn:E; simpl.
  - destruct (is_under root r); reflexivity.
  - destruct (is_under root r); simpl; now rewrite IH.
Qed.

Lemma is_file_set_file (s : fs) (f g : path) (c : bytes) :
  is_file s f = true -> is_file (set_entry f (File c) s) g = is_file s g.
Proof.
  intros F. unfold is_file in *. destruct (list_eq_dec (list_eq_dec N.eq_dec) f g) as [<-|N].
  - destruct f as [|a f]; [discriminate|]. simpl in *.
    rewrite find_set_same. destruct (find_entry (a :: f) s) as [[?|]|];
      [reflexivity | discriminate | discriminate].
  - now rewrite kind_set_other.
Qed.

Lemma is_file_exists (s : fs) (f : path) :
  is_file s f = true -> exists_ s f = true /\ f <> [].
Proof.
  unfold is_file, exists_. destruct f; simpl; [discriminate|].
  destruct (find_entry _ _) as [[?|]|]; try discriminate.
  split; [reflexivity | discriminate].
Qed.

Lemma iter_text_files_set_file (s : fs) (f root : path) (c : bytes) :
  is_file s f = true ->
  iter_text_files (set_entry f (File c) s) root = iter_text_files s root.
Proof.
  intros F. unfold iter_text_files.
  destruct (is_file_exists _ _ F) as [E N].
  rewrite (rglob_set_file _ _ _ _ E N).
  apply filter_ext. intros g. now rewrite is_file_set_file.
Qed.

Lemma read_text_set_other (s : fs) (f g : path) (e : entry) :
  f <> g -> read_text (set_entry f e s) g = read_text s g.
Proof. intros N. unfold read_text. now rewrite kind_set_other. Qed.

(** The scans do not look into a file whose extension is not listed. *)
Lemma scan_any_set_file (s : fs) (f root : path) (c : bytes)
    (needle : text) :
  is_file s f = true -> text_ext f = false ->
  scan_any (set_entry f (File c) s) root needle = scan_any s root needle.
Proof.
  intros F X. unfold scan_any. rewrite (iter_text_files_set_file _ _ _ _ F).
  assert (H : forall g, In g (iter_text_files s root) -> f <> g).
  { intros g Hg <-. apply iter_text_files_spec in Hg. rewrite X in Hg.
    destruct Hg as [_ [Hg _]]. discriminate. }
  induction (iter_text_files s root) as [|g l IH]; simpl; [reflexivity|].
  rewrite IH by (intros g' Hg'; apply H; now right).
  rewrite read_text_set_other by (apply H; now left). reflexivity.
Qed.

Lemma name_snoc (p : path) (c : text) : name (p ++ [c]) = c.
Proof. unfold name. apply last_last. Qed.

Lemma gradle_text_ext (repo : path) : text_ext (gradle_path repo) = true.
Proof.
  unfold gradle_path, text_ext, suffix.
  change [str "flutter"; str "android"; str "app"; str "build.gradle"]
    with ([str "flutter"; str "android"; str "app"] ++ [str "build.gradle"]).
  rewrite app_assoc, name_snoc. reflexivity.
Qed.

Lemma manifest_text_ext (repo : path) : text_ext (manifest_path repo) = true.
Proof.
  unfold manifest_path, text_ext, suffix.
  change [str "flutter"; str "android"; str "app"; str "src"; str "main";
          str "AndroidManifest.xml"]
    with ([str "flutter"; str "android"; str "app"; str "src"; str "main"]
          ++ [str "AndroidManifest.xml"]).
  rewrite app_assoc, name_snoc. reflexivity.
Qed.

Lemma scan_any_hits (s : fs) (root : path) (needle : text)
    (hits : list path) (f : path) :
  scan_any s root needle = Ok hits -> In f hits ->
  In f (iter_text_files s root).
Proof.
  unfold scan_any. revert hits.
  induction (iter_text_files s root) as [|g l IH]; simpl; intros hits E H.
  - inversion E; subst. destruct H.
  - destruct (read_text s g) as [cg|]; [|discriminate].
    destruct (fold_right _ _ l) as [hs|]; [|discriminate].
    inversion E; subst. destruct (contains needle cg).
    + destruct H as [<- | H]; [now left | right; now apply (IH hs)].
    + right. now apply (IH hs).
Qed.

(** Validation gives the same verdict whatever a file with an unlisted
    extension holds. *)
Lemma validate_set_file (repo : path) (cfg : PatchConfig) (s : fs)
    (f : path) (c : bytes) :
  is_file s f = true -> text_ext f = false ->
  validate repo cfg (set_entry f (File c) s) = validate repo cfg s.
Proof.
  intros F X. unfold validate.
  rewrite !(scan_any_set_file _ _ _ _ _ F X).
  assert (G : f <> gradle_path repo)
    by (intros ->; rewrite gradle_text_ext in X; discriminate).
  assert (M : f <> manifest_path repo)
    by (intros ->; rewrite manifest_text_ext in X; discriminate).
  unfold check_gradle, check_manifest, exists_, must_contain,
    must_not_contain.
  rewrite !(kind_set_other _ _ _ _ G), !(kind_set_other _ _ _ _ M).
  rewrite !(read_text_set_other _ _ _ _ G), !(read_text_set_other _ _ _ _ M).
  reflexivity.
Qed.

(** C5. The rewriter pass and the residue scans of the validator only
    reach files whose extension, lowered, is in the allow-list.  A file
    with another extension is left as it is by the rewriter pass, and the
    verdict of the validator does not depend on what it holds: the old
    package in such a file does not make the run fail. *)
Theorem only_listed_extensions (repo : path) (cfg : PatchConfig) (s : fs) :
  (forall root f, In f (iter_text_files s root) ->
     is_file s f = true /\ in_texts (lower (suffix f)) TEXT_EXTS = true) /\
  (forall root needle hits f, scan_any s root needle = Ok hits ->
     In f hits -> in_texts (lower (suffix f)) TEXT_EXTS = true) /\
  (forall f, in_texts (lower (suffix f)) TEXT_EXTS = false ->
     kind (rw_fs (fst (rewrite_files repo (build_rules cfg)
                         (iter_text_files s (android_root repo))
                         {| rw_fs := s; rw_changed := [];
                            rw_scanned := 0 |}))) f
     = kind s f) /\
  (forall f c, is_file s f = true ->
     in_texts (lower (suffix f)) TEXT_EXTS = false ->
     validate repo cfg (set_entry f (File c) s) = validate repo cfg s).
Proof.
  repeat split.
  - now apply iter_text_files_spec in H.
  - now apply iter_text_files_spec in H.
  - intros root needle hits f E H.
    apply (scan_any_hits _ _ _ _ _ E) in H.
    now apply iter_text_files_spec in H.
  - intros f X. rewrite rewrite_files_frame; [reflexivity|].
    intros H. apply iter_text_files_spec in H.
    unfold text_ext in H. rewrite X in H. destruct H as [_ [H _]].
    discriminate.
  - intros f c F X. now apply validate_set_file.
Qed.

(** ** The matcher on literals *)

Lemma starts_with_app (s r : text) : starts_with s (s ++ r) = true.
Proof. induction s as [|x s IH]; simpl; [reflexivity|]. now rewrite N.eqb_refl. Qed.

Lemma starts_with_split (s t : text) :
  starts_with s t = true -> t = s ++ skipn (length s) t.
Proof.
  revert t; induction s as [|x s IH]; intros [|c t]; simpl; try discriminate;
    try reflexivity.
  rewrite andb_true_iff, N.eqb_eq. intros [-> H]. f_equal. now apply IH.
Qed.

Lemma starts_with_length (s t : text) :
  starts_with s t = true -> length s <= length t.
Proof.
  intros H. rewrite (starts_with_split _ _ H), length_app. lia.
Qed.

Lemma skipn_shorter (n : nat) (t : text) :
  n <= length t -> length t - length (skipn n t) = n.
Proof. intros H. rewrite length_skipn. lia. Qed.

Lemma m_lit_spec {R} (s : text) (prev : option char) (t : text)
    (gs : list text) (k : cont R) :
  m_lit s prev t gs k =
    if starts_with s t
    then k (prev_after prev s) (skipn (length s) t) gs
    else None.
Proof.
  revert prev t; induction s as [|x s IH]; intros prev [|c t]; simpl;
    try reflexivity.
  destruct (N.eqb x c) eqn:E; simpl; [|reflexivity].
  apply N.eqb_eq in E. subst c. apply IH.
Qed.

(** [contains] and its negation. *)
Lemma contains_of_starts (needle t : text) :
  starts_with needle t = true -> contains needle t = true.
Proof. intros H. destruct t; simpl; now rewrite H. Qed.

Lemma contains_app (needle a b : text) :
  contains needle (a ++ needle ++ b) = true.
Proof.
  induction a as [|c a IH]; simpl.
  - apply contains_of_starts, starts_with_app.
  - rewrite IH. apply orb_true_r.
Qed.

Lemma contains_split (needle t : text) :
  contains needle t = true -> exists a b, t = a ++ needle ++ b.
Proof.
  induction t as [|c t IH]; simpl.
  - rewrite orb_false_r. intros H. exists [], []. simpl.
    destruct needle; [reflexivity | discriminate].
  - destruct (starts_with needle (c :: t)) eqn:E; simpl.
    + intros _. exists [], (skipn (length needle) (c :: t)).
      now apply starts_with_split.
    + intros H. destruct (IH H) as [a [b ->]]. now exists (c :: a), b.
Qed.

Lemma contains_tail (needle : text) (c : char) (t : text) :
  contains needle (c :: t) = false -> contains needle t = false.
Proof. simpl. now intros H%orb_false_elim. Qed.

Lemma contains_head (needle t : text) :
  contains needle t = false -> starts_with needle t = false.
Proof. destruct t; simpl; now intros H%orb_false_elim. Qed.

(** ** Whole-word substitution *)

Lemma prev_after_app (prev : option char) (a b : text) :
  prev_after prev (a ++ b) = prev_after (prev_after prev a) b.
Proof. unfold prev_after. apply fold_left_app. Qed.

Lemma prev_after_cons (prev : option char) (c : char) (a : text) :
  prev_after prev (c :: a) = prev_after (Some c) a.
Proof. reflexivity. Qed.

Lemma word_after_app (a b : text) :
  a <> [] -> word_after (a ++ b) = word_after a.
Proof. destruct a; [congruence | reflexivity]. Qed.

Lemma at_boundary_app (prev : option char) (a b : text) :
  a <> [] -> at_boundary prev (a ++ b) = at_boundary prev a.
Proof. intros H. unfold at_boundary. now rewrite word_after_app. Qed.

(** After a word, the previous character is a word character. *)
Lemma word_before_after (prev : option char) (s : text) :
  s <> [] -> forallb is_word s = true ->
  word_before (prev_after prev s) = true.
Proof.
  revert prev. induction s as [|c s IH]; intros prev N H; [congruence|].
  simpl in H. apply andb_true_iff in H. destruct H as [Hc Hs].
  rewrite prev_after_cons. destruct s as [|d s]; [exact Hc|].
  apply IH; [discriminate | exact Hs].
Qed.

Lemma contained_word (needle w : text) :
  contains needle w = true -> forallb is_word w = true ->
  forallb is_word needle = true.
Proof.
  intros C W. destruct (contains_split _ _ C) as [a [b ->]].
  rewrite !forallb_app in W. apply andb_true_iff in W. destruct W as [_ W].
  apply andb_true_iff in W. tauto.
Qed.

(** What [\b word \b] matches at a position. *)
Lemma match_word_spec (w : text) (adv : bool) (prev : option char)
    (t : text) :
  match_here (safe_word_replace w) adv prev t =
    if at_boundary prev t && starts_with w t &&
       at_boundary (prev_after prev w) (skipn (length w) t)
    then (if adv && Nat.eqb (length w) 0 then None
          else Some ([], length w))
    else None.
Proof.
  unfold match_here, safe_word_replace. simpl.
  destruct (at_boundary prev t); simpl; [|reflexivity].
  rewrite m_lit_spec. destruct (starts_with w t) eqn:S; simpl; [|reflexivity].
  destruct (at_boundary _ _); [|reflexivity].
  rewrite skipn_shorter by now apply starts_with_length. reflexivity.
Qed.

(** A word that starts before a non-word character ends before it. *)
Lemma starts_with_word_stops (w p rest : text) :
  forallb is_word w = true -> word_after rest = false ->
  starts_with w (p ++ rest) = starts_with w p.
Proof.
  intros W R. revert p. induction w as [|x w IH]; intros p; [reflexivity|].
  simpl in W. apply andb_true_iff in W. destruct W as [Wx W].
  destruct p as [|c p]; simpl.
  - destruct rest as [|d rest]; [reflexivity|]. simpl in R.
    destruct (N.eqb x d) eqn:E; [|reflexivity].
    apply N.eqb_eq in E. congruence.
  - now rewrite IH.
Qed.

Section WordRule.
Variable old : text.
Variable tpl : list titem.
Hypothesis old_nonempty : old <> [].
Hypothesis old_word : forallb is_word old = true.

Lemma scan_word_step (prev : option char) (c : char) (t : text) :
  scan (safe_word_replace old) tpl 0 prev (c :: t) =
    if word_hit old prev (c :: t)
    then expand tpl (firstn (length old) (c :: t)) [] ++
         scan (safe_word_replace old) tpl (length old - 1) (Some c) t
    else c :: scan (safe_word_replace old) tpl 0 (Some c) t.
Proof.
  cbn [scan]. rewrite !match_word_spec. fold (word_hit old prev (c :: t)).
  destruct (word_hit old prev (c :: t)); [|reflexivity].
  destruct old as [|x o]; [congruence|]. simpl length.
  replace (S (length o) - 1) with (length o) by lia. reflexivity.
Qed.

Lemma scan_word_end (prev : option char) :
  scan (safe_word_replace old) tpl 0 prev [] = [].
Proof.
  cbn [scan]. rewrite match_word_spec.
  destruct old; [congruence|]. simpl. now rewrite andb_false_r.
Qed.

(** Inside a run of word characters nothing matches. *)
Lemma scan_word_inside (w post : text) (pc : char) :
  is_word pc = true -> forallb is_word w = true ->
  scan (safe_word_replace old) tpl 0 (Some pc) (w ++ post) =
    w ++ scan (safe_word_replace old) tpl 0 (prev_after (Some pc) w) post.
Proof.
  revert pc. induction w as [|c w IH]; intros pc P W; [reflexivity|].
  simpl in W. apply andb_true_iff in W. destruct W as [Wc W].
  simpl app. rewrite scan_word_step.
  unfold word_hit, at_boundary at 1. simpl word_before. simpl word_after.
  rewrite P, Wc. simpl. f_equal. now apply IH.
Qed.

(** A token that is not [old] itself is copied. *)
Lemma scan_word_token (prev : option char) (w post : text) :
  word_before prev = false -> forallb is_word w = true -> w <> old ->
  word_after post = false ->
  scan (safe_word_replace old) tpl 0 prev (w ++ post) =
    w ++ scan (safe_word_replace old) tpl 0 (prev_after prev w) post.
Proof.
  intros P W N Q. destruct w as [|c w]; [reflexivity|].
  pose proof W as W'. simpl in W'. apply andb_true_iff in W'.
  destruct W' as [Wc Ww].
  change ((c :: w) ++ post) with (c :: (w ++ post)). rewrite scan_word_step.
  assert (H : word_hit old prev (c :: w ++ post) = false).
  { unfold word_hit.
    change (c :: w ++ post) with ((c :: w) ++ post).
    rewrite (starts_with_word_stops _ _ _ old_word Q).
    destruct (starts_with old (c :: w)) eqn:S;
      [|now rewrite andb_false_r].
    pose proof (starts_with_split _ _ S) as E.
    pose proof (starts_with_length _ _ S) as L.
    destruct (skipn (length old) (c :: w)) as [|d rem] eqn:K.
    - rewrite app_nil_r in E. congruence.
    - rewrite skipn_app, K.
      assert (Wd : is_word d = true).
      { rewrite E, forallb_app in W. apply andb_true_iff in W.
        destruct W as [_ W]. simpl in W. apply andb_true_iff in W. tauto. }
      unfold at_boundary at 2.
      rewrite (word_before_after _ _ old_nonempty old_word).
      simpl. rewrite Wd. simpl. apply andb_false_r. }
  rewrite H. rewrite prev_after_cons. cbn [app]. f_equal.
  now apply scan_word_inside.
Qed.

(** Before a non-word character, a match of a word neither reaches it nor
    looks past it. *)
Lemma starts_with_word_short (w p rest : text) (prev : option char) :
  forallb is_word w = true -> p <> [] ->
  word_before (prev_after prev p) = false ->
  starts_with w (p ++ rest) = starts_with w p /\
  (starts_with w p = true -> length w < length p).
Proof.
  intros W. revert p prev. induction w as [|x w IH]; intros p prev N L.
  - split; [reflexivity|]. destruct p; [congruence | simpl; lia].
  - simpl in W. apply andb_true_iff in W. destruct W as [Wx W].
    destruct p as [|c p]; [congruence|]. rewrite prev_after_cons in L.
    simpl. destruct p as [|d p].
    + simpl in L. destruct (N.eqb x c) eqn:E.
      * apply N.eqb_eq in E. congruence.
      * split; [reflexivity | discriminate].
    + destruct (IH W (d :: p) (Some c)) as [H1 H2]; [discriminate | exact L |].
      rewrite H1.
      split; [reflexivity|]. intros H. apply andb_true_iff in H.
      destruct H as [_ H]. apply H2 in H. simpl in *. lia.
Qed.

Lemma word_hit_prefix (prev : option char) (p rest : text) :
  p <> [] -> word_before (prev_after prev p) = false ->
  word_hit old prev (p ++ rest) = word_hit old prev p /\
  (word_hit old prev p = true -> length old < length p).
Proof.
  intros N L. unfold word_hit.
  destruct (starts_with_word_short old p rest prev old_word N L) as [H1 H2].
  rewrite H1, (at_boundary_app _ _ _ N).
  destruct (starts_with old p) eqn:S.
  - specialize (H2 eq_refl). split; [|intros _; exact H2].
    rewrite skipn_app. replace (length old - length p) with 0 by lia.
    simpl skipn. rewrite at_boundary_app; [reflexivity|].
    intros E. apply (f_equal (@length char)) in E.
    rewrite length_skipn in E. simpl in E. lia.
  - rewrite !andb_false_r. split; [reflexivity | discriminate].
Qed.

(** What precedes a token is rewritten as it would be on its own. *)
Lemma scan_word_prefix (pre rest : text) (skip : nat) (prev : option char) :
  skip <= length pre -> word_before (prev_after prev pre) = false ->
  scan (safe_word_replace old) tpl skip prev (pre ++ rest) =
    scan (safe_word_replace old) tpl skip prev pre ++
    scan (safe_word_replace old) tpl 0 (prev_after prev pre) rest.
Proof.
  revert skip prev. induction pre as [|c pre IH]; intros skip prev K L.
  - simpl in K. replace skip with 0 by lia. now rewrite scan_word_end.
  - destruct skip as [|n].
    + change ((c :: pre) ++ rest) with (c :: (pre ++ rest)).
      rewrite !scan_word_step.
      change (c :: (pre ++ rest)) with ((c :: pre) ++ rest).
      destruct (word_hit_prefix prev (c :: pre) rest) as [H1 H2];
        [discriminate | exact L |].
      rewrite H1. destruct (word_hit old prev (c :: pre)) eqn:W.
      * specialize (H2 eq_refl). simpl in H2.
        rewrite firstn_app.
        replace (length old - length (c :: pre)) with 0 by (simpl; lia).
        simpl firstn at 2. rewrite app_nil_r, <- app_assoc. f_equal.
        apply IH; [lia | exact L].
      * simpl. f_equal. apply IH; [lia | exact L].
    + simpl in K. simpl. apply IH; [lia | exact L].
Qed.

End WordRule.

(** C6. The whole-word rule for the old service name (rule 4 of
    [build_rules]) leaves a longer identifier that contains the name as it
    is, wherever it stands in the text: a token [w] of word characters
    between non-word characters (or the ends of the text), which contains
    the name and is not the name, is copied, and the text before and after
    it is rewritten as it would be without it.  The substitution raises
    only when the new service name is a malformed template. *)
Theorem whole_word_rule_spares_longer_identifier (cfg : PatchConfig)
    (pre w post : text) :
  old_service cfg <> [] ->
  forallb is_word w = true ->
  contains (old_service cfg) w = true ->
  w <> old_service cfg ->
  word_before (prev_after None pre) = false ->
  word_after post = false ->
  In (safe_word_replace (old_service cfg), new_service cfg) (build_rules cfg) /\
  re_sub (safe_word_replace (old_service cfg)) (new_service cfg)
         (pre ++ w ++ post) =
    match compile_template (safe_word_replace (old_service cfg))
            (new_service cfg) with
    | Some tpl =>
        Some (scan (safe_word_replace (old_service cfg)) tpl 0 None pre ++
              w ++
              scan (safe_word_replace (old_service cfg)) tpl 0
                   (prev_after None (pre ++ w)) post)
    | None => None
    end.
Proof.
  intros N W C D L Q. split.
  - unfold build_rules. apply in_or_app. right. simpl. auto.
  - unfold re_sub. destruct (compile_template _ _) as [tpl|]; [|reflexivity].
    f_equal. pose proof (contained_word _ _ C W) as OW.
    rewrite (scan_word_prefix _ tpl N OW pre (w ++ post) 0 None)
      by (try lia; exact L).
    f_equal. rewrite prev_after_app.
    now apply scan_word_token.
Qed.

(** ** The directory migrator *)

Lemma exists_set (s : fs) (p q : path) (e : entry) :
  exists_ s p = true -> exists_ (set_entry q e s) p = true.
Proof.
  unfold exists_. intros H.
  destruct (list_eq_dec (list_eq_dec N.eq_dec) q p) as [->|N].
  - destruct p; simpl; [reflexivity|]. now rewrite find_set_same.
  - now rewrite kind_set_other.
Qed.

Lemma write_text_keeps (s s' : fs) (q p : path) (c : text) (ok : bool) :
  write_text s q c = (s', ok) -> exists_ s p = true -> exists_ s' p = true.
Proof.
  intros W E. destruct (write_text_cases s q c) as [H|[b H]];
    rewrite W in H; cbn [fst] in H; subst s'; [exact E|].
  now apply exists_set.
Qed.

Lemma write_bytes_keeps (s s' : fs) (q p : path) (b : bytes) :
  write_bytes s q b = Ok s' -> exists_ s p = true -> exists_ s' p = true.
Proof.
  unfold write_bytes. destruct (writable s q); [|discriminate].
  intros [= <-]. apply exists_set.
Qed.

Lemma mkdir_from_keeps (todo done : path) (s s' : fs) (p : path) :
  mkdir_from done todo s = Ok s' -> exists_ s p = true -> exists_ s' p = true.
Proof.
  revert done s. induction todo as [|c todo IH]; intros done s; simpl.
  - now intros [= <-].
  - destruct (kind s (done ++ [c])) as [[?|]|]; [discriminate | apply IH |].
    intros M E. apply (IH _ _ M). now apply exists_set.
Qed.

Lemma copy2_keeps (s s' : fs) (src dst p : path) :
  copy2 s src dst = Ok s' -> exists_ s p = true -> exists_ s' p = true.
Proof.
  unfold copy2. destruct (kind s src) as [[b|]|]; try discriminate.
  destruct (path_eqb _ _); [discriminate|]. apply write_bytes_keeps.
Qed.

(** What each creation of directories and each copy of the merge loop
    keeps, the loop keeps, whether it ends or raises. *)
Lemma merge_items_inv (Inv : fs -> Prop) (old_dir new_dir : path) :
  (forall s s' rel,
     mkdir_parents s (parent (new_dir ++ rel)) = Ok s' -> Inv s -> Inv s') ->
  (forall s s' item rel,
     copy2 s item (new_dir ++ rel) = Ok s' -> Inv s -> Inv s') ->
  forall items s s' ok,
    merge_items old_dir new_dir items s = (s', ok) -> Inv s -> Inv s'.
Proof.
  intros Hm Hc. induction items as [|item items IH]; intros s s' ok; simpl.
  - now intros [= <- _].
  - destruct (is_file s item); [|apply IH].
    destruct (mkdir_parents s _) as [s1|] eqn:M; [|now intros [= <- _]].
    destruct (copy2 s1 item _) as [s2|] eqn:C.
    + intros H I. apply (IH _ _ _ H). apply (Hc _ _ _ _ C).
      now apply (Hm _ _ _ M).
    + intros [= <- _] I. now apply (Hm _ _ _ M).
Qed.

Lemma merge_walk_inv (Inv : fs -> Prop) (old_dir new_dir : path) :
  (forall s s' rel,
     mkdir_parents s (parent (new_dir ++ rel)) = Ok s' -> Inv s -> Inv s') ->
  (forall s s' item rel,
     copy2 s item (new_dir ++ rel) = Ok s' -> Inv s -> Inv s') ->
  forall depth d s s' ok,
    merge_walk depth old_dir new_dir d s = (s', ok) -> Inv s -> Inv s'.
Proof.
  intros Hm Hc. induction depth as [|depth IH]; intros d s s' ok;
    cbn [merge_walk];
    destruct (merge_items old_dir new_dir (scandir s d) s) as [s1 ok1] eqn:M;
    intros H I;
    assert (I1 : Inv s1) by exact (merge_items_inv Inv _ _ Hm Hc _ _ _ _ M I).
  - destruct ok1; now injection H as <- _.
  - destruct ok1; [|now injection H as <- _].
    clear M I. revert H.
    generalize (filter (is_dir s1) (scandir s1 d)). intros subs.
    assert (G : forall (acc : fs * bool), Inv (fst acc) ->
              fold_left
                (fun (acc : fs * bool) (sub : path) =>
                   if snd acc
                   then merge_walk depth old_dir new_dir sub (fst acc)
                   else acc) subs acc = (s', ok) -> Inv s').
    { induction subs as [|sub subs IHs]; intros acc Ia; simpl.
      - intros E. now rewrite E in Ia.
      - apply IHs. destruct acc as [sa [|]]; cbn [fst snd] in *; [|exact Ia].
        destruct (merge_walk depth old_dir new_dir sub sa) as [sb okb] eqn:W.
        exact (IH _ _ _ _ W Ia). }
    exact (G (s1, true) I1).
Qed.

Lemma merge_files_inv (Inv : fs -> Prop) (old_dir new_dir : path) :
  (forall s s' rel,
     mkdir_parents s (parent (new_dir ++ rel)) = Ok s' -> Inv s -> Inv s') ->
  (forall s s' item rel,
     copy2 s item (new_dir ++ rel) = Ok s' -> Inv s -> Inv s') ->
  forall s s' ok,
    merge_files old_dir new_dir s = (s', ok) -> Inv s -> Inv s'.
Proof.
  intros Hm Hc s s' ok. unfold merge_files.
  destruct (is_dir s old_dir); [|now intros [= <- _]].
  apply (merge_walk_inv Inv _ _ Hm Hc).
Qed.

(** The merge loop removes nothing, whether it ends or raises. *)
Lemma merge_files_keeps (old_dir new_dir : path) (s s' : fs) (ok : bool)
    (p : path) :
  merge_files old_dir new_dir s = (s', ok) ->
  exists_ s p = true -> exists_ s' p = true.
Proof.
  apply (merge_files_inv (fun x => exists_ x p = true)).
  - intros x x' rel M. exact (mkdir_from_keeps _ _ _ _ _ M).
  - intros x x' item rel C. exact (copy2_keeps _ _ _ _ _ C).
Qed.

(** Without the old package directory the migrator records a note and
    changes nothing. *)
Lemma move_without_old_dir (repo : path) (cfg : PatchConfig) (s : fs)
    (notes : list note) :
  exists_ s (kotlin_root repo) = true ->
  exists_ s (package_dir (kotlin_root repo) (old_package cfg)) = false ->
  move_kotlin_dir repo cfg s notes =
    (s, notes ++ [OldDirNotFound
                    (package_dir (kotlin_root repo) (old_package cfg))],
     true).
Proof. intros K O. unfold move_kotlin_dir. rewrite K, O. reflexivity. Qed.

(** When the migrator raises, every path that was there is still there:
    the old directory is only deleted after all copies were made. *)
Lemma move_raise_keeps (repo : path) (cfg : PatchConfig) (s s' : fs)
    (notes notes' : list note) (p : path) :
  move_kotlin_dir repo cfg s notes = (s', notes', false) ->
  exists_ s p = true -> exists_ s' p = true.
Proof.
  unfold move_kotlin_dir. destruct (negb (exists_ s (kotlin_root repo)));
    [discriminate|].
  destruct (negb (exists_ s _)); [discriminate|].
  destruct (mkdir_parents s _) as [s1|] eqn:M; [|now intros [= <- _]].
  destruct (exists_ s1 _).
  - destruct (merge_files _ _ s1) as [s2 [|]] eqn:G; [discriminate|].
    intros [= <- _] E. apply (merge_files_keeps _ _ _ _ _ _ G).
    now apply (mkdir_from_keeps _ _ _ _ _ M).
  - destruct (move s1 _ _); [discriminate|].
    intros [= <- _] E. now apply (mkdir_from_keeps _ _ _ _ _ M).
Qed.

(** ** What a match implies about the text *)

Lemma contains_suffix (l a t : text) :
  contains l t = true -> contains l (a ++ t) = true.
Proof.
  intros H. induction a as [|c a IH]; [exact H|].
  simpl. rewrite IH. apply orb_true_r.
Qed.

Lemma or_else_some {R} (a b : option R) (x : R) :
  or_else a b = Some x -> a = Some x \/ (a = None /\ b = Some x).
Proof. destruct a; simpl; auto. Qed.

Lemma m_spaces_star_sound {R} (prev : option char) (t : text)
    (gs : list text) (k : cont R) (x : R) :
  m_spaces_star prev t gs k = Some x ->
  exists p' t', k p' t' gs = Some x /\ exists a, t = a ++ t'.
Proof.
  revert prev. induction t as [|c t IH]; intros prev; simpl.
  - intros H. exists prev, []. split; [exact H | now exists []].
  - destruct (is_space c).
    + intros H. apply or_else_some in H. destruct H as [H | [_ H]].
      * destruct (IH _ H) as [p' [t' [K [a ->]]]].
        exists p', t'. split; [exact K | now exists (c :: a)].
      * exists prev, (c :: t). split; [exact H | now exists []].
    + intros H. exists prev, (c :: t). split; [exact H | now exists []].
Qed.

Lemma m_lazy_any_sound {R} (prev : option char) (t : text)
    (gs : list text) (k : cont R) (x : R) :
  m_lazy_any prev t gs k = Some x ->
  exists p' t', k p' t' gs = Some x /\ exists a, t = a ++ t'.
Proof.
  revert prev. induction t as [|c t IH]; intros prev; simpl; intros H;
    apply or_else_some in H.
  - destruct H as [H | [_ H]]; [|discriminate].
    exists prev, []. split; [exact H | now exists []].
  - destruct H as [H | [_ H]].
    + exists prev, (c :: t). split; [exact H | now exists []].
    + destruct (IH _ H) as [p' [t' [K [a ->]]]].
      exists p', t'. split; [exact K | now exists (c :: a)].
Qed.

(** A match runs the continuation on a suffix of the text, and the text
    contains every literal of the pattern. *)
Lemma m_re_sound {R} (r : regex) (prev : option char) (t : text)
    (gs : list text) (k : cont R) (x : R) :
  m_re r prev t gs k = Some x ->
  (exists p' t' gs', k p' t' gs' = Some x /\ exists a, t = a ++ t') /\
  Forall (fun l => contains l t = true) (lits r).
Proof.
  revert prev t gs k. induction r as [s| | | |r IH|r1 IH1 r2 IH2|r1 IH1 r2 IH2];
    intros prev t gs k; simpl.
  - rewrite m_lit_spec. destruct (starts_with s t) eqn:S; [|discriminate].
    intros H. split.
    + exists (prev_after prev s), (skipn (length s) t), gs.
      split; [exact H|]. exists s. now apply starts_with_split.
    + constructor; [now apply contains_of_starts | constructor].
  - unfold m_spaces. destruct t as [|c t]; [discriminate|].
    destruct (is_space c); [|discriminate]. intros H. split; [|constructor].
    destruct (m_spaces_star_sound _ _ _ _ _ H) as [p' [t' [K [a ->]]]].
    exists p', t', gs. split; [exact K | now exists (c :: a)].
  - intros H. split; [|constructor].
    destruct (m_lazy_any_sound _ _ _ _ _ H) as [p' [t' [K E]]].
    now exists p', t', gs.
  - destruct (at_boundary prev t); [|discriminate]. intros H.
    split; [|constructor]. exists prev, t, gs. split; [exact H | now exists []].
  - intros H. destruct (IH _ _ _ _ H) as [[p' [t' [gs' [K E]]]] L].
    split; [|exact L]. now exists p', t', (gs' ++ [firstn (length t - length t') t]).
  - intros H. destruct (IH1 _ _ _ _ H) as [[p1 [t1 [gs1 [K1 [a1 E1]]]]] L1].
    destruct (IH2 _ _ _ _ K1) as [[p2 [t2 [gs2 [K2 [a2 E2]]]]] L2].
    split.
    + exists p2, t2, gs2. split; [exact K2|]. exists (a1 ++ a2).
      now rewrite <- app_assoc, <- E2.
    + apply Forall_app. split; [exact L1|].
      rewrite E1. eapply Forall_impl; [|exact L2].
      intros l. apply contains_suffix.
  - intros H. split; [|constructor]. apply or_else_some in H.
    destruct H as [H | [_ H]]; [apply IH1 in H | apply IH2 in H]; tauto.
Qed.

(** ** Rules that find nothing to replace *)

Lemma match_here_lits (r : regex) (adv : bool) (prev : option char)
    (t : text) (x : list text * nat) :
  match_here r adv prev t = Some x ->
  Forall (fun l => contains l t = true) (lits r).
Proof. unfold match_here. intros H. now apply m_re_sound in H. Qed.

Lemma match_here_absent (r : regex) (adv : bool) (prev : option char)
    (t l : text) :
  In l (lits r) -> contains l t = false -> match_here r adv prev t = None.
Proof.
  intros I C. destruct (match_here r adv prev t) as [x|] eqn:M;
    [|reflexivity].
  apply match_here_lits in M. rewrite Forall_forall in M.
  rewrite (M l I) in C. discriminate.
Qed.

(** A text that lacks a literal of the pattern is copied. *)
Lemma scan_absent (r : regex) (tpl : list titem) (l t : text)
    (prev : option char) :
  In l (lits r) -> contains l t = false -> scan r tpl 0 prev t = t.
Proof.
  intros I. revert prev. induction t as [|c t IH]; intros prev C.
  - cbn [scan]. now rewrite (match_here_absent r false prev [] l I C).
  - cbn [scan]. rewrite (match_here_absent r false prev (c :: t) l I C).
    f_equal. apply IH. now apply contains_tail in C.
Qed.

Lemma re_sub_absent (r : regex) (repl l t : text) :
  In l (lits r) -> contains l t = false ->
  compile_template r repl <> None -> re_sub r repl t = Some t.
Proof.
  intros I C T. unfold re_sub. destruct (compile_template r repl);
    [|congruence].
  f_equal. now apply scan_absent with (l := l).
Qed.

Lemma apply_rules_fixed (rules : list rule) (t : text) :
  Forall (fun rl => re_sub (fst rl) (snd rl) t = Some t) rules ->
  apply_rules rules t = Some t.
Proof.
  induction 1 as [|[r repl] rules H _ IH]; simpl; [reflexivity|].
  simpl in H. now rewrite H.
Qed.

Lemma mapping_keys (cfg : PatchConfig) (kv : text * text) :
  In kv (mapping cfg) ->
  fst kv = old_package cfg \/ fst kv = old_app_name cfg.
Proof.
  unfold mapping. simpl. destruct (text_eqb _ _); simpl.
  - intros [<- | []]. now left.
  - intros [<- | [<- | []]]; [now left | now right].
Qed.

Lemma templates_ok_in (rules : list rule) (rl : rule) :
  templates_ok rules = true -> In rl rules ->
  compile_template (fst rl) (snd rl) <> None.
Proof.
  unfold templates_ok. rewrite forallb_forall. intros H I.
  specialize (H rl I). destruct (compile_template _ _); [discriminate | discriminate].
Qed.

(** ** Sequences of literals *)

Lemma starts_with_app_split (a b t : text) :
  starts_with (a ++ b) t =
    starts_with a t && starts_with b (skipn (length a) t).
Proof.
  revert t. induction a as [|x a IH]; intros t; simpl.
  - destruct t; reflexivity.
  - destruct t as [|c t]; simpl; [reflexivity|].
    rewrite IH. apply andb_assoc.
Qed.

(** [a b c] as three literals in a row matches where their concatenation
    starts the text. *)
Lemma match_lit_seq3 (a b c : text) (adv : bool) (prev : option char)
    (t : text) :
  match_here (RSeq (RLit a) (RSeq (RLit b) (RLit c))) adv prev t =
    if starts_with (a ++ b ++ c) t
    then (if adv && Nat.eqb (length (a ++ b ++ c)) 0 then None
          else Some ([], length (a ++ b ++ c)))
    else None.
Proof.
  unfold match_here. simpl. rewrite !m_lit_spec, !starts_with_app_split.
  destruct (starts_with a t) eqn:A; simpl; [|reflexivity].
  destruct (starts_with b _) eqn:B; simpl; [|reflexivity].
  destruct (starts_with c _) eqn:C; simpl; [|reflexivity].
  apply starts_with_length in A, B, C.
  rewrite !length_skipn in *. rewrite !length_app.
  replace (length t - (length t - length a - length b - length c))
    with (length a + (length b + length c)) by lia.
  reflexivity.
Qed.

(** Four alternatives between two literals: the first that fits. *)
Lemma match_alt4 (p a1 a2 a3 a4 q : text) (adv : bool)
    (prev : option char) (t : text) :
  match_here
    (RSeq (RLit p)
       (RSeq (RAlt (RLit a1) (RAlt (RLit a2) (RAlt (RLit a3) (RLit a4))))
             (RLit q))) adv prev t =
  or_else (match_here (RSeq (RLit p) (RSeq (RLit a1) (RLit q))) adv prev t)
    (or_else (match_here (RSeq (RLit p) (RSeq (RLit a2) (RLit q))) adv prev t)
       (or_else
          (match_here (RSeq (RLit p) (RSeq (RLit a3) (RLit q))) adv prev t)
          (match_here (RSeq (RLit p) (RSeq (RLit a4) (RLit q))) adv prev t))).
Proof.
  unfold match_here. simpl. rewrite !(m_lit_spec p).
  destruct (starts_with p t); reflexivity.
Qed.

(** Passing over the rest of a match. *)
Lemma scan_skip (r : regex) (tpl : list titem) (a b : text)
    (prev : option char) :
  scan r tpl (length a) prev (a ++ b) = scan r tpl 0 (prev_after prev a) b.
Proof.
  revert prev. induction a as [|c a IH]; intros prev; [reflexivity|].
  simpl. apply IH.
Qed.

(** A match of the whole text. *)
Lemma scan_whole_match (r : regex) (tpl : list titem) (t : text)
    (gs : list text) (l : text) :
  t <> [] -> In l (lits r) -> l <> [] ->
  match_here r false None t = Some (gs, length t) ->
  scan r tpl 0 None t = expand tpl t gs.
Proof.
  intros N I L M. destruct t as [|c t]; [congruence|].
  change (length (c :: t)) with (S (length t)) in M.
  cbn [scan]. rewrite M. cbv iota beta.
  rewrite firstn_all2 by (simpl; lia).
  pose proof (scan_skip r tpl t [] (Some c)) as K.
  rewrite app_nil_r in K. rewrite K. clear K.
  cbn [scan]. rewrite (match_here_absent r false _ [] l I).
  - apply app_nil_r.
  - destruct l; [congruence | reflexivity].
Qed.

(** No match at the first character, and a literal of the pattern missing
    from the rest. *)
Lemma scan_first_only (r : regex) (tpl : list titem) (c : char)
    (t l : text) :
  match_here r false None (c :: t) = None ->
  In l (lits r) -> contains l t = false ->
  scan r tpl 0 None (c :: t) = c :: t.
Proof.
  intros M I C. cbn [scan]. rewrite M. f_equal. now apply scan_absent with (l := l).
Qed.

(** ** The canonical native names under rules 10 and 11 *)

Lemma so_length (ns : text) :
  starts_with (str "lib" ++ ns ++ str ".so") native_so = true ->
  length (str "lib" ++ ns ++ str ".so") = length native_so.
Proof. intros H. by_length H ns. Qed.

Lemma load_length (a : text) :
  starts_with ((str "System.loadLibrary(" ++ dq) ++ a ++ dq ++ str ")")
    native_load = true ->
  length ((str "System.loadLibrary(" ++ dq) ++ a ++ dq ++ str ")") =
    length native_load.
Proof. intros H. by_length H a. Qed.

(** Rule 11 on [librustdesk.so], whatever the new scheme. *)
Lemma scan_native_so (ns : text) :
  scan (RSeq (RLit (str "lib")) (RSeq (RLit ns) (RLit (str ".so"))))
       [TLit native_so] 0 None native_so = native_so.
Proof.
  destruct (match_here (RSeq (RLit (str "lib"))
                          (RSeq (RLit ns) (RLit (str ".so"))))
              false None native_so) as [[gs n]|] eqn:M.
  - rewrite match_lit_seq3 in M.
    destruct (starts_with _ native_so) eqn:S; [|discriminate].
    rewrite (so_length _ S) in M. simpl andb in M.
    rewrite (scan_whole_match _ _ _ [] (str "lib")).
    + apply app_nil_r.
    + discriminate.
    + simpl. auto.
    + discriminate.
    + rewrite match_lit_seq3, S, (so_length _ S). reflexivity.
  - change native_so with (108%N :: str "ibrustdesk.so") in *.
    apply scan_first_only with (l := str "lib");
      [exact M | simpl; auto | reflexivity].
Qed.

(** Rule 10 on [System.loadLibrary("rustdesk")], whatever the schemes. *)
Lemma scan_native_load (a1 a2 : text) :
  scan (RSeq (RLit (str "System.loadLibrary(" ++ dq))
          (RSeq (RAlt (RLit a1)
                   (RAlt (RLit a2)
                      (RAlt (RLit (str "rustdesk")) (RLit (str "todddesk")))))
                (RLit (dq ++ str ")"))))
       [TLit native_load] 0 None native_load = native_load.
Proof.
  rewrite (scan_whole_match _ _ _ [] (str "System.loadLibrary(" ++ dq)).
  - apply app_nil_r.
  - discriminate.
  - simpl. auto.
  - discriminate.
  - rewrite match_alt4, !match_lit_seq3.
    destruct (starts_with ((str "System.loadLibrary(" ++ dq) ++ a1 ++ _)
                native_load) eqn:S1.
    { rewrite (load_length _ S1). reflexivity. }
    destruct (starts_with ((str "System.loadLibrary(" ++ dq) ++ a2 ++ _)
                native_load) eqn:S2.
    { rewrite (load_length _ S2). reflexivity. }
    reflexivity.
Qed.

Lemma compile_plain (r : regex) (repl : text) :
  existsb (N.eqb backslash) repl = false ->
  compile_template r repl = Some [TLit repl].
Proof. intros H. unfold compile_template. now rewrite H. Qed.

Lemma quiet_absent (t l : text) :
  quiet t = true ->
  In l [ str "<string"; str "android:name=" ++ dq ++ str ".";
         str "RustDesk Input"; str "RustDesk Service";
         str "RustDesk Service Channel"; str "Show RustDesk";
         dq ++ str "input"; str "idShowRustDesk"; str "android:scheme=" ++ dq;
         str "://"; str "libtodddesk.so" ] ->
  contains l t = false.
Proof.
  unfold quiet. rewrite forallb_forall. intros H I.
  apply H in I. now apply negb_true_iff in I.
Qed.

(** A text that the first nine rules and the last one cannot touch, and
    that rules 10 and 11 leave as it is, is a fixed point of the rules. *)
Lemma quiet_text_fixed (cfg : PatchConfig) (t : text) :
  templates_ok (build_rules cfg) = true ->
  no_clash cfg t = true -> quiet t = true ->
  scan (RSeq (RLit (str "System.loadLibrary(" ++ dq))
          (RSeq (RAlt (RLit (old_scheme cfg))
                   (RAlt (RLit (new_scheme cfg))
                      (RAlt (RLit (str "rustdesk")) (RLit (str "todddesk")))))
                (RLit (dq ++ str ")"))))
       [TLit native_load] 0 None t = t ->
  scan (RSeq (RLit (str "lib"))
          (RSeq (RLit (new_scheme cfg)) (RLit (str ".so"))))
       [TLit native_so] 0 None t = t ->
  apply_rules (build_rules cfg) t = Some t.
Proof.
  intros Tok C Q R10 R11.
  unfold no_clash in C. rewrite !andb_true_iff, !negb_true_iff in C.
  destruct C as [[Cp Ca] Cs].
  apply apply_rules_fixed, Forall_forall. intros [r repl] Hin.
  pose proof (templates_ok_in _ _ Tok Hin) as Tc. simpl fst in *.
  simpl snd in *. unfold build_rules in Hin.
  apply in_app_or in Hin. destruct Hin as [Hin|Hin].
  - apply in_map_iff in Hin. destruct Hin as [kv [E Hk]].
    unfold literal_rule in E. inversion E; subst. apply mapping_keys in Hk.
    apply re_sub_absent with (l := fst kv);
      [simpl; auto | destruct Hk as [-> | ->]; assumption | exact Tc].
  - cbn [app map fixed_strings dict_set literal_rule fst snd] in Hin.
    repeat match type of Hin with
           | context [text_eqb ?a ?b] =>
               change (text_eqb a b) with false in Hin; cbv iota in Hin
           end.
    cbn [app map fixed_strings dict_set literal_rule fst snd In] in Hin.
    repeat (destruct Hin as [E | Hin];
            [ inversion E; subst; clear E | ]); try contradiction.
    + apply re_sub_absent with (l := str "<string");
        [simpl; auto | apply (quiet_absent _ _ Q); simpl; auto 20 | exact Tc].
    + apply re_sub_absent with (l := str "<string");
        [simpl; auto | apply (quiet_absent _ _ Q); simpl; auto 20 | exact Tc].
    + apply re_sub_absent with (l := str "android:name=" ++ dq ++ str ".");
        [simpl; auto | apply (quiet_absent _ _ Q); simpl; auto 20 | exact Tc].
    + apply re_sub_absent with (l := old_service cfg);
        [simpl; auto | exact Cs | exact Tc].
    + apply re_sub_absent with (l := str "RustDesk Input");
        [simpl; auto | apply (quiet_absent _ _ Q); simpl; auto 20 | exact Tc].
    + apply re_sub_absent with (l := str "RustDesk Service");
        [simpl; auto | apply (quiet_absent _ _ Q); simpl; auto 20 | exact Tc].
    + apply re_sub_absent with (l := str "RustDesk Service Channel");
        [simpl; auto | apply (quiet_absent _ _ Q); simpl; auto 20 | exact Tc].
    + apply re_sub_absent with (l := str "Show RustDesk");
        [simpl; auto | apply (quiet_absent _ _ Q); simpl; auto 20 | exact Tc].
    + apply re_sub_absent with (l := dq ++ str "input");
        [simpl; auto | apply (quiet_absent _ _ Q); simpl; auto 20 | exact Tc].
    + apply re_sub_absent with (l := str "idShowRustDesk");
        [simpl; auto | apply (quiet_absent _ _ Q); simpl; auto 20 | exact Tc].
    + apply re_sub_absent with (l := str "android:scheme=" ++ dq);
        [simpl; auto | apply (quiet_absent _ _ Q); simpl; auto 20 | exact Tc].
    + apply re_sub_absent with (l := str "://");
        [simpl; auto | apply (quiet_absent _ _ Q); simpl; auto 20 | exact Tc].
    + unfold re_sub. rewrite compile_plain by reflexivity.
      f_equal. exact R10.
    + unfold re_sub. rewrite compile_plain by reflexivity.
      f_equal. exact R11.
    + apply re_sub_absent with (l := str "libtodddesk.so");
        [simpl; auto | apply (quiet_absent _ _ Q); simpl; auto 20 | exact Tc].
Qed.

(** What the two restoring rules achieve.  For every configuration whose
    replacement strings are well-formed templates and whose old package, old
    app name and old service name do not occur in the canonical native
    names, rewriting the text [librustdesk.so] alone, and the text
    [System.loadLibrary("rustdesk")] alone, with all the rules in order
    gives the same text back, whatever the old and the new scheme are. *)
Lemma native_names_kept (cfg : PatchConfig) :
  templates_ok (build_rules cfg) = true ->
  no_clash cfg native_so = true ->
  no_clash cfg native_load = true ->
  apply_rules (build_rules cfg) native_so = Some native_so /\
  apply_rules (build_rules cfg) native_load = Some native_load.
Proof.
  intros Tok C1 C2. split.
  - apply quiet_text_fixed; [exact Tok | exact C1 | reflexivity | |].
    + apply scan_absent with (l := str "System.loadLibrary(" ++ dq);
        [simpl; auto | reflexivity].
    + apply scan_native_so.
  - apply quiet_text_fixed; [exact Tok | exact C2 | reflexivity | |].
    + apply scan_native_load.
    + apply scan_absent with (l := str "lib"); [simpl; auto | reflexivity].
Qed.

(** ** String fields *)

Lemma parse_text_run (ng : nat) (v rest : text) :
  existsb (N.eqb backslash) v = false ->
  parse_from ng SText (v ++ rest) =
    option_map (app (List.map (fun c => TLit [c]) v))
      (parse_from ng SText rest).
Proof.
  induction v as [|c v IH]; intros H.
  - simpl. destruct (parse_from ng SText rest); reflexivity.
  - cbn [existsb] in H. apply orb_false_elim in H. destruct H as [Hc Hv].
    rewrite N.eqb_sym in Hc.
    cbn [app parse_from feed]. unfold feed_text. rewrite Hc.
    rewrite (IH Hv). destruct (parse_from ng SText rest); reflexivity.
Qed.

(** The template [\1 value \2] for a plain value. *)
Lemma parse_group_head (ng : nat) (d : char) (rest : text) :
  is_digit d = true -> N.eqb d 48 = false ->
  parse_from ng SText (backslash :: d :: rest) =
    parse_from ng (SDig1 d) rest.
Proof.
  intros D Z. cbn [parse_from feed]. unfold feed_text.
  change (N.eqb backslash backslash) with true. cbv iota. cbn [feed].
  assert (G : N.eqb d 103 = false).
  { unfold is_digit, in_range in D. apply andb_true_iff in D.
    destruct D as [_ D]. apply N.leb_le in D. apply N.eqb_neq. lia. }
  rewrite G, Z, D.
  destruct (parse_from ng (SDig1 d) rest); reflexivity.
Qed.

Lemma parse_plain (v : text) :
  plain_value v = true ->
  parse_template 2 (keep_tags v) =
    Some (TGroup 1 :: List.map (fun c => TLit [c]) v ++ [TGroup 2]).
Proof.
  unfold plain_value, parse_template, keep_tags. intros H.
  apply andb_true_iff in H. destruct H as [B D].
  apply negb_true_iff in B.
  cbn [app]. rewrite parse_group_head by reflexivity.
  destruct v as [|c v].
  - reflexivity.
  - apply negb_true_iff in D. cbn [existsb] in B. apply orb_false_elim in B.
    destruct B as [Bc Bv]. rewrite N.eqb_sym in Bc.
    cbn [app parse_from feed]. rewrite D. unfold after, feed_text.
    rewrite Bc. change (group_ref 2 (digit_val 49%N)) with (Some (TGroup 1)).
    cbv iota beta.
    rewrite (parse_text_run 2 v [backslash; 50%N] Bv).
    reflexivity.
Qed.

Lemma expand_plain (v whole g1 g2 : text) :
  expand (TGroup 1 :: List.map (fun c => TLit [c]) v ++ [TGroup 2])
         whole [g1; g2] = g1 ++ v ++ g2.
Proof.
  unfold expand. simpl. f_equal. rewrite flat_map_app. simpl.
  rewrite app_nil_r. f_equal.
  induction v as [|c v IH]; simpl; [reflexivity | now rewrite IH].
Qed.

Lemma starts_with_app_long (p a r : text) :
  length p <= length a -> starts_with p (a ++ r) = starts_with p a.
Proof.
  revert a. induction p as [|x p IH]; intros a L; [reflexivity|].
  destruct a as [|c a]; simpl in L; [lia|]. simpl.
  rewrite IH by lia. reflexivity.
Qed.

(** [\s+] before a character that is not a space takes the whole run. *)
Lemma m_spaces_star_run {R} (ws rest : text) (prev : option char)
    (gs : list text) (k : cont R) (x : R) :
  forallb is_space ws = true ->
  match rest with c :: _ => is_space c = false | [] => True end ->
  k (prev_after prev ws) rest gs = Some x ->
  m_spaces_star prev (ws ++ rest) gs k = Some x.
Proof.
  revert prev. induction ws as [|c ws IH]; intros prev W N K.
  - simpl in *. destruct rest as [|d rest]; [exact K|].
    simpl. now rewrite N.
  - simpl in W. apply andb_true_iff in W. destruct W as [Wc W].
    simpl. rewrite Wc. rewrite (IH (Some c) W N K). reflexivity.
Qed.

Lemma m_spaces_run {R} (ws rest : text) (prev : option char)
    (gs : list text) (k : cont R) (x : R) :
  ws <> [] -> forallb is_space ws = true ->
  match rest with c :: _ => is_space c = false | [] => True end ->
  k (prev_after prev ws) rest gs = Some x ->
  m_spaces prev (ws ++ rest) gs k = Some x.
Proof.
  intros E W N K. destruct ws as [|c ws]; [congruence|].
  simpl in W. apply andb_true_iff in W. destruct W as [Wc W].
  simpl. rewrite Wc. now apply m_spaces_star_run.
Qed.

(** [.*?] stops at the first position where the rest of the pattern
    matches. *)
Lemma m_lazy_any_first {R} (content rest : text) (prev : option char)
    (gs : list text) (k : cont R) (x : R) :
  (forall a b, content = a ++ b -> b <> [] ->
     k (prev_after prev a) (b ++ rest) gs = None) ->
  k (prev_after prev content) rest gs = Some x ->
  m_lazy_any prev (content ++ rest) gs k = Some x.
Proof.
  revert prev. induction content as [|c content IH]; intros prev F K.
  - simpl in *. destruct rest; simpl; now rewrite K.
  - assert (F0 : k prev (c :: content ++ rest) gs = None)
      by (apply (F [] (c :: content)); [reflexivity | discriminate]).
    cbn [app m_lazy_any]. rewrite F0. cbn [or_else].
    apply IH; [|exact K].
    intros a b E N. apply (F (c :: a) b); [now rewrite E | exact N].
Qed.

Lemma no_early_close_spec (content a b post : text) :
  no_early_close content = true -> content = a ++ b -> b <> [] ->
  starts_with close_tag (b ++ close_tag ++ post) = false.
Proof.
  revert content. induction a as [|c a IH]; intros content H E N.
  - simpl in E. subst content. destruct b as [|d b]; [congruence|].
    simpl in H. apply andb_true_iff in H. destruct H as [H _].
    apply negb_true_iff in H.
    rewrite app_assoc, starts_with_app_long; [exact H|].
    rewrite length_app. simpl. lia.
  - subst content. simpl in H. apply andb_true_iff in H.
    destruct H as [_ H]. now apply (IH (a ++ b)).
Qed.

Lemma skipn_app_exact (a b : text) : skipn (length a) (a ++ b) = b.
Proof. induction a; simpl; auto. Qed.

Lemma firstn_app_exact (a b : text) :
  firstn (length (a ++ b) - length b) (a ++ b) = a.
Proof.
  rewrite length_app. replace (length a + length b - length b) with (length a)
    by lia.
  rewrite firstn_app, Nat.sub_diag, firstn_all. simpl. apply app_nil_r.
Qed.

(** The field pattern matches a field whose content holds no closing tag:
    group 1 is the opening tag, group 2 the closing tag. *)
Lemma match_field (name ws content post : text) (adv : bool)
    (prev : option char) :
  ws <> [] -> forallb is_space ws = true ->
  no_early_close content = true ->
  match_here (string_field name) adv prev
    (open_tag ws name ++ content ++ close_tag ++ post) =
  Some ([open_tag ws name; close_tag],
        length (open_tag ws name ++ content ++ close_tag)).
Proof.
  intros E W C. unfold match_here, string_field. cbn [m_re].
  set (A := str "<string").
  set (B := str "name=" ++ dq ++ name ++ dq ++ str ">").
  set (T2 := content ++ close_tag ++ post).
  change (open_tag ws name) with (A ++ ws ++ B).
  replace ((A ++ ws ++ B) ++ T2) with (A ++ ws ++ B ++ T2)
    by now rewrite <- !app_assoc.
  rewrite (m_lit_spec A), starts_with_app, skipn_app_exact.
  apply m_spaces_run; [exact E | exact W | reflexivity |].
  rewrite (m_lit_spec B), starts_with_app, skipn_app_exact.
  replace (A ++ ws ++ B ++ T2) with ((A ++ ws ++ B) ++ T2)
    by now rewrite <- !app_assoc.
  rewrite firstn_app_exact. cbn [app]. unfold T2.
  apply m_lazy_any_first.
  - intros a b -> N. rewrite m_lit_spec.
    pose proof (no_early_close_spec (a ++ b) a b post C eq_refl N) as H.
    unfold close_tag in H |- *. now rewrite H.
  - unfold close_tag.
    rewrite (m_lit_spec (str "</string>")), starts_with_app, skipn_app_exact.
    rewrite firstn_app_exact. cbn [app].
    assert (L : length ((A ++ ws ++ B) ++ content ++ str "</string>" ++ post)
                - length post
                = length ((A ++ ws ++ B) ++ content ++ str "</string>")).
    { rewrite !length_app. lia. }
    rewrite L.
    assert (Z : Nat.eqb (length ((A ++ ws ++ B) ++ content ++
                                 str "</string>")) 0 = false).
    { apply Nat.eqb_neq. rewrite !length_app. simpl. lia. }
    now rewrite Z, andb_false_r.
Qed.

(** At a match that is not empty: the expansion, then the rest. *)
Lemma scan_at_match (r : regex) (tpl : list titem) (prev : option char)
    (m rest : text) (gs : list text) :
  m <> [] ->
  match_here r false prev (m ++ rest) = Some (gs, length m) ->
  scan r tpl 0 prev (m ++ rest) =
    expand tpl m gs ++ scan r tpl 0 (prev_after prev m) rest.
Proof.
  intros N M. destruct m as [|c m]; [congruence|].
  change ((c :: m) ++ rest) with (c :: (m ++ rest)) in *.
  change (length (c :: m)) with (S (length m)) in M.
  cbn [scan]. rewrite M. cbv iota beta.
  change (c :: m ++ rest) with ((c :: m) ++ rest).
  rewrite firstn_app, firstn_all2 by (simpl; lia).
  replace (S (length m) - length (c :: m)) with 0 by (simpl; lia).
  rewrite firstn_0, app_nil_r, scan_skip. reflexivity.
Qed.

(** Rule 2 on a field, for a plain value: the content between the tags is
    replaced with the value, whatever it was. *)
Lemma field_rule_replaces (name v ws content post : text) :
  plain_value v = true ->
  ws <> [] -> forallb is_space ws = true ->
  no_early_close content = true ->
  re_sub (string_field name) (keep_tags v)
         (open_tag ws name ++ content ++ close_tag ++ post) =
  Some (open_tag ws name ++ v ++ close_tag ++
        scan (string_field name)
             (TGroup 1 :: List.map (fun c => TLit [c]) v ++ [TGroup 2])
             0 (Some 62%N) post).
Proof.
  intros P E W C. unfold re_sub, compile_template.
  change (existsb (N.eqb backslash) (keep_tags v)) with true.
  change (ngroups (string_field name)) with 2.
  rewrite (parse_plain v P). f_equal.
  replace (open_tag ws name ++ content ++ close_tag ++ post)
    with ((open_tag ws name ++ content ++ close_tag) ++ post)
    by now rewrite <- !app_assoc.
  rewrite (scan_at_match _ _ None _ post [open_tag ws name; close_tag]).
  - rewrite expand_plain, <- !app_assoc. do 3 f_equal.
    rewrite !prev_after_app. reflexivity.
  - unfold open_tag. discriminate.
  - rewrite <- (match_field name ws content post false None E W C).
    now rewrite <- !app_assoc.
Qed.

(** ** What the two tree-changing phases leave alone *)

Lemma is_under_split (root q : path) :
  is_under root q = true -> exists z, z <> [] /\ q = root ++ z.
Proof.
  revert q. induction root as [|a root IH]; intros [|b q]; simpl;
    try discriminate.
  - intros _. exists (b :: q). split; [discriminate | reflexivity].
  - rewrite andb_true_iff, text_eqb_eq. intros [-> H].
    destruct (IH _ H) as [z [N ->]]. now exists z.
Qed.

Lemma mkdir_from_frame (todo done : path) (s s' : fs) (q : path) :
  mkdir_from done todo s = Ok s' ->
  (forall k, 1 <= k <= length todo -> done ++ firstn k todo <> q) ->
  kind s' q = kind s q.
Proof.
  revert done s. induction todo as [|c todo IH]; intros done s; simpl.
  - now intros [= <-].
  - intros M H.
    assert (H' : forall k, 1 <= k <= length todo ->
                   (done ++ [c]) ++ firstn k todo <> q).
    { intros k Hk. rewrite <- app_assoc. apply (H (S k)). lia. }
    assert (N : done ++ [c] <> q).
    { specialize (H 1). simpl in H. apply H. lia. }
    destruct (kind s (done ++ [c])) as [[?|]|]; [discriminate | |].
    + now apply (IH _ _ M).
    + rewrite (IH _ _ M H'). now apply kind_set_other.
Qed.

Lemma write_text_frame (s s' : fs) (p q : path) (c : text) (ok : bool) :
  write_text s p c = (s', ok) -> p <> q -> kind s' q = kind s q.
Proof.
  intros W N. destruct (write_text_cases s p c) as [H|[b H]];
    rewrite W in H; cbn [fst] in H; subst s'; [reflexivity|].
  now apply kind_set_other.
Qed.

Lemma write_bytes_frame (s s' : fs) (p q : path) (b : bytes) :
  write_bytes s p b = Ok s' -> p <> q -> kind s' q = kind s q.
Proof.
  unfold write_bytes. destruct (writable s p); [|discriminate].
  intros [= <-]. apply kind_set_other.
Qed.

Lemma find_filter_kept (f : path -> bool) (q : path) (s : fs) :
  f q = true ->
  find_entry q (filter (fun pe => f (fst pe)) s) = find_entry q s.
Proof.
  intros F. induction s as [|[r e] s IH]; simpl; [reflexivity|].
  destruct (path_eqb r q) eqn:E.
  - apply path_eqb_eq in E. subst r. rewrite F. simpl.
    now rewrite path_eqb_refl.
  - destruct (f r); simpl; [now rewrite E | exact IH].
Qed.

Lemma rmtree_frame (s : fs) (p q : path) :
  q <> p -> is_under p q = false -> kind (rmtree s p) q = kind s q.
Proof.
  intros N O. unfold rmtree. destruct (is_dir s p); [|reflexivity].
  destruct q as [|a q]; [reflexivity|]. simpl.
  apply (find_filter_kept (fun r => negb (path_eqb r p || is_under p r))).
  rewrite O, orb_false_r. apply negb_true_iff.
  destruct (path_eqb (a :: q) p) eqn:E; [|reflexivity].
  apply path_eqb_eq in E. congruence.
Qed.

Lemma find_map_rename (g : path -> path) (q : path) (s : fs) :
  (forall r, path_eqb (g r) q = path_eqb r q) ->
  find_entry q (List.map (fun pe => (g (fst pe), snd pe)) s) = find_entry q s.
Proof.
  intros G. induction s as [|[r e] s IH]; simpl; [reflexivity|].
  rewrite G. destruct (path_eqb r q); [reflexivity | exact IH].
Qed.

Lemma flutter_prefix_ne (repo z : path) (k : nat) :
  firstn k (repo ++ str "flutter" :: z) <> report_path repo.
Proof.
  unfold report_path. intros E.
  destruct (Nat.le_gt_cases k (length repo)) as [L|L].
  - apply (f_equal (@length text)) in E.
    rewrite length_firstn, !length_app in E. simpl in E. lia.
  - rewrite firstn_app in E. rewrite firstn_all2 in E by lia.
    apply app_inv_head in E.
    destruct (k - length repo) as [|j] eqn:K; [lia|].
    cbn [firstn] in E. injection E as H _. vm_compute in H. discriminate H.
Qed.

Lemma flutter_path_ne (repo z : path) :
  repo ++ str "flutter" :: z <> report_path repo.
Proof.
  intros E. apply (flutter_prefix_ne repo z (length (repo ++ str "flutter" :: z))).
  now rewrite firstn_all.
Qed.

Lemma kotlin_dir_flutter (repo : path) (x : path) :
  exists z, kotlin_root repo ++ x = repo ++ str "flutter" :: z.
Proof.
  unfold kotlin_root. rewrite <- app_assoc. simpl. eauto.
Qed.

(** Creating the ancestors of a path below flutter leaves the report
    alone. *)
Lemma mkdir_parents_report (repo : path) (z : path) (s s' : fs) :
  mkdir_parents s (parent (repo ++ str "flutter" :: z)) = Ok s' ->
  kind s' (report_path repo) = kind s (report_path repo).
Proof.
  unfold mkdir_parents, parent. intros M.
  apply (mkdir_from_frame _ _ _ _ _ M). intros k _. simpl.
  rewrite removelast_firstn_len, firstn_firstn.
  apply flutter_prefix_ne.
Qed.

Lemma copy2_report (repo : path) (z src : path) (s s' : fs) :
  copy2 s src (repo ++ str "flutter" :: z) = Ok s' ->
  kind s' (report_path repo) = kind s (report_path repo).
Proof.
  unfold copy2. destruct (kind s src) as [[b|]|]; try discriminate.
  destruct (path_eqb _ _); [discriminate|]. intros W.
  apply (write_bytes_frame _ _ _ _ _ W).
  destruct (is_dir s _).
  - rewrite <- app_assoc. simpl. apply flutter_path_ne.
  - apply flutter_path_ne.
Qed.

Lemma merge_files_report (repo : path) (old_dir z : path)
    (s s' : fs) (ok : bool) :
  merge_files old_dir (repo ++ str "flutter" :: z) s = (s', ok) ->
  kind s' (report_path repo) = kind s (report_path repo).
Proof.
  intros H.
  refine (merge_files_inv
            (fun x => kind x (report_path repo) = kind s (report_path repo))
            old_dir (repo ++ str "flutter" :: z) _ _ s s' ok H eq_refl).
  - intros x x' rel M I. rewrite <- app_assoc in M. simpl app in M.
    apply mkdir_parents_report in M. congruence.
  - intros x x' item rel C I. rewrite <- app_assoc in C. simpl app in C.
    apply copy2_report in C. congruence.
Qed.

Lemma path_eqb_neq (p q : path) : p <> q -> path_eqb p q = false.
Proof.
  intros N. destruct (path_eqb p q) eqn:E; [|reflexivity].
  apply path_eqb_eq in E. contradiction.
Qed.

Lemma kind_report (repo : path) (x : fs) :
  kind x (report_path repo) = find_entry (report_path repo) x.
Proof. unfold kind, report_path. destruct repo; reflexivity. Qed.

Lemma move_report (repo : path) (zo zn : path) (s s' : fs) :
  move s (repo ++ str "flutter" :: zo) (repo ++ str "flutter" :: zn) = Ok s' ->
  kind s' (report_path repo) = kind s (report_path repo).
Proof.
  unfold move. destruct (_ && _); [discriminate|].
  destruct (negb _); [discriminate|]. intros [= <-].
  rewrite !kind_report. apply find_map_rename. intros r. unfold rename_under.
  destruct (path_eqb r _ || is_under _ r) eqn:A; [|reflexivity].
  assert (R : r <> report_path repo).
  { apply orb_true_iff in A. destruct A as [A|A].
    - apply path_eqb_eq in A. subst r. apply flutter_path_ne.
    - apply is_under_split in A. destruct A as [x [_ ->]].
      rewrite <- app_assoc. simpl. apply flutter_path_ne. }
  assert (R' : (repo ++ str "flutter" :: zn) ++
               relative_to (repo ++ str "flutter" :: zo) r
               <> report_path repo).
  { rewrite <- app_assoc. simpl. apply flutter_path_ne. }
  now rewrite (path_eqb_neq _ _ R), (path_eqb_neq _ _ R').
Qed.

Lemma split_slashes_plain (p cur : text) :
  existsb (N.eqb slash_char) p = false ->
  split_slashes p cur = [rev cur ++ p].
Proof.
  revert cur. induction p as [|c p IH]; intros cur H.
  - simpl. now rewrite app_nil_r.
  - cbn [existsb] in H. apply orb_false_elim in H. destruct H as [Hc Hp].
    rewrite N.eqb_sym in Hc. cbn [split_slashes]. rewrite Hc.
    rewrite (IH _ Hp). simpl. now rewrite <- app_assoc.
Qed.

Lemma join_parts_plain (parts : list text) (base : path) :
  Forall (fun p => existsb (N.eqb slash_char) p = false) parts ->
  exists x, join_parts base parts = base ++ x.
Proof.
  intros F. revert base. induction F as [|p parts Hp _ IH]; intros base.
  - exists []. simpl. now rewrite app_nil_r.
  - simpl. assert (A : is_absolute p = false).
    { destruct p as [|c p]; [reflexivity|]. cbn [existsb] in Hp.
      apply orb_false_elim in Hp. destruct Hp as [Hc _].
      simpl. now rewrite N.eqb_sym. }
    rewrite A. destruct (IH (base ++ components p)) as [x ->].
    exists (components p ++ x). now rewrite app_assoc.
Qed.

Lemma existsb_rev (f : char -> bool) (l : text) :
  existsb f (rev l) = existsb f l.
Proof.
  induction l as [|c l IH]; [reflexivity|]. simpl.
  rewrite existsb_app, IH. simpl. rewrite orb_false_r. apply orb_comm.
Qed.

Lemma split_dots_no_slash (s cur : text) :
  existsb (N.eqb slash_char) s = false ->
  existsb (N.eqb slash_char) cur = false ->
  Forall (fun p => existsb (N.eqb slash_char) p = false) (split_dots s cur).
Proof.
  revert cur. induction s as [|c s IH]; intros cur Hs Hc.
  - simpl. constructor; [|constructor].
    rewrite existsb_rev. exact Hc.
  - cbn [existsb] in Hs. apply orb_false_elim in Hs. destruct Hs as [H1 H2].
    cbn [split_dots]. destruct (N.eqb c dot).
    + constructor; [rewrite existsb_rev; exact Hc | now apply IH].
    + apply IH; [exact H2|]. cbn [existsb]. now rewrite H1.
Qed.

Lemma package_dir_flutter (repo : path) (package : text) :
  no_slash package = true ->
  exists z, package_dir (kotlin_root repo) package = repo ++ str "flutter" :: z.
Proof.
  intros H. apply negb_true_iff in H. unfold package_dir.
  destruct (join_parts_plain (split_dots package []) (kotlin_root repo))
    as [x ->].
  - now apply split_dots_no_slash.
  - apply kotlin_dir_flutter.
Qed.

(** The directory migrator leaves the report alone, for package names
    without slashes. *)
Lemma move_kotlin_dir_report (repo : path) (cfg : PatchConfig) (s s' : fs)
    (notes notes' : list note) (ok : bool) :
  no_slash (old_package cfg) = true -> no_slash (new_package cfg) = true ->
  move_kotlin_dir repo cfg s notes = (s', notes', ok) ->
  kind s' (report_path repo) = kind s (report_path repo).
Proof.
  intros So Sn. unfold move_kotlin_dir.
  destruct (package_dir_flutter repo _ So) as [zo ->].
  destruct (package_dir_flutter repo _ Sn) as [zn ->].
  destruct (negb (exists_ s (kotlin_root repo))); [now intros [= <- _ _]|].
  destruct (negb (exists_ s _)); [now intros [= <- _ _]|].
  destruct (mkdir_parents s _) as [s1|] eqn:M; [|now intros [= <- _ _]].
  apply mkdir_parents_report in M.
  destruct (exists_ s1 _).
  - destruct (merge_files _ _ s1) as [s2 [|]] eqn:G;
      apply merge_files_report in G; intros [= <- _ _].
    + rewrite <- M, <- G. apply rmtree_frame.
      * intros E. symmetry in E. revert E. apply flutter_path_ne.
      * destruct (is_under _ _) eqn:I; [|reflexivity].
        apply is_under_split in I. destruct I as [x [_ E]].
        rewrite <- app_assoc in E. simpl in E. symmetry in E.
        now apply flutter_path_ne in E.
    + now rewrite <- M.
  - destruct (move s1 _ _) as [s2|] eqn:V; intros [= <- _ _].
    + apply move_report in V. now rewrite <- M.
    + exact M.
Qed.

(** The rewriter and the migrator leave the report alone. *)
Lemma patch_tree_report (repo : path) (cfg : PatchConfig) (mv : bool)
    (s : fs) (st : rewrite_state) (notes : list note) (ok : bool) :
  mv = false \/
  (no_slash (old_package cfg) = true /\ no_slash (new_package cfg) = true) ->
  patch_tree repo cfg mv s = (st, notes, ok) ->
  kind (rw_fs st) (report_path repo) = kind s (report_path repo).
Proof.
  intros Hs. unfold patch_tree.
  pose proof (rewrite_files_frame repo (build_rules cfg)
                (iter_text_files s (android_root repo))
                {| rw_fs := s; rw_changed := []; rw_scanned := 0 |}
                (report_path repo)) as F.
  destruct (rewrite_files _ _ _ _) as [st1 ok1]. simpl in F.
  assert (F1 : kind (rw_fs st1) (report_path repo) = kind s (report_path repo)).
  { apply F. intros H. apply iter_text_files_under in H.
    rewrite report_outside in H. discriminate. }
  destruct (negb ok1); [now intros [= <- _ _]|].
  destruct mv; [|now intros [= <- _ _]].
  destruct Hs as [Hs | [So Sn]]; [discriminate|].
  destruct (move_kotlin_dir _ _ _ _) as [[s2 n2] ok2] eqn:V.
  intros [= <- _ _]. simpl.
  apply (move_kotlin_dir_report _ _ _ _ _ _ _ So Sn) in V.
  now rewrite V.
Qed.

(** C3. When a scanned file still holds the old package after the rules
    (and the optional move) have run, the run ends with a nonzero status on
    exactly the tree they left: the report is not written.  Without the
    move, or when the package names hold no slash (so that the package
    directories lie below the Kotlin root), what is at the path of the
    report is what was there before the run. *)
Theorem residue_aborts_before_report (repo : path) (cfg : PatchConfig)
    (mv : bool) (s : fs) (st : rewrite_state) (notes : list note) (ok : bool)
    (f : path) (c : text) :
  exists_ s (android_root repo) = true ->
  patch_tree repo cfg mv s = (st, notes, ok) ->
  In f (iter_text_files (rw_fs st) (android_root repo)) ->
  read_text (rw_fs st) f = Ok c ->
  contains (old_package cfg) c = true ->
  exit_status (fst (main repo cfg mv s)) <> 0 /\
  snd (main repo cfg mv s) = rw_fs st /\
  (mv = false \/
   (no_slash (old_package cfg) = true /\ no_slash (new_package cfg) = true) ->
   kind (snd (main repo cfg mv s)) (report_path repo) =
     kind s (report_path repo)).
Proof.
  intros E P Hin Rf Cf.
  destruct (residue_stops_run _ _ _ _ _ _ _ _ _ E P Hin Rf Cf) as [H1 H2].
  rewrite H1, H2. repeat split; [discriminate|].
  intros Hs. exact (patch_tree_report _ _ _ _ _ _ _ Hs P).
Qed.

(** ** The matcher finds only what the pattern describes *)

Lemma m_spaces_star_run_of {R} (prev : option char) (t : text)
    (gs : list text) (k : cont R) (x : R) :
  m_spaces_star prev t gs k = Some x ->
  exists a t', t = a ++ t' /\ forallb is_space a = true /\
               k (prev_after prev a) t' gs = Some x.
Proof.
  revert prev. induction t as [|c t IH]; intros prev; simpl.
  - intros H. exists [], []. auto.
  - destruct (is_space c) eqn:S.
    + intros H. apply or_else_some in H. destruct H as [H | [_ H]].
      * destruct (IH _ H) as [a [t' [-> [A K]]]].
        exists (c :: a), t'. simpl. rewrite S, A. auto.
      * exists [], (c :: t). auto.
    + intros H. exists [], (c :: t). auto.
Qed.

Lemma m_lazy_any_run_of {R} (prev : option char) (t : text)
    (gs : list text) (k : cont R) (x : R) :
  m_lazy_any prev t gs k = Some x ->
  exists a t', t = a ++ t' /\ k (prev_after prev a) t' gs = Some x.
Proof.
  revert prev. induction t as [|c t IH]; intros prev; simpl; intros H;
    apply or_else_some in H.
  - destruct H as [H | [_ H]]; [|discriminate]. exists [], []. auto.
  - destruct H as [H | [_ H]].
    + exists [], (c :: t). auto.
    + destruct (IH _ H) as [a [t' [-> K]]]. exists (c :: a), t'. auto.
Qed.

Lemma matched_length (m rest : text) :
  firstn (length (m ++ rest) - length rest) (m ++ rest) = m.
Proof. apply firstn_app_exact. Qed.

Lemma m_re_matches {R} (r : regex) (prev : option char) (t : text)
    (gs0 : list text) (k : cont R) (x : R) :
  m_re r prev t gs0 k = Some x ->
  exists m rest gs,
    t = m ++ rest /\ matches r prev m rest gs /\
    k (prev_after prev m) rest (gs0 ++ gs) = Some x.
Proof.
  revert prev t gs0 k.
  induction r as [s| | | |r IH|r1 IH1 r2 IH2|r1 IH1 r2 IH2];
    intros prev t gs0 k; simpl.
  - rewrite m_lit_spec. destruct (starts_with s t) eqn:S; [|discriminate].
    intros H. exists s, (skipn (length s) t), [].
    rewrite app_nil_r. repeat split;
      [now apply starts_with_split | constructor | exact H].
  - unfold m_spaces. destruct t as [|c t]; [discriminate|].
    destruct (is_space c) eqn:S; [|discriminate]. intros H.
    destruct (m_spaces_star_run_of _ _ _ _ _ H) as [a [t' [-> [A K]]]].
    exists (c :: a), t', []. rewrite app_nil_r. repeat split.
    + constructor; [discriminate | simpl; now rewrite S, A].
    + exact K.
  - intros H. destruct (m_lazy_any_run_of _ _ _ _ _ H) as [a [t' [-> K]]].
    exists a, t', []. rewrite app_nil_r. repeat split; [constructor | exact K].
  - destruct (at_boundary prev t) eqn:B; [|discriminate]. intros H.
    exists [], t, []. rewrite app_nil_r. repeat split;
      [now constructor | exact H].
  - intros H. destruct (IH _ _ _ _ H) as [m [rest [gs [-> [M K]]]]].
    rewrite matched_length in K.
    exists m, rest, (gs ++ [m]). repeat split;
      [now constructor | now rewrite app_assoc].
  - intros H. destruct (IH1 _ _ _ _ H) as [m1 [t1 [g1 [-> [M1 K1]]]]].
    destruct (IH2 _ _ _ _ K1) as [m2 [rest [g2 [-> [M2 K2]]]]].
    exists (m1 ++ m2), rest, (g1 ++ g2). repeat split.
    + now rewrite app_assoc.
    + now constructor.
    + now rewrite prev_after_app, app_assoc.
  - intros H. apply or_else_some in H. destruct H as [H | [_ H]].
    + destruct (IH1 _ _ _ _ H) as [m [rest [gs [-> [M K]]]]].
      exists m, rest, gs. repeat split; [now apply M_alt_l | exact K].
    + destruct (IH2 _ _ _ _ H) as [m [rest [gs [-> [M K]]]]].
      exists m, rest, gs. repeat split; [now apply M_alt_r | exact K].
Qed.

(** A match found at a position: the text starts with something of the
    form of the pattern, whose length is reported. *)
Lemma match_here_matches (r : regex) (adv : bool) (prev : option char)
    (t : text) (gs : list text) (n : nat) :
  match_here r adv prev t = Some (gs, n) ->
  exists m rest,
    t = m ++ rest /\ n = length m /\ matches r prev m rest gs.
Proof.
  unfold match_here. intros H.
  destruct (m_re_matches _ _ _ _ _ _ H) as [m [rest [gs' [-> [M K]]]]].
  simpl in K. destruct (_ && _); [discriminate|]. inversion K; subst.
  exists m, rest. repeat split; [|exact M].
  rewrite length_app. lia.
Qed.

Lemma contains_prefix (l a b : text) :
  contains l a = true -> contains l (a ++ b) = true.
Proof.
  intros H. destruct (contains_split _ _ H) as [x [y ->]].
  rewrite <- !app_assoc. apply contains_app.
Qed.

Lemma contains_refl (l : text) : contains l l = true.
Proof.
  apply contains_of_starts. rewrite <- (app_nil_r l) at 2.
  apply starts_with_app.
Qed.

Lemma matches_lits (r : regex) (p : option char) (m rest : text)
    (gs : list text) :
  matches r p m rest gs -> Forall (fun l => contains l m = true) (lits r).
Proof.
  induction 1; simpl; try constructor; auto.
  - apply contains_refl.
  - apply Forall_app. split.
    + eapply Forall_impl; [|exact IHmatches1]. intros l.
      apply contains_prefix.
    + eapply Forall_impl; [|exact IHmatches2]. intros l.
      apply contains_suffix.
Qed.

Lemma never_empty (r : regex) (adv : bool) (p : option char) (t : text)
    (gs : list text) (n : nat) :
  has_literal r = true -> match_here r adv p t = Some (gs, n) -> n <> 0.
Proof.
  unfold has_literal. rewrite existsb_exists. intros [l [I N]] H.
  destruct (match_here_matches _ _ _ _ _ _ H) as [m [rest [-> [-> M]]]].
  apply matches_lits in M. rewrite Forall_forall in M. specialize (M l I).
  destruct m; [|discriminate]. destruct l; [discriminate|].
  simpl in M. discriminate.
Qed.

(** The loop of [sub] over a text has the shape [rewrites]. *)
Lemma scan_rewrites (r : regex) (tpl : list titem) :
  has_literal r = true ->
  forall (t : text) (p : option char),
    rewrites r tpl p t (scan r tpl 0 p t).
Proof.
  intros L t. remember (length t) as n eqn:E. revert t E.
  induction n as [n IH] using lt_wf_ind. intros t E p.
  destruct t as [|c t].
  - cbn [scan]. destruct (match_here r false p []) as [[gs k]|] eqn:M;
      [|constructor].
    destruct (match_here_matches _ _ _ _ _ _ M) as [m [rest [Et [-> _]]]].
    destruct m; [|discriminate]. now apply never_empty in M.
  - cbn [scan]. destruct (match_here r false p (c :: t)) as [[gs k]|] eqn:M.
    + destruct k as [|k]; [now apply never_empty in M|].
      destruct (match_here_matches _ _ _ _ _ _ M) as [m [rest [Et [Ek _]]]].
      destruct m as [|c' m]; [discriminate|]. simpl in Et, Ek.
      injection Et as <- ->. injection Ek as ->.
      change (c :: m ++ rest) with ((c :: m) ++ rest).
      rewrite firstn_app, firstn_all2 by (simpl; lia).
      replace (S (length m) - length (c :: m)) with 0 by (simpl; lia).
      rewrite firstn_0, app_nil_r, scan_skip.
      apply rw_match; [discriminate | exact M |].
      apply (IH (length rest)); [|reflexivity].
      subst n. simpl. rewrite length_app. lia.
    + apply rw_copy; [exact M|]. apply (IH (length t)); [|reflexivity].
      subst n. simpl. lia.
Qed.

(** ** Occurrences around an inserted text *)

Lemma app_split (a1 b1 a2 b2 : text) :
  a1 ++ b1 = a2 ++ b2 -> length a1 <= length a2 ->
  exists d, a2 = a1 ++ d /\ b1 = d ++ b2.
Proof.
  revert a2. induction a1 as [|c a1 IH]; intros a2 E L.
  - exists a2. auto.
  - destruct a2 as [|c2 a2]; [simpl in L; lia|].
    simpl in E. injection E as <- E. simpl in L.
    destruct (IH a2 E) as [d [-> ->]]; [lia|]. now exists d.
Qed.

Lemma ends_with_app (d a : text) : ends_with a (d ++ a) = true.
Proof. unfold ends_with. rewrite rev_app_distr. apply starts_with_app. Qed.

Lemma overlap_inside (P o : text) : contains P o = true -> overlap P o = true.
Proof. intros H. unfold overlap. now rewrite H. Qed.

Lemma overlap_across (P o : text) : contains o P = true -> overlap P o = true.
Proof. intros H. unfold overlap. rewrite H. now rewrite orb_true_r. Qed.

Lemma overlap_entering (P o d d2 d3 : text) :
  P = d ++ d2 -> o = d2 ++ d3 -> d <> [] -> d2 <> [] -> overlap P o = true.
Proof.
  intros -> -> N1 N2. unfold overlap. rewrite !orb_true_iff. right.
  apply existsb_exists. exists (length d). split.
  - apply in_seq. rewrite length_app.
    destruct d; [congruence|]. destruct d2; [congruence|]. simpl. lia.
  - rewrite skipn_app_exact, starts_with_app. reflexivity.
Qed.

Lemma overlap_leaving (P o d d2 d3 : text) :
  o = d ++ d2 -> P = d2 ++ d3 -> d2 <> [] -> d3 <> [] -> overlap P o = true.
Proof.
  intros -> -> N1 N2. unfold overlap. rewrite !orb_true_iff. right.
  apply existsb_exists. exists (length d2). split.
  - apply in_seq. rewrite length_app.
    destruct d2; [congruence|]. destruct d3; [congruence|]. simpl. lia.
  - rewrite firstn_app, Nat.sub_diag, firstn_all. simpl.
    rewrite app_nil_r, ends_with_app. apply orb_true_r.
Qed.

(** An occurrence of [P] in [x ++ o ++ y] that cannot overlap [o] lies in
    [x] or in [y]. *)
Lemma occurrence_cases (x o y a P b : text) :
  x ++ o ++ y = a ++ P ++ b -> overlap P o = false ->
  (exists x', x = a ++ P ++ x') \/
  (exists y', a = x ++ o ++ y' /\ y = y' ++ P ++ b).
Proof.
  intros E O.
  destruct (Nat.le_gt_cases (length (a ++ P)) (length x)) as [L1|L1].
  { left. rewrite (app_assoc a P b) in E. symmetry in E.
    destruct (app_split _ _ _ _ E L1) as [d [-> _]].
    exists d. now rewrite <- app_assoc. }
  destruct (Nat.le_gt_cases (length (x ++ o)) (length a)) as [L2|L2].
  { right. rewrite (app_assoc x o y) in E.
    destruct (app_split _ _ _ _ E L2) as [d [-> ->]].
    exists d. now rewrite <- app_assoc. }
  exfalso. rewrite length_app in L1, L2.
  destruct (Nat.le_gt_cases (length x) (length a)) as [L3|L3].
  - destruct (app_split _ _ _ _ E L3) as [d [-> E1]].
    rewrite length_app in L1, L2.
    destruct (Nat.le_gt_cases (length (d ++ P)) (length o)) as [L4|L4].
    + rewrite (app_assoc d P b) in E1. symmetry in E1.
      destruct (app_split _ _ _ _ E1 L4) as [e [-> _]].
      rewrite (overlap_inside P ((d ++ P) ++ e)) in O; [discriminate|].
      rewrite <- app_assoc. apply contains_app.
    + rewrite length_app in L4. symmetry in E1.
      destruct (app_split d (P ++ b) o y E1) as [d2 [-> E2]]; [lia|].
      rewrite length_app in L2, L4. symmetry in E2.
      destruct (app_split d2 y P b E2) as [d3 [-> _]]; [lia|].
      rewrite (overlap_leaving (d2 ++ d3) (d ++ d2) d d2 d3) in O;
        try reflexivity; try discriminate.
      * destruct d2; [simpl in L2; lia | discriminate].
      * rewrite length_app in L4. destruct d3; [simpl in L4; lia | discriminate].
  - symmetry in E.
    destruct (app_split a (P ++ b) x (o ++ y) E) as [d [-> E1]]; [lia|].
    rewrite length_app in L1, L3.
    destruct (app_split d (o ++ y) P b (eq_sym E1)) as [d2 [-> E2]]; [lia|].
    rewrite length_app in L1.
    destruct (Nat.le_gt_cases (length d2) (length o)) as [L4|L4].
    + symmetry in E2.
      destruct (app_split d2 b o y E2 L4) as [d3 [-> _]].
      rewrite (overlap_entering (d ++ d2) (d2 ++ d3) d d2 d3) in O;
        try reflexivity; try discriminate.
      * destruct d; [simpl in L3; lia | discriminate].
      * destruct d2; [simpl in L1; lia | discriminate].
    + destruct (app_split o y d2 b E2) as [e [-> _]]; [lia|].
      rewrite (overlap_across (d ++ o ++ e) o) in O; [discriminate|].
      apply contains_app.
Qed.

Lemma contains_around (P x o y : text) :
  overlap P o = false -> contains P (x ++ o ++ y) = true ->
  contains P x = true \/ contains P y = true.
Proof.
  intros O C. destruct (contains_split _ _ C) as [a [b E]].
  destruct (occurrence_cases _ _ _ _ _ _ E O) as [[x' ->] | [y' [_ ->]]].
  - left. apply contains_app.
  - right. apply contains_app.
Qed.

(** Putting [o] where [m] stood creates no occurrence of [P]. *)
Lemma contains_replaced (P x m o y : text) :
  overlap P o = false -> contains P (x ++ m ++ y) = false ->
  contains P (x ++ o ++ y) = false.
Proof.
  intros O C. destruct (contains P (x ++ o ++ y)) eqn:H; [|reflexivity].
  destruct (contains_around _ _ _ _ O H) as [K|K].
  - rewrite (contains_prefix _ _ (m ++ y) K) in C. discriminate.
  - rewrite app_assoc, (contains_suffix _ (x ++ m) _ K) in C. discriminate.
Qed.

(** ** Patterns without repetition *)

Lemma match_at (r : regex) (adv : bool) (p : option char) (m u : text)
    (gs : list text) :
  match_here r adv p (m ++ u) = Some (gs, length m) -> matches r p m u gs.
Proof.
  intros H.
  destruct (match_here_matches _ _ _ _ _ _ H) as [m' [rest [E [L M]]]].
  destruct (app_split m u m' rest E) as [d [-> ->]]; [lia|].
  rewrite length_app in L. destruct d; [|simpl in L; lia].
  rewrite app_nil_r in M. exact M.
Qed.

Lemma fits_sound (r : regex) (p : option char) (m rest : text)
    (gs : list text) :
  matches r p m rest gs -> no_repeat r = true -> In m (fits r).
Proof.
  induction 1; simpl; intros F; try discriminate; auto.
  - apply andb_true_iff in F. destruct F as [F1 F2].
    apply in_flat_map. exists m1. split; [auto|].
    apply in_map. auto.
  - apply andb_true_iff in F. apply in_or_app. left. tauto.
  - apply andb_true_iff in F. apply in_or_app. right. tauto.
Qed.

Lemma fits_complete {R} (r : regex) :
  literal_only r = true ->
  forall (P t : text) (prev : option char) (gs : list text) (k : cont R),
    In P (fits r) -> starts_with P t = true ->
    (forall gs', k (prev_after prev P) (skipn (length P) t) gs' <> None) ->
    m_re r prev t gs k <> None.
Proof.
  induction r as [s| | | |r IH|r1 IH1 r2 IH2|r1 IH1 r2 IH2]; simpl;
    intros L P t prev gs k I S K; try discriminate.
  - destruct I as [<-|[]]. rewrite m_lit_spec, S. apply K.
  - apply (IH L P); [exact I | exact S|]. intros gs'. apply K.
  - apply andb_true_iff in L. destruct L as [L1 L2].
    apply in_flat_map in I. destruct I as [a [Ia I]].
    apply in_map_iff in I. destruct I as [b [<- Ib]].
    rewrite starts_with_app_split in S. apply andb_true_iff in S.
    destruct S as [Sa Sb].
    apply (IH1 L1 a); [exact Ia | exact Sa|]. intros gs'.
    apply (IH2 L2 b); [exact Ib | exact Sb|]. intros gs''.
    specialize (K gs''). rewrite prev_after_app, length_app in K.
    rewrite skipn_skipn, Nat.add_comm. exact K.
  - apply andb_true_iff in L. destruct L as [L1 L2].
    apply in_app_or in I. destruct I as [I|I].
    + pose proof (IH1 L1 P t prev gs k I S K) as H.
      destruct (m_re r1 prev t gs k); [discriminate | congruence].
    + destruct (m_re r1 prev t gs k); [discriminate|]. simpl.
      now apply (IH2 L2 P).
Qed.

(** A pattern of literals matches wherever one of its texts starts. *)
Lemma match_here_fits (r : regex) (p : option char) (P t : text) :
  literal_only r = true -> In P (fits r) ->
  match_here r false p t = None -> starts_with P t = false.
Proof.
  intros L I M. destruct (starts_with P t) eqn:S; [|reflexivity].
  exfalso. revert M. unfold match_here.
  apply (fits_complete r L P); [exact I | exact S|].
  intros gs'. simpl. discriminate.
Qed.

(** ** The loop over parsed rules *)

Lemma apply_rules_run (rules : list rule) (l : list crule) (t : text) :
  compile_rules rules = Some l -> apply_rules rules t = Some (run l t).
Proof.
  revert l t. induction rules as [|[r repl] rules IH]; intros l t; simpl.
  - intros [= <-]. reflexivity.
  - unfold re_sub. destruct (compile_template r repl) as [tpl|];
      [|discriminate].
    destruct (compile_rules rules) as [l'|]; [|discriminate].
    intros [= <-]. simpl. now apply IH.
Qed.

Lemma default_rules_compiled :
  compile_rules (build_rules default_config) = Some default_rules.
Proof. reflexivity. Qed.

Lemma run_app (a b : list crule) (w : text) :
  run (a ++ b) w = run b (run a w).
Proof. unfold run. apply fold_left_app. Qed.

(** ** Properties that a substitution keeps *)

(** A property of texts that each replacement of a match keeps, whatever
    stands around the match, is kept by the substitution. *)
Lemma rewrites_inv (Inv : text -> Prop) (r : regex) (tpl : list titem) :
  (forall p m u gs, m <> [] ->
     match_here r false p (m ++ u) = Some (gs, length m) ->
     forall x y, Inv (x ++ m ++ y) -> Inv (x ++ expand tpl m gs ++ y)) ->
  forall p u out, rewrites r tpl p u out ->
  forall x, Inv (x ++ u) -> Inv (x ++ out).
Proof.
  intros K p u out R.
  induction R as [p | p c u out M R IH | p m u gs out N M R IH]; intros x I.
  - exact I.
  - replace (x ++ c :: out) with ((x ++ [c]) ++ out)
      by now rewrite <- app_assoc.
    apply IH. now rewrite <- app_assoc.
  - apply (K p m u gs N M). rewrite app_assoc. apply IH.
    now rewrite <- app_assoc.
Qed.

Lemma expand_const (o m : text) (gs : list text) :
  expand [TLit o] m gs = o.
Proof. unfold expand. simpl. apply app_nil_r. Qed.

Lemma sub_inv (Inv : text -> Prop) (rt : crule) :
  has_literal (fst rt) = true ->
  (forall p m u gs, m <> [] ->
     match_here (fst rt) false p (m ++ u) = Some (gs, length m) ->
     forall x y, Inv (x ++ m ++ y) ->
                 Inv (x ++ expand (snd rt) m gs ++ y)) ->
  forall w, Inv w -> Inv (sub rt w).
Proof.
  intros L K w I. unfold sub.
  apply (rewrites_inv Inv (fst rt) (snd rt) K None w _
           (scan_rewrites (fst rt) (snd rt) L w None) []).
  exact I.
Qed.

Lemma run_inv (Inv : text -> Prop) (l : list crule) :
  Forall (fun rt => forall w, Inv w -> Inv (sub rt w)) l ->
  forall w, Inv w -> Inv (run l w).
Proof.
  induction 1 as [|rt l H _ IH]; intros w I; [exact I|].
  simpl. apply IH. now apply H.
Qed.

(** ** What a rule changes *)

Lemma common_prefix_spec (a b g a' b' : text) :
  common_prefix a b = (g, (a', b')) -> a = g ++ a' /\ b = g ++ b'.
Proof.
  revert b g a' b'. induction a as [|x a IH]; intros b g a' b'; simpl.
  - intros [= <- <- <-]. auto.
  - destruct b as [|y b]; [intros [= <- <- <-]; auto|].
    destruct (N.eqb x y) eqn:E; [|intros [= <- <- <-]; auto].
    apply N.eqb_eq in E. subst y.
    destruct (common_prefix a b) as [g0 [a0 b0]] eqn:C.
    intros [= <- <- <-]. destruct (IH _ _ _ _ C) as [-> ->]. auto.
Qed.

Lemma changed_spec (m o : text) :
  exists g1 g2, m = g1 ++ fst (changed m o) ++ g2 /\
                o = g1 ++ snd (changed m o) ++ g2.
Proof.
  unfold changed.
  destruct (common_prefix m o) as [g1 [m1 o1]] eqn:E1.
  destruct (common_prefix (rev m1) (rev o1)) as [g2 [m2 o2]] eqn:E2.
  destruct (common_prefix_spec _ _ _ _ _ E1) as [-> ->].
  destruct (common_prefix_spec _ _ _ _ _ E2) as [Hm Ho].
  apply (f_equal (@rev char)) in Hm, Ho.
  rewrite rev_involutive, rev_app_distr in Hm, Ho.
  exists g1, (rev g2). simpl. now rewrite Hm, Ho.
Qed.

Lemma ends_of_spec (c : text) :
  match ends_of c with
  | Some (fw, lw) => c <> [] /\ word_after c = fw /\ word_end c = lw
  | None => True
  end.
Proof. destruct c; simpl; [exact I|]. repeat split. discriminate. Qed.

Lemma change_of_sound (trim : bool) (m o : text) :
  m = o \/ exists ch, In ch (change_of trim m o) /\ changes_as ch m o.
Proof.
  unfold change_of. destruct (text_eqb m o) eqn:E.
  - left. now apply text_eqb_eq.
  - right. destruct trim.
    + eexists. split; [left; reflexivity|].
      destruct (changed_spec m o) as [g1 [g2 [Hm Ho]]].
      exists g1, (fst (changed m o)), g2. simpl.
      repeat split; [exact Hm | exact Ho | apply ends_of_spec].
    + eexists. split; [left; reflexivity|].
      exists [], m, []. simpl. rewrite !app_nil_r.
      repeat split. apply ends_of_spec.
Qed.

Lemma prev_after_snoc (p : option char) (s : text) (y : char) :
  prev_after p (s ++ [y]) = Some y.
Proof. now rewrite prev_after_app. Qed.

Lemma rev_cons_inv (b rb : text) (e : char) :
  rev b = e :: rb -> b = rev rb ++ [e].
Proof.
  intros H. apply (f_equal (@rev char)) in H.
  now rewrite rev_involutive in H.
Qed.

Lemma change_spaced_sound (trim : bool) (a b o ws : text) (ch : change) :
  change_spaced trim a b o = Some ch ->
  changes_as ch (a ++ ws ++ b) o.
Proof.
  unfold change_spaced. destruct trim.
  - destruct a as [|h a']; [discriminate|].
    destruct o as [|h' o1]; [discriminate|].
    destruct (rev b) as [|e rb] eqn:Eb; [discriminate|].
    destruct (rev o1) as [|e' ro] eqn:Eo; [discriminate|].
    destruct (N.eqb h h' && N.eqb e e') eqn:Q; [|discriminate].
    apply andb_true_iff in Q. destruct Q as [Qh Qe].
    apply N.eqb_eq in Qh, Qe. subst h' e'.
    apply rev_cons_inv in Eb, Eo. subst b o1.
    intros [= <-]. exists [h], (a' ++ ws ++ rev rb), [e]. simpl.
    repeat split.
    + now rewrite <- !app_assoc.
    + destruct a' as [|x a'']; [exact I|].
      destruct rb as [|y rb']; [exact I|].
      repeat split; [discriminate|].
      simpl rev. unfold word_end. rewrite !app_assoc.
      now rewrite prev_after_snoc.
  - intros [= <-]. exists [], (a ++ ws ++ b), []. simpl.
    rewrite !app_nil_r. repeat split.
    destruct a as [|x a']; [exact I|].
    destruct (rev b) as [|y rb] eqn:Eb; [exact I|].
    apply rev_cons_inv in Eb. subst b.
    repeat split; [discriminate|].
    unfold word_end. rewrite !app_assoc. now rewrite prev_after_snoc.
Qed.

Lemma matches_groups (r : regex) (p : option char) (m rest : text)
    (gs : list text) :
  matches r p m rest gs -> ngroups r = 0 -> gs = [].
Proof.
  induction 1; simpl; intros G; try reflexivity; try discriminate.
  - apply Nat.eq_add_0 in G. destruct G as [G1 G2].
    now rewrite IHmatches1, IHmatches2.
  - apply Nat.eq_add_0 in G. now apply IHmatches.
  - apply Nat.eq_add_0 in G. now apply IHmatches.
Qed.

Lemma matches_spaced (a b : text) (p : option char) (m rest : text)
    (gs : list text) :
  matches (RSeq (RLit a) (RSeq RSpaces (RLit b))) p m rest gs ->
  exists ws, ws <> [] /\ forallb is_space ws = true /\ m = a ++ ws ++ b.
Proof.
  intros H. inversion H as [| | | | |r1 r2 p0 m1 m2 rest0 g1 g2 H1 H2| |];
    subst.
  inversion H1; subst.
  inversion H2 as [| | | | |r1 r2 p0 m3 m4 rest0 g3 g4 H3 H4| |]; subst.
  inversion H4; subst. inversion H3; subst. now exists m3.
Qed.

Lemma matches_field_shape (a : regex) (c : text) (p : option char)
    (m rest : text) (gs : list text) :
  matches (RSeq (RGroup a) (RSeq RLazyAny (RGroup (RLit c)))) p m rest gs ->
  ngroups a = 0 ->
  exists m1 mc, m = m1 ++ mc ++ c /\ gs = [m1; c] /\
                matches a p m1 (mc ++ c ++ rest) [].
Proof.
  intros H G. inversion H as [| | | | |r1 r2 p0 m1 m2 rest0 g1 g2 H1 H2| |];
    subst.
  inversion H1 as [| | | |r0 p0 m0 rest0 gs0 H0| | |]; subst.
  pose proof (matches_groups _ _ _ _ _ H0 G) as E. subst gs0.
  inversion H2 as [| | | | |r1 r2 p0 m3 m4 rest0 g3 g4 H3 H4| |]; subst.
  inversion H3; subst.
  inversion H4 as [| | | |r0 p0 m0 rest0 gs1 H5| | |]; subst.
  inversion H5; subst. exists m1, m3. repeat split.
  now rewrite <- app_assoc in H0.
Qed.

(** What the pattern of a string field matches. *)
Lemma matches_field (name : text) (p : option char) (m rest : text)
    (gs : list text) :
  matches (string_field name) p m rest gs ->
  exists ws mc, ws <> [] /\ forallb is_space ws = true /\
                m = open_tag ws name ++ mc ++ close_tag /\
                gs = [open_tag ws name; close_tag].
Proof.
  intros H. apply matches_field_shape in H; [|reflexivity].
  destruct H as [m1 [mc [-> [-> H]]]].
  apply matches_spaced in H. destruct H as [ws [N [W ->]]].
  now exists ws, mc.
Qed.

Lemma expand_value (items : list titem) (v whole g1 g2 : text) :
  template_value items = Some v ->
  expand (TGroup 1 :: items) whole [g1; g2] = g1 ++ v ++ g2.
Proof.
  unfold expand. simpl. intros H. f_equal. revert v H.
  induction items as [|[s|n] items IH]; intros v; simpl; try discriminate.
  - destruct (template_value items) as [v'|] eqn:E; [|discriminate].
    intros [= <-]. rewrite (IH v' eq_refl). now rewrite app_assoc.
  - destruct n as [|[|[|n]]]; try discriminate.
    destruct items; [|discriminate]. intros [= <-]. simpl.
    now rewrite app_nil_r.
Qed.

(** Each match of a rule is replaced by itself or as one of the changes
    of the rule says. *)
Lemma changes_sound (trim : bool) (rt : crule) (chs : list change)
    (p : option char) (m u : text) (gs : list text) :
  changes trim rt = Some chs ->
  match_here (fst rt) false p (m ++ u) = Some (gs, length m) ->
  expand (snd rt) m gs = m \/
  exists ch, In ch chs /\ changes_as ch m (expand (snd rt) m gs).
Proof.
  destruct rt as [r tpl]. unfold changes. simpl.
  destruct tpl as [|[o|n] tpl]; try discriminate.
  - destruct tpl; [|discriminate]. unfold changes_const.
    rewrite expand_const. destruct (no_repeat r) eqn:F.
    + intros [= <-] M. apply match_at in M.
      apply fits_sound in M; [|exact F].
      destruct (change_of_sound trim m o) as [E | [ch [I C]]];
        [left; now symmetry | right].
      exists ch. split; [|exact C]. apply in_flat_map. now exists m.
    + destruct r as [| | | | |r1 r2|]; try discriminate.
      destruct r1 as [a| | | | | |]; try discriminate.
      destruct r2 as [| | | | |r21 r22|]; try discriminate.
      destruct r21; try discriminate.
      destruct r22 as [b| | | | | |]; try discriminate.
      destruct (change_spaced trim a b o) as [ch|] eqn:CS; [|discriminate].
      intros [= <-] M. apply match_at in M.
      destruct (matches_spaced _ _ _ _ _ _ M) as [ws [_ [_ ->]]].
      right. exists ch. split; [now left|].
      now apply change_spaced_sound with (trim := trim).
  - destruct n as [|[|n]]; try discriminate. unfold changes_field.
    destruct r as [| | | | |r1 r2|]; try discriminate.
    destruct r1 as [| | | |a| |]; try discriminate.
    destruct r2 as [| | | | |r21 r22|]; try discriminate.
    destruct r21; try discriminate.
    destruct r22 as [| | | |r3| |]; try discriminate.
    destruct r3 as [c| | | | | |]; try discriminate.
    destruct (Nat.eqb (ngroups a) 0) eqn:G; [|discriminate].
    apply Nat.eqb_eq in G.
    destruct (template_value tpl) as [v|] eqn:V; [|discriminate].
    intros [= <-] M. apply match_at in M.
    destruct (matches_field_shape _ _ _ _ _ _ M G) as [m1 [mc [-> [-> _]]]].
    right. eexists. split; [now left|].
    exists m1, mc, c. rewrite (expand_value _ _ _ _ _ V). simpl. auto.
Qed.

(** ** Literals that a rule cannot bring back *)

Lemma change_keeps_literal (P : text) (ch : change) (m e x y : text) :
  overlap P (put ch) = false -> changes_as ch m e ->
  contains P (x ++ m ++ y) = false -> contains P (x ++ e ++ y) = false.
Proof.
  intros O [g1 [c [g2 [-> [-> _]]]]] C.
  replace (x ++ (g1 ++ put ch ++ g2) ++ y)
    with ((x ++ g1) ++ put ch ++ (g2 ++ y)) by now rewrite <- !app_assoc.
  apply contains_replaced with (m := c); [exact O|].
  now rewrite <- !app_assoc in *.
Qed.

Lemma keeps_sound (P : text) (rt : crule) (w : text) :
  keeps P rt = true ->
  contains P w = false -> contains P (sub rt w) = false.
Proof.
  unfold keeps. intros H. apply andb_true_iff in H. destruct H as [L H].
  apply existsb_exists in H. destruct H as [trim [_ H]].
  destruct (changes trim rt) as [chs|] eqn:C; [|discriminate].
  rewrite forallb_forall in H.
  apply (sub_inv (fun w => contains P w = false) rt L).
  intros p m u gs _ M x y I.
  destruct (changes_sound trim rt chs p m u gs C M) as [-> | [ch [Ic A]]];
    [exact I|].
  apply (change_keeps_literal P ch m); [|exact A | exact I].
  apply negb_true_iff. now apply H.
Qed.

Lemma run_keeps (P : text) (l : list crule) (w : text) :
  forallb (keeps P) l = true ->
  contains P w = false -> contains P (run l w) = false.
Proof.
  intros H. apply (run_inv (fun w => contains P w = false)).
  apply Forall_forall. intros rt I w' C.
  apply keeps_sound; [|exact C].
  rewrite forallb_forall in H. now apply H.
Qed.

(** A rule that matches wherever [P] starts, and replaces its matches by
    a text that cannot overlap [P], leaves no [P]. *)
Lemma est_lit (P : text) (r : regex) (o : text) :
  P <> [] -> overlap P o = false ->
  (forall p c u, match_here r false p (c :: u) = None ->
                 starts_with P (c :: u) = false) ->
  forall p u out, rewrites r [TLit o] p u out ->
  forall x,
    (forall a b, x = a ++ b -> b <> [] -> starts_with P (b ++ u) = false) ->
    contains P (x ++ out) = false.
Proof.
  intros NP O K p u out R.
  assert (In_x : forall x u',
            (forall a b, x = a ++ b -> b <> [] ->
                         starts_with P (b ++ u') = false) ->
            contains P x = false).
  { intros x u' Q. destruct (contains P x) eqn:C; [|reflexivity].
    destruct (contains_split _ _ C) as [a [b ->]].
    rewrite <- (Q a (P ++ b) eq_refl).
    - rewrite <- app_assoc. now rewrite starts_with_app.
    - destruct P; [congruence | discriminate]. }
  induction R as [p | p c u out M R IH | p m u gs out N M R IH]; intros x Q.
  - rewrite app_nil_r. now apply (In_x x []).
  - replace (x ++ c :: out) with ((x ++ [c]) ++ out)
      by now rewrite <- app_assoc.
    apply IH. intros a b E Nb.
    destruct (exists_last Nb) as [b0 [d ->]].
    rewrite app_assoc in E. apply app_inj_tail in E. destruct E as [-> <-].
    destruct b0 as [|e b0].
    + simpl. now apply (K p).
    + rewrite <- app_assoc. simpl.
      apply (Q a (e :: b0)); [reflexivity | discriminate].
  - rewrite expand_const.
    destruct (contains P (x ++ o ++ out)) eqn:C; [|reflexivity].
    destruct (contains_around _ _ _ _ O C) as [H|H].
    + now rewrite (In_x x (m ++ u) Q) in H.
    + assert (H0 : contains P ([] ++ out) = false).
      { apply IH. intros a b E Nb.
        destruct a; destruct b; try discriminate. congruence. }
      simpl in H0. congruence.
Qed.


Lemma clears_sound (P : text) (rt : crule) (w : text) :
  clears P rt = true -> contains P (sub rt w) = false.
Proof.
  destruct rt as [r tpl]. unfold clears, sub. simpl.
  destruct tpl as [|[o|n] [|i tpl]]; try discriminate.
  intros H. repeat (apply andb_true_iff in H; destruct H as [H ?]).
  apply negb_true_iff in H0, H1.
  apply existsb_exists in H2. destruct H2 as [P' [I E]].
  apply text_eqb_eq in E. subst P'.
  apply (est_lit P r o) with (p := None) (u := w) (x := []).
  - intros ->. discriminate.
  - exact H0.
  - intros p c u. now apply match_here_fits.
  - now apply scan_rewrites.
  - intros a b E N. destruct a; destruct b; try discriminate. congruence.
Qed.

(** A literal that a rule of the list clears and the rules after it keep
    out is absent after the run. *)
Lemma run_clears (P : text) (pre post : list crule) (rt : crule) (w : text) :
  clears P rt = true -> forallb (keeps P) post = true ->
  contains P (run (pre ++ rt :: post) w) = false.
Proof.
  intros C K. rewrite run_app. simpl. apply run_keeps; [exact K|].
  now apply clears_sound.
Qed.

(** ** Whole-word occurrences *)

Lemma prev_after_nonempty (p q : option char) (s : text) :
  s <> [] -> prev_after p s = prev_after q s.
Proof.
  intros N. destruct (exists_last N) as [s' [y ->]].
  now rewrite !prev_after_snoc.
Qed.

Lemma starts_with_same_length (old m u : text) :
  starts_with old (m ++ u) = true -> length m = length old -> m = old.
Proof.
  revert m. induction old as [|x old IH]; intros [|c m]; simpl;
    try discriminate; try reflexivity.
  rewrite andb_true_iff, N.eqb_eq. intros [-> S] [= L]. f_equal.
  now apply IH.
Qed.

Section WordFree.
Variable old : text.
Hypothesis old_nonempty : old <> [].
Hypothesis old_word : forallb is_word old = true.

Lemma word_hit_at (p : option char) (b : text) :
  word_hit old p (old ++ b) = negb (word_before p) && negb (word_after b).
Proof.
  unfold word_hit, at_boundary.
  rewrite starts_with_app, skipn_app_exact, word_after_app by exact old_nonempty.
  rewrite (word_before_after p old old_nonempty old_word).
  assert (W : word_after old = true).
  { destruct old as [|x o]; [congruence|]. simpl in *.
    now apply andb_true_iff in old_word. }
  rewrite W. rewrite xorb_true_r, andb_true_r. reflexivity.
Qed.

Lemma match_word_hit (adv : bool) (p : option char) (t : text) :
  match_here (safe_word_replace old) adv p t =
    if word_hit old p t then Some ([], length old) else None.
Proof.
  rewrite match_word_spec. fold (word_hit old p t).
  destruct (word_hit old p t); [|reflexivity].
  destruct old; [congruence|]. simpl. now rewrite andb_false_r.
Qed.

(** A text free of the word is left as it is by the rule for the word. *)
Lemma word_free_scan (tpl : list titem) (s a : text) :
  word_free old (a ++ s) ->
  scan (safe_word_replace old) tpl 0 (prev_after None a) s = s.
Proof.
  revert a. induction s as [|c s IH]; intros a F.
  - cbn [scan]. rewrite match_word_hit. unfold word_hit.
    destruct old; [congruence|]. simpl. now rewrite andb_false_r.
  - cbn [scan]. rewrite match_word_hit.
    destruct (word_hit old (prev_after None a) (c :: s)) eqn:H.
    + exfalso. pose proof H as H'. unfold word_hit in H'.
      apply andb_true_iff in H'. destruct H' as [H' _].
      apply andb_true_iff in H'. destruct H' as [_ S].
      apply starts_with_split in S. rewrite S in H.
      rewrite (F a (skipn (length old) (c :: s))) in H; [discriminate|].
      now rewrite <- S.
    + f_equal. specialize (IH (a ++ [c])). rewrite prev_after_snoc in IH.
      apply IH. now rewrite <- app_assoc.
Qed.

Lemma word_free_idle (tpl : list titem) (w : text) :
  word_free old w -> sub (safe_word_replace old, tpl) w = w.
Proof. intros F. apply (word_free_scan tpl w []). exact F. Qed.

(** A change that starts and ends like what it replaces brings no whole
    word in. *)
Lemma change_keeps_word (ch : change) (m e x y : text) :
  overlap old (put ch) = false ->
  ends_eqb (ends ch) (ends_of (put ch)) = true ->
  changes_as ch m e ->
  word_free old (x ++ m ++ y) -> word_free old (x ++ e ++ y).
Proof.
  intros O Q [g1 [c [g2 [-> [-> A]]]]] F a b E.
  destruct (ends ch) as [[fw lw]|]; [|discriminate].
  destruct (put ch) as [|o0 o'] eqn:Ep; [discriminate|]. simpl in Q.
  apply andb_true_iff in Q. destruct Q as [Q1 Q2].
  apply Bool.eqb_prop in Q1, Q2. destruct A as [Nc [Af Al]]. subst fw lw.
  set (o := o0 :: o') in *.
  assert (No : o <> []) by discriminate.
  replace (x ++ (g1 ++ o ++ g2) ++ y) with ((x ++ g1) ++ o ++ (g2 ++ y)) in E
    by now rewrite <- !app_assoc.
  rewrite word_hit_at.
  destruct (occurrence_cases _ _ _ _ _ _ E O) as [[x' Hx] | [y' [Ha Hy]]].
  - rewrite Hx, <- !app_assoc in E. apply app_inv_head in E.
    apply app_inv_head in E. subst b.
    specialize (F a (x' ++ c ++ g2 ++ y)). rewrite word_hit_at in F.
    assert (W : word_after (x' ++ o ++ g2 ++ y) =
                word_after (x' ++ c ++ g2 ++ y)).
    { destruct x' as [|z x']; [|reflexivity].
      change ([] ++ o ++ g2 ++ y) with (o ++ g2 ++ y).
      change ([] ++ c ++ g2 ++ y) with (c ++ g2 ++ y).
      rewrite (word_after_app o _ No), (word_after_app c _ Nc).
      now rewrite Af. }
    rewrite W. apply F.
    replace (x ++ (g1 ++ c ++ g2) ++ y) with ((x ++ g1) ++ c ++ g2 ++ y)
      by now rewrite <- !app_assoc.
    rewrite Hx. now rewrite <- !app_assoc.
  - specialize (F ((x ++ g1) ++ c ++ y') b). rewrite word_hit_at in F.
    assert (W : word_before (prev_after None a) =
                word_before (prev_after None ((x ++ g1) ++ c ++ y'))).
    { rewrite Ha. destruct y' as [|z y'].
      - rewrite !app_nil_r, !prev_after_app.
        rewrite (prev_after_nonempty _ None o No).
        rewrite (prev_after_nonempty _ None c Nc).
        unfold word_end in *. congruence.
      - rewrite !app_assoc.
        rewrite (prev_after_app _ _ (z :: y')).
        rewrite (prev_after_app _ (((x ++ g1) ++ c)) (z :: y')).
        apply f_equal. apply prev_after_nonempty. discriminate. }
    rewrite W. apply F. rewrite <- !app_assoc. now rewrite Hy.
Qed.

Lemma keeps_word_sound (rt : crule) (w : text) :
  keeps_word old rt = true ->
  word_free old w -> word_free old (sub rt w).
Proof.
  unfold keeps_word. intros H. apply andb_true_iff in H.
  destruct H as [L H].
  apply existsb_exists in H. destruct H as [trim [_ H]].
  destruct (changes trim rt) as [chs|] eqn:C; [|discriminate].
  rewrite forallb_forall in H.
  apply (sub_inv (word_free old) rt L).
  intros p m u gs _ M x y I.
  destruct (changes_sound trim rt chs p m u gs C M) as [-> | [ch [Ic A]]];
    [exact I|].
  specialize (H ch Ic). apply andb_true_iff in H. destruct H as [H1 H2].
  apply negb_true_iff in H1.
  now apply (change_keeps_word ch m).
Qed.

Lemma run_keeps_word (l : list crule) (w : text) :
  forallb (keeps_word old) l = true ->
  word_free old w -> word_free old (run l w).
Proof.
  intros H. apply (run_inv (word_free old)).
  apply Forall_forall. intros rt I w' C.
  apply keeps_word_sound; [|exact C].
  rewrite forallb_forall in H. now apply H.
Qed.

End WordFree.

Section WordCleared.
Variables old new : text.
Hypothesis old_nonempty : old <> [].
Hypothesis old_word : forallb is_word old = true.
Hypothesis new_nonempty : new <> [].
Hypothesis new_word : forallb is_word new = true.
Hypothesis apart : overlap old new = false.

Lemma word_after_word (s rest : text) :
  s <> [] -> forallb is_word s = true -> word_after (s ++ rest) = true.
Proof.
  intros N W. destruct s as [|c s]; [congruence|]. simpl in *.
  now apply andb_true_iff in W.
Qed.

Lemma word_rule_shape (p : option char) (u out : text) :
  rewrites (safe_word_replace old) [TLit new] p u out ->
  forall p0 x, p = prev_after p0 x ->
    (forall a b, x = a ++ b -> b <> [] ->
       word_hit old (prev_after p0 a) (b ++ u) = false) ->
    word_free_from p0 old (x ++ out).
Proof.
  intros R. induction R as [p | p c u out M R IH | p m u gs out N M R IH];
    intros p0 x Ep Q a b E.
  - rewrite app_nil_r in E. subst x.
    specialize (Q a (old ++ b) eq_refl). rewrite app_nil_r in Q.
    apply Q. destruct old; [congruence | discriminate].
  - revert a b E. fold (word_free_from p0 old (x ++ c :: out)).
    replace (x ++ c :: out) with ((x ++ [c]) ++ out)
      by now rewrite <- app_assoc.
    apply IH; [now rewrite prev_after_snoc|].
    intros a b E Nb. destruct (exists_last Nb) as [b0 [d ->]].
    rewrite app_assoc in E. apply app_inj_tail in E. destruct E as [-> <-].
    destruct b0 as [|e b0].
    + simpl. rewrite app_nil_r in Ep. subst p.
      rewrite (match_word_hit old old_nonempty old_word) in M.
      destruct (word_hit old (prev_after p0 a) (c :: u)); congruence.
    + rewrite <- app_assoc. simpl.
      apply (Q a (e :: b0)); [reflexivity | discriminate].
  - rewrite (match_word_hit old old_nonempty old_word) in M.
    destruct (word_hit old p (m ++ u)) eqn:H; [|discriminate].
    injection M as _ L. pose proof H as H'. unfold word_hit in H'.
    apply andb_true_iff in H'. destruct H' as [H' _].
    apply andb_true_iff in H'. destruct H' as [_ S].
    apply starts_with_same_length in S; [|now symmetry]. subst m.
    rewrite expand_const in E.
    rewrite (word_hit_at old old_nonempty old_word).
    destruct (occurrence_cases _ _ _ _ _ _ E apart)
      as [[x' Hx] | [y' [Ha Hy]]].
    + rewrite Hx, <- !app_assoc in E. apply app_inv_head in E.
      apply app_inv_head in E. subst b.
      specialize (Q a (old ++ x')). rewrite <- app_assoc in Q.
      rewrite (word_hit_at old old_nonempty old_word) in Q.
      assert (W : word_after (x' ++ new ++ out) =
                  word_after (x' ++ old ++ u)).
      { destruct x' as [|z x']; [|reflexivity]. simpl.
        now rewrite !word_after_word. }
      rewrite W. apply Q; [exact Hx|].
      destruct old; [congruence | discriminate].
    + destruct y' as [|z y'].
      * rewrite Ha, app_nil_r, prev_after_app.
        now rewrite (word_before_after _ new new_nonempty new_word).
      * assert (F : word_free_from (prev_after p old) old ([] ++ out)).
        { apply IH; [reflexivity|]. intros a' b' E' N'.
          destruct a'; destruct b'; try discriminate. congruence. }
        specialize (F (z :: y') b Hy).
        rewrite (word_hit_at old old_nonempty old_word) in F.
        rewrite Ha, !app_assoc, prev_after_app.
        rewrite (prev_after_nonempty _ (prev_after p old) (z :: y'))
          by discriminate.
        exact F.
Qed.

(** The rule for a word leaves no whole-word occurrence of it, when the
    new word cannot overlap the old one. *)
Lemma word_rule_clears (w : text) :
  word_free old (sub (safe_word_replace old, [TLit new]) w).
Proof.
  unfold sub, word_free. simpl.
  apply (word_rule_shape None w _) with (x := []) (p0 := None).
  - apply scan_rewrites. unfold has_literal. simpl.
    destruct old; [congruence | reflexivity].
  - reflexivity.
  - intros a b E N. destruct a; destruct b; try discriminate. congruence.
Qed.

End WordCleared.

(** ** The second pass *)

Lemma contains_trans (P l u : text) :
  contains P l = true -> contains l u = true -> contains P u = true.
Proof.
  intros H1 H2. destruct (contains_split _ _ H1) as [a [b ->]].
  destruct (contains_split _ _ H2) as [x [y ->]].
  replace (x ++ (a ++ P ++ b) ++ y) with ((x ++ a) ++ P ++ (b ++ y))
    by now rewrite <- !app_assoc.
  apply contains_app.
Qed.

Lemma absent_prefix (P a b : text) :
  contains P (a ++ b) = false -> contains P a = false.
Proof.
  intros H. destruct (contains P a) eqn:C; [|reflexivity].
  now rewrite (contains_prefix P a b C) in H.
Qed.

Lemma absent_suffix (P a b : text) :
  contains P (a ++ b) = false -> contains P b = false.
Proof.
  intros H. destruct (contains P b) eqn:C; [|reflexivity].
  now rewrite (contains_suffix P a b C) in H.
Qed.

(** A substitution whose matches are their own replacements, as long as
    they hold none of [Ps], leaves a text without any of [Ps] as it is. *)
Lemma rewrites_same (Ps : list text) (r : regex) (tpl : list titem) :
  (forall p m u gs,
     match_here r false p (m ++ u) = Some (gs, length m) ->
     Forall (fun P => contains P m = false) Ps ->
     expand tpl m gs = m) ->
  forall p u out, rewrites r tpl p u out ->
  Forall (fun P => contains P u = false) Ps -> out = u.
Proof.
  intros K p u out R.
  induction R as [p | p c u out M R IH | p m u gs out N M R IH]; intros A.
  - reflexivity.
  - f_equal. apply IH. eapply Forall_impl; [|exact A].
    intros P. apply contains_tail.
  - rewrite (K p m u gs M).
    + f_equal. apply IH. eapply Forall_impl; [|exact A].
      intros P. apply absent_suffix.
    + eapply Forall_impl; [|exact A]. intros P. apply absent_prefix.
Qed.

Lemma settled_sound (Ps : list text) (rt : crule) (u : text) :
  settled Ps rt = true ->
  Forall (fun P => contains P u = false) Ps -> sub rt u = u.
Proof.
  unfold settled. intros H A. apply orb_true_iff in H.
  destruct H as [H|H].
  - apply existsb_exists in H. destruct H as [l [Il H]].
    apply existsb_exists in H. destruct H as [P [IP C]].
    rewrite Forall_forall in A. specialize (A P IP).
    apply scan_absent with (l := l); [exact Il|].
    destruct (contains l u) eqn:Cl; [|reflexivity].
    now rewrite (contains_trans P l u C Cl) in A.
  - apply andb_true_iff in H. destruct H as [H F].
    apply andb_true_iff in H. destruct H as [L N].
    destruct rt as [r tpl]. simpl in *.
    destruct tpl as [|[o|n] [|i tpl]]; try discriminate.
    rewrite forallb_forall in F. unfold sub. simpl.
    apply (rewrites_same Ps r [TLit o]) with (p := None);
      [|now apply scan_rewrites | exact A].
    intros p m u' gs M Am. rewrite expand_const.
    apply match_at in M. apply fits_sound in M; [|exact N].
    specialize (F m M). apply orb_true_iff in F. destruct F as [F|F].
    + symmetry. now apply text_eqb_eq.
    + apply existsb_exists in F. destruct F as [P [IP C]].
      rewrite Forall_forall in Am. now rewrite (Am P IP) in C.
Qed.

Lemma run_fixed (l : list crule) (u : text) :
  Forall (fun rt => sub rt u = u) l -> run l u = u.
Proof.
  induction 1 as [|rt l H _ IH]; [reflexivity|].
  simpl. now rewrite H.
Qed.

Lemma Forall_nth_all {A} (Q : A -> Prop) (l : list A) (d : A) :
  (forall k, k < length l -> Q (nth k l d)) -> Forall Q l.
Proof.
  intros H. apply Forall_forall. intros x I.
  destruct (In_nth l x d I) as [k [L <-]]. now apply H.
Qed.

Lemma cleared_at_sound (l : list crule) (kP : nat * text) (w : text) :
  cleared_at l kP = true -> contains (snd kP) (run l w) = false.
Proof.
  unfold cleared_at. rewrite <- (firstn_skipn (fst kP) l) at 2.
  destruct (skipn (fst kP) l) as [|rt post]; [discriminate|].
  intros H. apply andb_true_iff in H. destruct H as [C K].
  now apply run_clears.
Qed.

(** A rule applied with its template parsed. *)
Lemma re_sub_sub (r : regex) (repl : text) (tpl : list titem) (u : text) :
  compile_template r repl = Some tpl ->
  re_sub r repl u = Some u -> sub (r, tpl) u = u.
Proof. unfold re_sub, sub. intros ->. simpl. congruence. Qed.

Lemma run_cons (rt : crule) (l : list crule) (w : text) :
  run (rt :: l) w = run l (sub rt w).
Proof. reflexivity. Qed.

(** After the rules of the default configuration none of the cleared
    texts is left. *)
Lemma cleared_literals_absent (t : text) :
  Forall (fun P => contains P (run default_rules t) = false)
         (List.map snd cleared_literals).
Proof.
  assert (H : forallb (cleared_at default_rules) cleared_literals = true)
    by (vm_compute; reflexivity).
  rewrite forallb_forall in H.
  apply Forall_forall. intros P I. apply in_map_iff in I.
  destruct I as [kP [<- I]]. apply cleared_at_sound. now apply H.
Qed.

(** Nor is the old service name, as a whole word. *)
Lemma old_service_word_free (t : text) :
  word_free (str "InputService") (run default_rules t).
Proof.
  rewrite <- (firstn_skipn 5 default_rules), run_app.
  change (skipn 5 default_rules)
    with ((safe_word_replace (str "InputService"),
           [TLit (str "ToddService")]) :: skipn 6 default_rules).
  rewrite run_cons. apply run_keeps_word.
  - discriminate.
  - reflexivity.
  - vm_compute. reflexivity.
  - apply word_rule_clears; try discriminate; reflexivity.
Qed.

(** ** Texts that cannot overlap *)

Lemma ends_with_split (d o : text) :
  ends_with d o = true -> exists z, o = z ++ d.
Proof.
  unfold ends_with. intros H. apply starts_with_split in H.
  exists (rev (skipn (length (rev d)) (rev o))).
  apply (f_equal (@rev char)) in H.
  now rewrite rev_involutive, rev_app_distr, rev_involutive in H.
Qed.

Lemma overlap_cases (P o : text) :
  overlap P o = true ->
  contains P o = true \/ contains o P = true \/
  exists d s, P = d ++ s /\ d <> [] /\ s <> [] /\
              (starts_with s o = true \/ ends_with d o = true).
Proof.
  unfold overlap. intros H. apply orb_true_iff in H. destruct H as [H|H].
  - apply orb_true_iff in H. tauto.
  - right. right. apply existsb_exists in H. destruct H as [k [I H]].
    apply in_seq in I. exists (firstn k P), (skipn k P).
    repeat split.
    + now rewrite firstn_skipn.
    + intros E. apply (f_equal (@length char)) in E.
      rewrite length_firstn in E. simpl in E. lia.
    + intros E. apply (f_equal (@length char)) in E.
      rewrite length_skipn in E. simpl in E. lia.
    + now apply orb_true_iff.
Qed.

Lemma overlap_nil (P : text) : overlap P [] = true.
Proof.
  unfold overlap. replace (contains [] P) with true;
    [now rewrite orb_true_r|].
  destruct P; reflexivity.
Qed.

Lemma last_app_nonempty (d s : text) (z : char) :
  s <> [] -> last (d ++ s) z = last s z.
Proof.
  intros N. destruct (exists_last N) as [s' [y ->]].
  now rewrite app_assoc, !last_last.
Qed.

Lemma last_in (s : text) (z : char) : s <> [] -> In (last s z) s.
Proof.
  intros N. destruct (exists_last N) as [s' [y ->]].
  rewrite last_last. apply in_or_app. right. now left.
Qed.

Lemma hd_in (s : text) (z : char) : s <> [] -> In (hd z s) s.
Proof. destruct s; [congruence|]. intros _. now left. Qed.

(** Two texts share no character position when each holds a character the
    other lacks and neither can start where the other ends. *)
Lemma no_overlap (P o : text) (z : char) :
  (exists x, In x P /\ ~ In x o) ->
  (exists x, In x o /\ ~ In x P) ->
  (~ In (last P z) o \/ ~ In (hd z o) (tl P)) ->
  (~ In (hd z P) o \/ ~ In (last o z) (removelast P)) ->
  overlap P o = false.
Proof.
  intros [x [Ix Nx]] [y [Iy Ny]] H3 H4.
  destruct (overlap P o) eqn:O; [|reflexivity]. exfalso.
  destruct (overlap_cases _ _ O) as [C | [C | [d [s [E [Nd [Ns [S|S]]]]]]]].
  - destruct (contains_split _ _ C) as [a [b ->]]. apply Nx.
    apply in_or_app. right. apply in_or_app. now left.
  - destruct (contains_split _ _ C) as [a [b ->]]. apply Ny.
    apply in_or_app. right. apply in_or_app. now left.
  - apply starts_with_split in S. subst P.
    destruct H3 as [H|H]; apply H.
    + rewrite last_app_nonempty by exact Ns. rewrite S.
      apply in_or_app. left. now apply last_in.
    + rewrite S. destruct s as [|s0 s]; [congruence|]. simpl.
      destruct d as [|d0 d]; [congruence|]. simpl.
      apply in_or_app. right. now left.
  - apply ends_with_split in S. destruct S as [w ->]. subst P.
    destruct H4 as [H|H]; apply H.
    + destruct d as [|d0 d]; [congruence|]. simpl.
      apply in_or_app. right. now left.
    + rewrite last_app_nonempty by exact Nd.
      rewrite removelast_app by exact Ns.
      apply in_or_app. left. now apply last_in.
Qed.

(** ** String fields with their value in place *)

Lemma app_same_length (a b c d : text) :
  a ++ b = c ++ d -> length a = length c -> a = c /\ b = d.
Proof.
  intros E L. destruct (app_split a b c d E) as [z [-> ->]]; [lia|].
  rewrite length_app in L. destruct z; [|simpl in L; lia].
  now rewrite app_nil_r.
Qed.

Lemma field_done_tail (name v : text) (a s : text) :
  field_done name v (a ++ s) -> field_done name v s.
Proof.
  intros F x ws rest -> N W. apply (F (a ++ x) ws rest); auto.
  now rewrite <- app_assoc.
Qed.

Section Field.
Variables name v : text.
Variable items : list titem.
Hypothesis value_items : template_value items = Some v.
Hypothesis value_closed : no_early_close v = true.

Lemma field_done_same (p : option char) (s out : text) :
  rewrites (string_field name) (TGroup 1 :: items) p s out ->
  field_done name v s -> out = s.
Proof.
  intros R. induction R as [p | p c u out M R IH | p m u gs out N M R IH];
    intros F.
  - reflexivity.
  - f_equal. apply IH. now apply (field_done_tail name v [c]).
  - pose proof (match_at _ _ _ _ _ _ M) as Mm.
    destruct (matches_field _ _ _ _ _ Mm) as [ws [mc [Nw [W [-> ->]]]]].
    assert (Em : mc = v).
    { destruct (F [] ws (mc ++ close_tag ++ u)) as [C|S]; auto.
      - simpl. now rewrite <- !app_assoc.
      - now rewrite contains_app in C.
      - apply starts_with_split in S.
        set (post := skipn (length (v ++ close_tag))
                           (mc ++ close_tag ++ u)) in S.
        pose proof (match_field name ws v post false p Nw W value_closed)
          as K.
        replace (open_tag ws name ++ v ++ close_tag ++ post)
          with ((open_tag ws name ++ mc ++ close_tag) ++ u) in K
          by (rewrite <- !app_assoc in *; now rewrite S).
        rewrite M in K. injection K as L.
        rewrite !length_app in L.
        rewrite <- app_assoc in S.
        apply app_same_length in S; [tauto | lia]. }
    subst mc. rewrite (expand_value _ _ _ _ _ value_items). f_equal.
    apply IH. now apply (field_done_tail name v _ _ F).
Qed.

(** A text whose fields have their value is left as it is by the rule of
    the field. *)
Lemma field_done_idle (w : text) :
  field_done name v w -> sub (string_field name, TGroup 1 :: items) w = w.
Proof.
  intros F. unfold sub. simpl.
  apply (field_done_same None w); [|exact F].
  now apply scan_rewrites.
Qed.

End Field.

(** The first closing tag of a text. *)
Lemma first_close (t : text) :
  contains close_tag t = true ->
  exists content post,
    t = content ++ close_tag ++ post /\ no_early_close content = true.
Proof.
  induction t as [|c t IH]; [discriminate|].
  destruct (starts_with close_tag (c :: t)) eqn:S.
  - intros _. exists [], (skipn (length close_tag) (c :: t)). split.
    + now apply starts_with_split.
    + reflexivity.
  - cbn [contains]. rewrite S. cbn [orb]. intros C. destruct (IH C) as [content [post [-> N]]].
    exists (c :: content), post. split; [reflexivity|].
    cbn [no_early_close]. rewrite N, andb_true_r. apply negb_true_iff.
    rewrite <- S.
    change (c :: content ++ close_tag ++ post)
      with ((c :: content) ++ close_tag ++ post).
    rewrite app_assoc. symmetry. apply starts_with_app_long.
    rewrite length_app. simpl. lia.
Qed.

Lemma rewrites_absent (r : regex) (tpl : list titem) (l : text)
    (p : option char) (u out : text) :
  rewrites r tpl p u out -> In l (lits r) -> contains l u = false ->
  out = u.
Proof.
  intros R I. induction R as [p | p c u out M R IH | p m u gs out N M R IH];
    intros C.
  - reflexivity.
  - f_equal. apply IH. now apply contains_tail in C.
  - now rewrite (match_here_absent r false p _ l I C) in M.
Qed.

(** White space before a character that is not white space. *)
Lemma spaces_unique (ws ws' : text) (n n' : char) (t t' : text) :
  forallb is_space ws = true -> forallb is_space ws' = true ->
  is_space n = false -> is_space n' = false ->
  ws ++ n :: t = ws' ++ n' :: t' -> ws = ws' /\ n :: t = n' :: t'.
Proof.
  revert ws'. induction ws as [|c ws IH]; intros [|c' ws'] W W' N N' E;
    simpl in *.
  - auto.
  - injection E as -> _. apply andb_true_iff in W'. destruct W' as [W' _].
    congruence.
  - injection E as -> _. apply andb_true_iff in W. destruct W as [W _].
    congruence.
  - injection E as -> E. apply andb_true_iff in W, W'.
    destruct (IH ws') as [-> H]; try tauto; auto.
Qed.

Lemma open_tag_unique (name ws ws' r r' : text) :
  forallb is_space ws = true -> forallb is_space ws' = true ->
  open_tag ws name ++ r = open_tag ws' name ++ r' -> ws = ws' /\ r = r'.
Proof.
  intros W W' E. unfold open_tag in E. rewrite <- !app_assoc in E.
  apply app_inv_head in E.
  change (str "name=" ++ dq ++ name ++ dq ++ str ">" ++ r)
    with (110%N :: str "ame=" ++ dq ++ name ++ dq ++ str ">" ++ r) in E.
  change (str "name=" ++ dq ++ name ++ dq ++ str ">" ++ r')
    with (110%N :: str "ame=" ++ dq ++ name ++ dq ++ str ">" ++ r') in E.
  apply spaces_unique in E; try assumption; try reflexivity.
  destruct E as [-> E]. split; [reflexivity|].
  injection E as E. apply app_inv_head in E. now injection E.
Qed.

Lemma close_tag_start (z d : text) : close_tag = z ++ 60%N :: d -> z = [].
Proof.
  destruct z as [|z0 z]; [reflexivity|]. intros H. exfalso.
  injection H as _ H.
  assert (I : In 60%N (z ++ 60%N :: d))
    by (apply in_or_app; right; now left).
  rewrite <- H in I. simpl in I. intuition discriminate.
Qed.

Section FieldSet.
Variables name v : text.
Variable items : list titem.
Hypothesis value_items : template_value items = Some v.
Hypothesis name_plain : ~ In 60%N name.
Hypothesis value_plain : ~ In 60%N v.

Lemma open_tag_cons (ws : text) : open_tag ws name = 60%N :: tag_rest name ws.
Proof. reflexivity. Qed.

Lemma tag_rest_plain (ws : text) :
  forallb is_space ws = true -> ~ In 60%N (tag_rest name ws).
Proof.
  intros W I. unfold tag_rest in I. rewrite !in_app_iff in I.
  rewrite forallb_forall in W.
  destruct I as [I | [I | [I | [I | [I | [I | I]]]]]];
    try (simpl in I; intuition discriminate).
  specialize (W _ I). discriminate.
Qed.

(** What the rule writes for a match. *)
Lemma field_expansion (p : option char) (m u : text) (gs : list text) :
  match_here (string_field name) false p (m ++ u) = Some (gs, length m) ->
  exists ws, ws <> [] /\ forallb is_space ws = true /\
    expand (TGroup 1 :: items) m gs = open_tag ws name ++ v ++ close_tag.
Proof.
  intros M. apply match_at in M.
  destruct (matches_field _ _ _ _ _ M) as [ws [mc [N [W [-> ->]]]]].
  exists ws. repeat split; [exact N | exact W|].
  apply (expand_value _ _ _ _ _ value_items).
Qed.

(** Up to the first [<] of its output, the rule has copied its input. *)
Lemma rewrites_prefix (p : option char) (s out : text) :
  rewrites (string_field name) (TGroup 1 :: items) p s out ->
  forall g rest, out = g ++ rest -> ~ In 60%N g ->
  exists rest_s, s = g ++ rest_s /\
    rewrites (string_field name) (TGroup 1 :: items) (prev_after p g)
             rest_s rest.
Proof.
  intros R. induction R as [p | p c u out M R IH | p m u gs out N M R IH];
    intros g rest E I.
  - destruct g; [|discriminate]. simpl in E. subst rest.
    exists []. split; [reflexivity | constructor].
  - destruct g as [|c' g].
    + simpl in E. subst rest. exists (c :: u). split; [reflexivity|].
      now apply rw_copy.
    + injection E as <- E.
      destruct (IH g rest E) as [rest_s [-> R']].
      * intros J. apply I. now right.
      * now exists rest_s.
  - destruct g as [|c' g].
    + change ([] ++ rest) with rest in E. subst rest.
      exists (m ++ u). split; [reflexivity|]. now apply rw_match.
    + exfalso. destruct (field_expansion _ _ _ _ M) as [ws [_ [_ X]]].
      rewrite X, open_tag_cons in E. injection E as <- _.
      apply I. now left.
Qed.

Lemma field_rule_shape (p : option char) (s out : text) :
  rewrites (string_field name) (TGroup 1 :: items) p s out ->
  field_done name v out.
Proof.
  intros R. induction R as [p | p c u out M R IH | p m u gs out N M R IH];
    intros x ws rest E Nw W.
  - destruct x; discriminate.
  - destruct x as [|x0 x].
    + left.
      change ([] ++ open_tag ws name ++ rest)
        with (60%N :: tag_rest name ws ++ rest) in E.
      injection E as -> E.
      destruct (rewrites_prefix _ _ _ R (tag_rest name ws) rest E
                  (tag_rest_plain ws W))
        as [rest_s [-> R']].
      destruct (contains close_tag rest_s) eqn:C.
      * exfalso. destruct (first_close _ C) as [content [post [-> Nc]]].
        change (60%N :: tag_rest name ws ++ content ++ close_tag ++ post)
          with (open_tag ws name ++ content ++ close_tag ++ post) in M.
        now rewrite (match_field name ws content post false p Nw W Nc) in M.
      * rewrite (rewrites_absent _ _ close_tag _ _ _ R'); [exact C | | exact C].
        simpl. auto.
    + injection E as _ E. now apply (IH x ws rest).
  - destruct (field_expansion _ _ _ _ M) as [ws' [Nw' [W' X]]].
    rewrite X in E. clear X.
    destruct (Nat.le_gt_cases (length (open_tag ws' name ++ v ++ close_tag))
                              (length x)) as [L|L].
    + destruct (app_split _ _ _ _ E L) as [d [-> Ed]].
      now apply (IH d ws rest).
    + symmetry in E. destruct (app_split _ _ _ _ E) as [d [Ee Ed]]; [lia|].
      destruct x as [|x0 x].
      * change ([] ++ d) with d in Ee. subst d.
        rewrite <- app_assoc in Ed.
        destruct (open_tag_unique _ _ _ _ _ W W' Ed) as [_ ->].
        right. apply starts_with_app.
      * exfalso.
        assert (Nd : d <> []).
        { intros ->. rewrite app_nil_r in Ee. rewrite Ee in L. lia. }
        destruct d as [|d0 d]; [congruence|]. clear Nd L.
        assert (Ee' : (tag_rest name ws' ++ v) ++ close_tag = x ++ d0 :: d).
        { rewrite open_tag_cons in Ee. rewrite <- app_assoc.
          injection Ee as _ Ee. exact Ee. }
        assert (Ed' : d0 = 60%N /\ tag_rest name ws ++ rest = d ++ out).
        { rewrite open_tag_cons in Ed. injection Ed as E1 E2. split.
          - now symmetry.
          - exact E2. }
        destruct Ed' as [-> Ed']. clear Ee Ed.
        destruct (Nat.le_gt_cases (length x) (length (tag_rest name ws' ++ v)))
          as [Lx|Lx].
        -- symmetry in Ee'.
           destruct (app_split _ _ _ _ Ee' Lx) as [z [Ez Ec]].
           destruct z as [|z0 z].
           ++ change ([] ++ close_tag) with (60%N :: str "/string>") in Ec.
              injection Ec as ->. unfold tag_rest in Ed'.
              simpl in Ed'. discriminate Ed'.
           ++ injection Ec as <- _.
              assert (I : In 60%N (tag_rest name ws' ++ v)).
              { rewrite Ez. apply in_or_app. right. now left. }
              apply in_app_or in I. destruct I as [I|I];
                [now apply (tag_rest_plain ws' W') | contradiction].
        -- destruct (app_split _ _ _ _ Ee') as [z [Ez Ec]]; [lia|].
           pose proof (close_tag_start _ _ Ec) as Z. subst z.
           rewrite app_nil_r in Ez. rewrite Ez in Lx. lia.
Qed.

(** The rule of a field leaves every field with its value. *)
Lemma field_rule_done (w : text) :
  field_done name v (sub (string_field name, TGroup 1 :: items) w).
Proof.
  unfold sub. simpl. apply (field_rule_shape None w).
  now apply scan_rewrites.
Qed.

End FieldSet.

(** ** Rules that leave string fields alone *)

Lemma mem_in (x : char) (t : text) : mem x t = true <-> In x t.
Proof.
  unfold mem. rewrite existsb_exists. split.
  - intros [y [I E]]. apply N.eqb_eq in E. now subst.
  - intros I. exists x. split; [exact I | apply N.eqb_refl].
Qed.

Lemma mem_not_in (x : char) (t : text) : mem x t = false -> ~ In x t.
Proof. intros H I. apply mem_in in I. congruence. Qed.

Lemma in_open_tag (x : char) (ws name : text) :
  In x (open_tag ws name) -> forallb is_space ws = true ->
  is_space x = true \/ mem x (tag_chars name) = true.
Proof.
  unfold open_tag, tag_chars.
  set (B := str "name=" ++ dq ++ name ++ dq ++ str ">").
  intros I W. rewrite !in_app_iff in I. rewrite forallb_forall in W.
  destruct I as [I | [I | I]].
  - right. apply mem_in. apply in_or_app. now left.
  - left. now apply W.
  - right. apply mem_in. apply in_or_app. now right.
Qed.

(** Replacing [c] by [o] keeps the fields with their value, when [o]
    cannot overlap a tag and [c] cannot start inside the value and the
    closing tag of a field. *)
Lemma field_done_replaced (name v x c o y c0 c1 : text) :
  c = c0 ++ c1 ->
  overlap (v ++ close_tag) c0 = false ->
  overlap close_tag o = false \/ contains close_tag c = true ->
  (forall ws, forallb is_space ws = true ->
              overlap (open_tag ws name) o = false) ->
  field_done name v (x ++ c ++ y) -> field_done name v (x ++ o ++ y).
Proof.
  intros Ec Oc Oclose Otag F a ws rest E Nw W.
  destruct (occurrence_cases _ _ _ _ _ _ E (Otag ws W))
    as [[x' Hx] | [y' [Ha Hy]]].
  - assert (Er : rest = x' ++ o ++ y).
    { rewrite Hx, <- !app_assoc in E. apply app_inv_head in E.
      now apply app_inv_head in E. }
    subst rest.
    destruct (F a ws (x' ++ c ++ y)) as [C|S]; auto.
    + rewrite Hx. now rewrite <- !app_assoc.
    + left. destruct Oclose as [O|Cc].
      * now apply contains_replaced with (m := c).
      * exfalso. destruct (contains_split _ _ Cc) as [c2 [c3 Ec']].
        rewrite Ec' in C.
        replace (x' ++ (c2 ++ close_tag ++ c3) ++ y)
          with ((x' ++ c2) ++ close_tag ++ (c3 ++ y)) in C
          by now rewrite <- !app_assoc.
        now rewrite contains_app in C.
    + right. apply starts_with_split in S.
      set (tail := skipn (length (v ++ close_tag)) (x' ++ c ++ y)) in S.
      assert (S' : x' ++ c0 ++ (c1 ++ y) = [] ++ (v ++ close_tag) ++ tail).
      { simpl. rewrite <- S, Ec. now rewrite <- !app_assoc. }
      destruct (occurrence_cases _ _ _ _ _ _ S' Oc)
        as [[x'' Hx'] | [y'' [Hn _]]].
      * simpl in Hx'. rewrite Hx', <- !app_assoc.
        rewrite app_assoc. apply starts_with_app.
      * exfalso. destruct x'; [|discriminate]. destruct c0; [|discriminate].
        now rewrite overlap_nil in Oc.
  - apply (F (x ++ c ++ y') ws rest); auto.
    rewrite Hy. now rewrite <- !app_assoc.
Qed.

Lemma open_tag_last (ws name : text) (z : char) :
  last (open_tag ws name) z = 62%N.
Proof.
  unfold open_tag.
  replace (str "<string" ++ ws ++ str "name=" ++ dq ++ name ++ dq ++ str ">")
    with ((str "<string" ++ ws ++ str "name=" ++ dq ++ name ++ dq) ++ [62%N])
    by now rewrite <- !app_assoc.
  apply last_last.
Qed.

Lemma tag_safe_sound (name o ws : text) :
  tag_safe name o = true -> forallb is_space ws = true ->
  overlap (open_tag ws name) o = false.
Proof.
  unfold tag_safe. intros H W.
  apply andb_true_iff in H. destruct H as [H Hx].
  apply andb_true_iff in H. destruct H as [H60 H62].
  apply negb_true_iff in H60, H62.
  apply mem_not_in in H60, H62.
  apply existsb_exists in Hx. destruct Hx as [x [Ix Hx]].
  apply andb_true_iff in Hx. destruct Hx as [Hs Hm].
  apply negb_true_iff in Hs, Hm.
  apply (no_overlap _ _ 0%N).
  - exists 60%N. split; [now left | exact H60].
  - exists x. split; [exact Ix|]. intros I.
    destruct (in_open_tag _ _ _ I W); congruence.
  - left. now rewrite open_tag_last.
  - left. exact H60.
Qed.

Lemma keeps_field_sound (name v : text) (rt : crule) (w : text) :
  keeps_field name v rt = true ->
  field_done name v w -> field_done name v (sub rt w).
Proof.
  unfold keeps_field. destruct rt as [r tpl]. simpl. intros H.
  apply andb_true_iff in H. destruct H as [L H].
  destruct tpl as [|[o|n] [|i tpl]]; try discriminate.
  apply andb_true_iff in H. destruct H as [H K].
  apply andb_true_iff in H. destruct H as [T C].
  apply negb_true_iff in C.
  apply (sub_inv (field_done name v) (r, [TLit o]) L). cbn [fst snd].
  intros p m u gs _ M x y F. rewrite expand_const.
  apply match_at in M. destruct (no_repeat r) eqn:N.
  - apply fits_sound in M; [|exact N]. rewrite forallb_forall in K.
    specialize (K m M). apply orb_true_iff in K. destruct K as [K|K].
    + apply text_eqb_eq in K. now subst.
    + apply negb_true_iff in K.
      apply (field_done_replaced name v x m o y m []); auto.
      * now rewrite app_nil_r.
      * intros ws W. now apply tag_safe_sound.
  - destruct r as [| | | | |r1 r2|]; try discriminate.
    destruct r1 as [a| | | | | |]; try discriminate.
    destruct r2 as [| | | | |r21 r22|]; try discriminate.
    destruct r21; try discriminate.
    destruct r22 as [b| | | | | |]; try discriminate.
    apply negb_true_iff in K.
    destruct (matches_spaced _ _ _ _ _ _ M) as [ws [_ [_ ->]]].
    apply (field_done_replaced name v x (a ++ ws ++ b) o y a (ws ++ b));
      auto.
    intros ws' W. now apply tag_safe_sound.
Qed.

Lemma run_keeps_field (name v : text) (l : list crule) (w : text) :
  forallb (keeps_field name v) l = true ->
  field_done name v w -> field_done name v (run l w).
Proof.
  intros H. apply (run_inv (field_done name v)).
  apply Forall_forall. intros rt I w' C.
  apply keeps_field_sound; [|exact C].
  rewrite forallb_forall in H. now apply H.
Qed.

Lemma open_tag_in (x : char) (ws name : text) :
  In x (tag_chars name) -> In x (open_tag ws name).
Proof.
  unfold open_tag, tag_chars.
  set (B := str "name=" ++ dq ++ name ++ dq ++ str ">").
  rewrite !in_app_iff. tauto.
Qed.

Lemma open_tag_front (ws name : text) :
  removelast (open_tag ws name) =
    str "<string" ++ ws ++ str "name=" ++ dq ++ name ++ dq.
Proof.
  unfold open_tag.
  replace (str "<string" ++ ws ++ str "name=" ++ dq ++ name ++ dq ++ str ">")
    with ((str "<string" ++ ws ++ str "name=" ++ dq ++ name ++ dq) ++ [62%N])
    by now rewrite <- !app_assoc.
  apply removelast_last.
Qed.

Lemma open_tag_front_plain (ws name : text) :
  forallb is_space ws = true -> ~ In 62%N name ->
  ~ In 62%N (removelast (open_tag ws name)).
Proof.
  intros W N I. rewrite open_tag_front, !in_app_iff in I.
  rewrite forallb_forall in W.
  destruct I as [I | [I | [I | [I | [I | I]]]]];
    try (simpl in I; intuition discriminate).
  specialize (W _ I). discriminate.
Qed.

(** The rule of another field keeps the fields with their value. *)
Lemma other_field_kept (na va nb vb : text) (items : list titem) (w : text) :
  template_value items = Some vb ->
  fields_apart na va nb vb = true ->
  field_done na va w ->
  field_done na va (sub (string_field nb, TGroup 1 :: items) w).
Proof.
  intros V H. unfold fields_apart in H.
  apply andb_true_iff in H. destruct H as [H Oc].
  apply andb_true_iff in H. destruct H as [H X2].
  apply andb_true_iff in H. destruct H as [H X1].
  apply andb_true_iff in H. destruct H as [H60 H62].
  apply negb_true_iff in H60, H62, Oc. apply mem_not_in in H60, H62.
  apply (sub_inv (field_done na va)
           (string_field nb, TGroup 1 :: items) eq_refl). cbn [fst snd].
  intros p m u gs _ M x y F. apply match_at in M.
  destruct (matches_field _ _ _ _ _ M) as [wsb [mc [Nb [Wb [-> ->]]]]].
  rewrite (expand_value _ _ _ _ _ V).
  apply (field_done_replaced na va x
           (open_tag wsb nb ++ mc ++ close_tag)
           (open_tag wsb nb ++ vb ++ close_tag) y (str "<string")
           (wsb ++ (str "name=" ++ dq ++ nb ++ dq ++ str ">") ++
            mc ++ close_tag)).
  - unfold open_tag. now rewrite <- !app_assoc.
  - exact Oc.
  - right. rewrite app_assoc.
    rewrite <- (app_nil_r close_tag) at 2. apply contains_app.
  - intros ws W. apply (no_overlap _ _ 0%N).
    + apply existsb_exists in X1. destruct X1 as [c [Ic Hc]].
      apply andb_true_iff in Hc. destruct Hc as [Hs Hm].
      apply negb_true_iff in Hs, Hm.
      exists c. split; [now apply open_tag_in|]. intros I.
      apply mem_not_in in Hm. apply Hm.
      rewrite in_app_iff in I |- *. destruct I as [I|I]; [|now right].
      left. destruct (in_open_tag _ _ _ I Wb) as [S|S]; [congruence|].
      now apply mem_in.
    + apply existsb_exists in X2. destruct X2 as [c [Ic Hc]].
      apply andb_true_iff in Hc. destruct Hc as [Hs Hm].
      apply negb_true_iff in Hs, Hm.
      exists c. split.
      * rewrite in_app_iff in Ic |- *. destruct Ic as [I|I]; [|now right].
        left. now apply open_tag_in.
      * intros I. destruct (in_open_tag _ _ _ I W); congruence.
    + right. rewrite !open_tag_cons. simpl.
      now apply tag_rest_plain.
    + right.
      replace (open_tag wsb nb ++ vb ++ close_tag)
        with ((open_tag wsb nb ++ vb ++ str "</string") ++ [62%N])
        by now rewrite <- !app_assoc.
      rewrite last_last. now apply open_tag_front_plain.
  - exact F.
Qed.

(** ** The second pass under the default configuration *)

Lemma log_tag_rule_built (cfg : PatchConfig) :
  In log_tag_rule (build_rules cfg).
Proof.
  unfold build_rules. rewrite !in_app_iff.
  right. right. right. simpl. auto.
Qed.

(** After the rules, each field of rule 2 has its value. *)
Lemma description_field_done (t : text) :
  field_done (str "accessibility_service_description") (str "Made by Todd")
             (run default_rules t).
Proof.
  rewrite <- (firstn_skipn 2 default_rules), run_app.
  change (skipn 2 default_rules)
    with ((string_field (str "accessibility_service_description"),
           TGroup 1 :: List.map (fun c => TLit [c]) (str "Made by Todd")
                       ++ [TGroup 2])
          :: (string_field (str "app_name"),
              TGroup 1 :: List.map (fun c => TLit [c]) (str "ToddDesk")
                          ++ [TGroup 2])
          :: skipn 4 default_rules).
  rewrite !run_cons. apply run_keeps_field; [vm_compute; reflexivity|].
  apply (other_field_kept _ _ (str "app_name") (str "ToddDesk"));
    [reflexivity | vm_compute; reflexivity|].
  apply field_rule_done; [reflexivity | |];
    simpl; intuition discriminate.
Qed.

Lemma app_name_field_done (t : text) :
  field_done (str "app_name") (str "ToddDesk") (run default_rules t).
Proof.
  rewrite <- (firstn_skipn 3 default_rules), run_app.
  change (skipn 3 default_rules)
    with ((string_field (str "app_name"),
           TGroup 1 :: List.map (fun c => TLit [c]) (str "ToddDesk")
                       ++ [TGroup 2])
          :: skipn 4 default_rules).
  rewrite run_cons. apply run_keeps_field; [vm_compute; reflexivity|].
  apply field_rule_done; [reflexivity | |];
    simpl; intuition discriminate.
Qed.

(** The rules that may have something left to change. *)
Lemma unsettled_rules (k : nat) :
  k < 17 ->
  settled (List.map snd cleared_literals)
          (nth k default_rules (RLit [], [])) = false ->
  k = 2 \/ k = 3 \/ k = 5 \/ k = 10.
Proof.
  intros Hk S.
  do 17 (destruct k as [|k];
         [first [solve [auto 6] | vm_compute in S; discriminate S]|]).
  lia.
Qed.

(** Under the default configuration, a text that the rules have rewritten
    once is left as it is by a second application of the rules, if the
    log-tag rule leaves it as it is: every other rule has nothing left to
    change. *)
Lemma rewritten_text_settled (t u : text) :
  apply_rules (build_rules default_config) t = Some u ->
  log_tag_free u ->
  apply_rules (build_rules default_config) u = Some u.
Proof.
  intros H H6. unfold log_tag_free in H6.
  assert (E : run default_rules t = u).
  { pose proof (apply_rules_run _ _ t default_rules_compiled) as R.
    congruence. }
  rewrite (apply_rules_run _ _ _ default_rules_compiled). f_equal.
  pose proof (cleared_literals_absent t) as A.
  pose proof (old_service_word_free t) as W.
  pose proof (description_field_done t) as Fa.
  pose proof (app_name_field_done t) as Fb.
  rewrite E in A, W, Fa, Fb. clear H E.
  apply run_fixed. apply Forall_nth_all with (d := (RLit [], [])).
  intros k Hk. change (length default_rules) with 17 in Hk.
  destruct (settled (List.map snd cleared_literals)
              (nth k default_rules (RLit [], []))) eqn:S;
    [now apply settled_sound with (Ps := List.map snd cleared_literals)|].
  destruct (unsettled_rules k Hk S) as [-> | [-> | [-> | ->]]].
  - apply (field_done_idle (str "accessibility_service_description")
             (str "Made by Todd")); [reflexivity | reflexivity | exact Fa].
  - apply (field_done_idle (str "app_name") (str "ToddDesk"));
      [reflexivity | reflexivity | exact Fb].
  - apply (word_free_idle (str "InputService"));
      [discriminate | reflexivity | exact W].
  - apply (re_sub_sub (fst log_tag_rule) (snd log_tag_rule));
      [reflexivity | exact H6].
Qed.

(** ** Characters that a substitution keeps *)

Lemma forallb_firstn (P : char -> bool) (n : nat) (t : text) :
  forallb P t = true -> forallb P (firstn n t) = true.
Proof.
  rewrite !forallb_forall. intros H x I. apply H.
  rewrite <- (firstn_skipn n t). apply in_or_app. now left.
Qed.

(** The groups of a match are parts of the text matched. *)
Lemma matches_groups_keep (P : char -> bool) (r : regex) (p : option char)
    (m rest : text) (gs : list text) :
  matches r p m rest gs -> forallb P m = true ->
  Forall (fun g => forallb P g = true) gs.
Proof.
  induction 1; intros Pm; try constructor; auto.
  - apply Forall_app. split; [auto | now constructor].
  - rewrite forallb_app in Pm. apply andb_true_iff in Pm.
    destruct Pm as [P1 P2]. apply Forall_app. split; auto.
Qed.

Lemma match_here_keep (P : char -> bool) (r : regex) (adv : bool)
    (prev : option char) (t : text) (gs : list text) (n : nat) :
  match_here r adv prev t = Some (gs, n) -> forallb P t = true ->
  Forall (fun g => forallb P g = true) gs.
Proof.
  intros M H. apply match_here_matches in M.
  destruct M as [m [rest [-> [_ M]]]].
  rewrite forallb_app in H. apply andb_true_iff in H.
  exact (matches_groups_keep P _ _ _ _ _ M (proj1 H)).
Qed.

Lemma expand_keep (P : char -> bool) (tpl : list titem) (whole : text)
    (gs : list text) :
  template_chars P tpl = true -> forallb P whole = true ->
  Forall (fun g => forallb P g = true) gs ->
  forallb P (expand tpl whole gs) = true.
Proof.
  intros T W G. unfold expand. induction tpl as [|i tpl IH];
    [reflexivity|].
  cbn [template_chars forallb] in T. apply andb_true_iff in T.
  destruct T as [Ti T]. cbn [flat_map]. rewrite forallb_app.
  rewrite (IH T), andb_true_r. destruct i as [l|[|n]]; simpl;
    [exact Ti | exact W|].
  destruct (nth_in_or_default n gs []) as [I | ->]; [|reflexivity].
  rewrite Forall_forall in G. now apply G.
Qed.

(** A substitution whose template holds characters of [P] only gives a
    text of such characters from a text of such characters. *)
Lemma scan_keep (P : char -> bool) (r : regex) (tpl : list titem) :
  template_chars P tpl = true ->
  forall (t : text) (skip : nat) (prev : option char),
    forallb P t = true -> forallb P (scan r tpl skip prev t) = true.
Proof.
  intros T. induction t as [|c t IH]; intros skip prev H.
  - destruct skip; [|reflexivity]. cbn [scan].
    destruct (match_here r false prev []) as [[gs n]|] eqn:M;
      [|reflexivity].
    apply expand_keep; [exact T | reflexivity|].
    exact (match_here_keep P _ _ _ _ _ _ M H).
  - pose proof H as H'. cbn [forallb] in H'. apply andb_true_iff in H'.
    destruct H' as [Pc Pt].
    assert (Step : forall adv gs n,
              match_here r adv prev (c :: t) = Some (gs, S n) ->
              forallb P (expand tpl (firstn (S n) (c :: t)) gs ++
                         scan r tpl n (Some c) t) = true).
    { intros adv gs n M. rewrite forallb_app, (IH _ _ Pt), andb_true_r.
      apply expand_keep;
        [exact T | now apply forallb_firstn
        | exact (match_here_keep P _ _ _ _ _ _ M H)]. }
    assert (Copy : forallb P (c :: scan r tpl 0 (Some c) t) = true)
      by (cbn [forallb]; now rewrite Pc, (IH _ _ Pt)).
    destruct skip as [|k]; [|now apply IH]. cbn [scan].
    destruct (match_here r false prev (c :: t)) as [[gs [|n]]|] eqn:M.
    + rewrite forallb_app. apply andb_true_iff. split.
      * apply expand_keep; [exact T | reflexivity|].
        exact (match_here_keep P _ _ _ _ _ _ M H).
      * destruct (match_here r true prev (c :: t)) as [[gs' [|n']]|] eqn:M';
          [exact Copy | exact (Step _ _ _ M') | exact Copy].
    + exact (Step _ _ _ M).
    + exact Copy.
Qed.

Lemma run_keep (P : char -> bool) (l : list crule) (w : text) :
  forallb (fun rt => template_chars P (snd rt)) l = true ->
  forallb P w = true -> forallb P (run l w) = true.
Proof.
  revert w. induction l as [|rt l IH]; intros w H Pw; [exact Pw|].
  cbn [forallb] in H. apply andb_true_iff in H. destruct H as [H1 H2].
  change (run (rt :: l) w) with (run l (sub rt w)). apply IH; [exact H2|].
  unfold sub. now apply scan_keep.
Qed.

(** ** Texts that are stored as they are *)

Lemma storable_stored (t : text) :
  storable t = true ->
  exists b, encode t = Some b /\ universal_newlines t = t.
Proof.
  unfold storable. intros H.
  assert (S : forallb is_scalar t = true /\
              forallb (fun c => negb (N.eqb c cr)) t = true).
  { rewrite !forallb_forall. rewrite forallb_forall in H.
    split; intros x I; specialize (H x I); unfold storable_char in H;
      apply andb_true_iff in H; tauto. }
  destruct S as [S C]. destruct (encodes t S) as [b E].
  exists b. split; [exact E | now apply newlines_plain].
Qed.

Lemma read_text_storable (s : fs) (p : path) (c : text) :
  read_text s p = Ok c -> storable c = true.
Proof.
  intros R. pose proof (read_text_scalar _ _ _ R) as S.
  pose proof (read_text_no_cr _ _ _ R) as C.
  unfold storable. rewrite forallb_forall in *. intros x I.
  unfold storable_char. now rewrite (S x I), (C x I).
Qed.

Lemma compiled_keep_storable (rules : list rule) (l : list crule) :
  compile_rules rules = Some l ->
  forallb (fun rt => template_chars storable_char (snd rt)) l = true ->
  keep_storable rules.
Proof.
  intros C T t u S A. rewrite (apply_rules_run _ _ t C) in A.
  injection A as <-. now apply run_keep.
Qed.

Lemma default_rules_keep_storable :
  keep_storable (build_rules default_config).
Proof.
  apply (compiled_keep_storable _ default_rules default_rules_compiled).
  reflexivity.
Qed.

(** ** The second pass of the rewriter *)

(** What one file holds after [replace_in_file] is what the rules give for
    what it held, read back. *)
Lemma replace_in_file_result (s s' : fs) (f : path) (rules : list rule)
    (b : bool) :
  replace_in_file s f rules = (s', Ok b) ->
  exists src dst,
    read_text s f = Ok src /\ apply_rules rules src = Some dst /\
    read_text s' f = Ok (universal_newlines dst) /\
    (s' = s \/ exists c, s' = set_entry f (File c) s).
Proof.
  unfold replace_in_file. destruct (read_text s f) as [src|] eqn:R;
    [|discriminate].
  destruct (apply_rules rules src) as [dst|] eqn:A; [|discriminate].
  pose proof (read_text_is_file _ _ _ R) as F.
  destruct (text_eqb dst src) eqn:E; cbn [negb].
  - intros [= <- _]. apply text_eqb_eq in E. subst dst.
    exists src, src. rewrite (newlines_plain src (read_text_no_cr _ _ _ R)).
    auto.
  - rewrite (write_text_existing _ _ _ F).
    destruct (encode dst) as [c|] eqn:Ec; [|discriminate].
    intros [= <- _]. exists src, dst. repeat split; auto.
    + exact (read_written _ _ _ _ (is_file_nonempty _ _ F) Ec).
    + right. now exists c.
Qed.

Lemma replace_in_file_files (s s' : fs) (f root : path) (rules : list rule)
    (r : result bool) :
  replace_in_file s f rules = (s', r) ->
  iter_text_files s' root = iter_text_files s root.
Proof.
  intros H. destruct (replace_in_file_cases s f rules) as [E|[F [c E]]];
    rewrite H in E; cbn [fst] in E; subst s'; [reflexivity|].
  now apply iter_text_files_set_file.
Qed.

Lemma replace_in_file_other (s s' : fs) (f g : path) (rules : list rule)
    (r : result bool) :
  replace_in_file s f rules = (s', r) -> f <> g ->
  read_text s' g = read_text s g.
Proof.
  intros H N. unfold read_text.
  now rewrite (replace_in_file_frame _ _ _ _ _ _ H N).
Qed.

(** After a pass that did not raise, each file of the list holds a text
    that the rules gave, and the files listed are the same. *)
Lemma rewrite_files_image (repo : path) (rules : list rule)
    (files : list path) :
  forall (st st' : rewrite_state) (done : list path),
    rewrite_files repo rules files st = (st', true) ->
    (forall f, In f done ->
       exists t u, storable t = true /\
                   read_text (rw_fs st) f = Ok (universal_newlines u) /\
                   apply_rules rules t = Some u) ->
    forall f, In f (done ++ files) ->
      exists t u, storable t = true /\
                  read_text (rw_fs st') f = Ok (universal_newlines u) /\
                  apply_rules rules t = Some u.
Proof.
  induction files as [|g files IH]; intros st st' done H D f I.
  - simpl in H. injection H as <-. rewrite app_nil_r in I. now apply D.
  - simpl in H.
    destruct (replace_in_file (rw_fs st) g rules) as [s1 [b|]] eqn:E;
      [|discriminate].
    replace (done ++ g :: files) with ((done ++ [g]) ++ files) in I
      by now rewrite <- app_assoc.
    apply (IH _ _ (done ++ [g]) H); [|exact I].
    clear I f. intros f I. simpl.
    destruct (replace_in_file_result _ _ _ _ _ E)
      as [src [dst [R [A [R' _]]]]].
    destruct (list_eq_dec (list_eq_dec N.eq_dec) g f) as [<-|N].
    + exists src, dst. split; [exact (read_text_storable _ _ _ R)|].
      now split.
    + rewrite (replace_in_file_other _ _ _ _ _ _ E N).
      apply in_app_or in I. destruct I as [I | [I | []]];
        [now apply D | congruence].
Qed.

Lemma rewrite_files_listing (repo root : path) (rules : list rule)
    (files : list path) :
  forall (st st' : rewrite_state) (ok : bool),
    rewrite_files repo rules files st = (st', ok) ->
    iter_text_files (rw_fs st') root = iter_text_files (rw_fs st) root.
Proof.
  induction files as [|g files IH]; intros st st' ok H; simpl in H.
  - now injection H as <- _.
  - destruct (replace_in_file (rw_fs st) g rules) as [s1 [b|]] eqn:E.
    + rewrite (IH _ _ _ H). simpl.
      exact (replace_in_file_files _ _ _ root _ _ E).
    + injection H as <- _. simpl.
      exact (replace_in_file_files _ _ _ root _ _ E).
Qed.

(** A pass over files that the rules leave as they are writes nothing. *)
Lemma rewrite_files_idle (repo : path) (rules : list rule)
    (files : list path) :
  forall st : rewrite_state,
    (forall f, In f files ->
       exists u, read_text (rw_fs st) f = Ok u /\
                 apply_rules rules u = Some u) ->
    rewrite_files repo rules files st =
      ({| rw_fs := rw_fs st; rw_changed := rw_changed st;
          rw_scanned := length files + rw_scanned st |}, true).
Proof.
  induction files as [|g files IH]; intros st H; simpl.
  - now destruct st.
  - destruct (H g (or_introl eq_refl)) as [u [R A]].
    unfold replace_in_file. rewrite R, A, text_eqb_refl. simpl.
    rewrite IH; simpl.
    + do 2 f_equal. lia.
    + intros f I. apply H. now right.
Qed.

(** With rules whose templates are well formed, a pass over files does
    not raise. *)
Lemma rewrite_files_completes (repo : path) (rules : list rule)
    (l : list crule) (files : list path) :
  compile_rules rules = Some l -> keep_storable rules ->
  forall st : rewrite_state,
    (forall f, In f files -> is_file (rw_fs st) f = true) ->
    snd (rewrite_files repo rules files st) = true.
Proof.
  intros C K. induction files as [|g files IH]; intros st F; simpl.
  - reflexivity.
  - destruct (read_text_file _ _ (F g (or_introl eq_refl))) as [src R].
    unfold replace_in_file. rewrite R, (apply_rules_run _ _ src C).
    pose proof (read_text_is_file _ _ _ R) as Fg.
    destruct (negb (text_eqb (run l src) src)).
    + rewrite (write_text_existing _ _ _ Fg).
      destruct (storable_stored (run l src)) as [b [-> _]].
      { apply (K src); [exact (read_text_storable _ _ _ R)|].
        exact (apply_rules_run _ _ src C). }
      apply IH. simpl. intros f I. rewrite is_file_set_file.
      * apply F. now right.
      * exact Fg.
    + apply IH. simpl. intros f I. apply F. now right.
Qed.

(** C4 (amended).  Under the default configuration, a text that the
    rules have rewritten once, and in which the log-tag rule finds nothing
    to change, is left as it is by a second application of the rules; and
    when no file that the first pass of the rewriter leaves in the tree
    holds a log tag for the rule to change, a second pass over the patched
    tree does not raise, writes no file and reports no changed file. *)
Theorem second_pass_changes_nothing (repo : path) (s : fs) :
  (forall t u,
     apply_rules (build_rules default_config) t = Some u ->
     log_tag_free u ->
     apply_rules (build_rules default_config) u = Some u) /\
  (let once := rewriter_pass repo default_config s in
   let twice := rewriter_pass repo default_config (rw_fs (fst once)) in
   (forall f u,
      In f (iter_text_files (rw_fs (fst once)) (android_root repo)) ->
      read_text (rw_fs (fst once)) f = Ok u -> log_tag_free u) ->
   snd twice = true /\ rw_changed (fst twice) = [] /\
   rw_fs (fst twice) = rw_fs (fst once)).
Proof.
  split; [exact rewritten_text_settled|].
  intros once twice Free. unfold twice, rewriter_pass.
  unfold once, rewriter_pass in Free |- *.
  pose proof (rewrite_files_completes repo _ _
                (iter_text_files s (android_root repo))
                default_rules_compiled default_rules_keep_storable
                {| rw_fs := s; rw_changed := []; rw_scanned := 0 |}) as Ok1.
  destruct (rewrite_files repo (build_rules default_config)
              (iter_text_files s (android_root repo))
              {| rw_fs := s; rw_changed := []; rw_scanned := 0 |})
    as [st1 ok1] eqn:E.
  simpl in Ok1, Free |- *.
  rewrite Ok1 in E
    by (intros f I; now apply iter_text_files_spec in I).
  pose proof (rewrite_files_listing repo (android_root repo) _ _ _ _ _ E)
    as L.
  simpl in L. rewrite L in Free |- *.
  rewrite rewrite_files_idle; [simpl; auto|].
  simpl. intros f I.
  destruct (rewrite_files_image repo _ _ _ _ [] E) with (f := f)
    as [t [u [S [R A]]]]; [intros g [] | exact I|].
  destruct (storable_stored u (default_rules_keep_storable _ _ S A))
    as [c [_ Q]].
  rewrite Q in R. exists u. split; [exact R|].
  apply (rewritten_text_settled t u A). now apply (Free f).
Qed.

(** ** When the rules raise *)

Lemma apply_rules_none (rules : list rule) (t : text) :
  apply_rules rules t = None <-> templates_ok rules = false.
Proof.
  revert t. induction rules as [|[r repl] rules IH]; intros t; simpl.
  - split; discriminate.
  - unfold re_sub. destruct (compile_template r repl) as [tpl|]; simpl.
    + apply IH.
    + tauto.
Qed.

Lemma mapping_values (cfg : PatchConfig) (kv : text * text) :
  In kv (mapping cfg) ->
  snd kv = new_package cfg \/ snd kv = new_app_name cfg.
Proof.
  unfold mapping. simpl. destruct (text_eqb _ _); simpl.
  - intros [<- | []]. now right.
  - intros [<- | [<- | []]]; [now left | now right].
Qed.

Lemma plain_value_no_backslash (v : text) :
  plain_value v = true -> existsb (N.eqb backslash) v = false.
Proof.
  unfold plain_value. intros H. apply andb_true_iff in H.
  destruct H as [H _]. now apply negb_true_iff in H.
Qed.

Lemma template_ok_plain (r : regex) (repl : text) :
  existsb (N.eqb backslash) repl = false ->
  match compile_template r repl with Some _ => true | None => false end
  = true.
Proof. intros H. now rewrite compile_plain. Qed.

Lemma template_ok_field (name v : text) :
  plain_value v = true ->
  match compile_template (string_field name) (keep_tags v) with
  | Some _ => true
  | None => false
  end = true.
Proof.
  intros P. unfold compile_template.
  change (existsb (N.eqb backslash) (keep_tags v)) with true.
  change (ngroups (string_field name)) with 2.
  now rewrite (parse_plain v P).
Qed.

(** X2. With a configuration whose new strings hold no backslash, and whose
    application name and accessibility description do not start with a
    digit, every replacement is a well-formed template: the rules raise on
    no text. *)
Theorem plain_config_never_raises (cfg : PatchConfig) (t : text) :
  plain_config cfg = true ->
  templates_ok (build_rules cfg) = true /\
  apply_rules (build_rules cfg) t <> None.
Proof.
  intros H. unfold plain_config, no_backslash in H.
  repeat (apply andb_true_iff in H; destruct H as [H ?]).
  rename H into Hpkg, H0 into Hdesc, H1 into Hscheme, H2 into Hsvc,
         H3 into Happ.
  apply negb_true_iff in Hpkg, Hscheme, Hsvc.
  pose proof (plain_value_no_backslash _ Happ) as Happ'.
  assert (T : templates_ok (build_rules cfg) = true).
  { change (@existsb N) with (@existsb char) in Hpkg, Hsvc, Hscheme, Happ'.
    unfold templates_ok, build_rules. rewrite forallb_app.
    apply andb_true_iff. split.
    - apply forallb_forall. intros rl I. apply in_map_iff in I.
      destruct I as [kv [<- I]]. simpl. apply template_ok_plain.
      destruct (mapping_values _ _ I) as [-> | ->]; assumption.
    - repeat (apply andb_true_iff; split);
        try reflexivity;
        try (apply template_ok_field; assumption);
        apply template_ok_plain; cbn [fst snd literal_rule];
        rewrite ?existsb_app, ?Hsvc, ?Hscheme, ?Happ', ?Hpkg;
        first [assumption | reflexivity]. }
  split; [exact T|]. intros E.
  apply apply_rules_none in E. congruence.
Qed.

(** ** What no configuration leaves behind *)

Lemma const_rule_keeps (P : text) (r : regex) (o w : text) :
  has_literal r = true -> overlap P o = false ->
  contains P w = false -> contains P (sub (r, [TLit o]) w) = false.
Proof.
  intros L O. apply (sub_inv (fun w => contains P w = false) (r, [TLit o]) L).
  cbn [fst snd]. intros p m u gs _ _ x y C. rewrite expand_const.
  now apply contains_replaced with (m := m).
Qed.

Lemma apply_rules_app (a b : list rule) (t : text) :
  apply_rules (a ++ b) t =
    match apply_rules a t with
    | Some u => apply_rules b u
    | None => None
    end.
Proof.
  revert t. induction a as [|[r repl] a IH]; intros t; simpl; [reflexivity|].
  destruct (re_sub r repl t); [apply IH | reflexivity].
Qed.

(** The last three rules, whatever the configuration. *)
Lemma build_rules_tail (cfg : PatchConfig) :
  exists front,
    build_rules cfg =
    front ++
    [ (RSeq (RLit (str "System.loadLibrary(" ++ dq))
            (RSeq (RAlt (RLit (old_scheme cfg))
                     (RAlt (RLit (new_scheme cfg))
                        (RAlt (RLit (str "rustdesk"))
                              (RLit (str "todddesk")))))
                  (RLit (dq ++ str ")"))),
       load_library (str "rustdesk"));
      (RSeq (RLit (str "lib"))
            (RSeq (RLit (new_scheme cfg)) (RLit (str ".so"))),
       str "librustdesk.so");
      (RLit (str "libtodddesk.so"), str "librustdesk.so") ].
Proof.
  unfold build_rules. eexists. rewrite !app_assoc.
  match goal with
  | |- ?a ++ ?l = _ =>
      change l with (firstn 4 l ++ skipn 4 l)
  end.
  rewrite app_assoc. reflexivity.
Qed.

Lemma rewritten_without_native_renames (cfg : PatchConfig) (t u : text) :
  apply_rules (build_rules cfg) t = Some u ->
  contains (str "libtodddesk.so") u = false /\
  contains (load_library (str "todddesk")) u = false.
Proof.
  destruct (build_rules_tail cfg) as [front ->]. rewrite apply_rules_app.
  destruct (apply_rules front t) as [w|]; [|discriminate].
  cbn [apply_rules]. unfold re_sub.
  rewrite !compile_plain by reflexivity.
  intros [= <-]. split.
  - apply (clears_sound (str "libtodddesk.so")
             (RLit (str "libtodddesk.so"), [TLit (str "librustdesk.so")])).
    reflexivity.
  - apply (const_rule_keeps _ (RLit (str "libtodddesk.so")));
      [reflexivity | reflexivity |].
    apply (const_rule_keeps _
             (RSeq (RLit (str "lib"))
                (RSeq (RLit (new_scheme cfg)) (RLit (str ".so")))));
      [reflexivity | reflexivity |].
    match goal with
    | |- contains ?P (scan ?r ?tpl 0 None w) = false =>
        apply (est_lit P r (load_library (str "rustdesk")))
          with (p := None) (u := w) (x := [])
    end.
    + discriminate.
    + reflexivity.
    + intros p c v. apply match_here_fits; [reflexivity|].
      simpl. right. right. right. left. reflexivity.
    + now apply scan_rewrites.
    + intros a b E N. destruct a; destruct b; try discriminate. congruence.
Qed.

(** A scan of files none of which holds the needle finds nothing. *)
Lemma scan_any_none (s : fs) (root : path) (needle : text) :
  (forall f, In f (iter_text_files s root) ->
     exists c, read_text s f = Ok c /\ contains needle c = false) ->
  scan_any s root needle = Ok [].
Proof.
  unfold scan_any. induction (iter_text_files s root) as [|g l IH];
    intros H; [reflexivity|].
  simpl. destruct (H g (or_introl eq_refl)) as [c [R C]].
  rewrite R, IH, C; [reflexivity|].
  intros f I. apply H. now right.
Qed.

(** After a pass that did not raise, the scan for a text that the rules
    leave in no text finds nothing. *)
Lemma pass_then_scan (repo : path) (rules : list rule) (needle : text)
    (s : fs) (st : rewrite_state) :
  forallb (fun c => negb (N.eqb c lf)) needle = true ->
  (forall t u, apply_rules rules t = Some u -> contains needle u = false) ->
  rewrite_files repo rules (iter_text_files s (android_root repo))
    {| rw_fs := s; rw_changed := []; rw_scanned := 0 |} = (st, true) ->
  scan_any (rw_fs st) (android_root repo) needle = Ok [].
Proof.
  intros L C E. apply scan_any_none.
  rewrite (rewrite_files_listing repo (android_root repo) _ _ _ _ _ E).
  simpl. intros f I.
  destruct (rewrite_files_image repo _ _ _ _ [] E) with (f := f)
    as [t [u [_ [R A]]]]; [intros g [] | exact I|].
  exists (universal_newlines u). split; [exact R|].
  apply contains_newlines; [exact L | exact (C t u A)].
Qed.

(** X3. Whatever the configuration, a text that the rules have rewritten
    holds neither [libtodddesk.so] nor the call that loads [todddesk]; so
    right after a pass of the rewriter that did not raise, the two scans of
    the validator for these fixed names find no file. *)
Theorem renamed_native_names_never_survive (cfg : PatchConfig) :
  (forall t u,
     apply_rules (build_rules cfg) t = Some u ->
     contains (str "libtodddesk.so") u = false /\
     contains (load_library (str "todddesk")) u = false) /\
  (forall repo s,
     let once := rewriter_pass repo cfg s in
     snd once = true ->
     scan_any (rw_fs (fst once)) (android_root repo) (str "libtodddesk.so")
       = Ok [] /\
     scan_any (rw_fs (fst once)) (android_root repo)
              (load_library (str "todddesk")) = Ok []).
Proof.
  split; [apply rewritten_without_native_renames|].
  intros repo s once Ok1. unfold once, rewriter_pass in *.
  destruct (rewrite_files repo (build_rules cfg)
              (iter_text_files s (android_root repo))
              {| rw_fs := s; rw_changed := []; rw_scanned := 0 |})
    as [st ok] eqn:E.
  simpl in Ok1 |- *. subst ok.
  split; apply (pass_then_scan repo (build_rules cfg) _ s st);
    try exact E; try reflexivity;
    intros t u A; now apply (rewritten_without_native_renames cfg t u).
Qed.

(** ** The residue checks under the default configuration *)

Lemma default_rewritten_clean (t u : text) :
  apply_rules (build_rules default_config) t = Some u ->
  contains (old_package default_config) u = false.
Proof.
  intros A.
  assert (E : run default_rules t = u).
  { pose proof (apply_rules_run _ _ t default_rules_compiled) as R.
    congruence. }
  pose proof (cleared_literals_absent t) as F.
  rewrite E in F. rewrite Forall_forall in F. apply F. simpl. auto.
Qed.

Lemma checks_outcome (repo : path) (cfg : PatchConfig) (s : fs)
    (o : outcome) :
  first_failure [check_gradle repo cfg s; check_manifest repo cfg s] = Some o ->
  o = Uncaught \/
  (exists p needle, o = SystemExit (NotContained p needle)) \/
  (exists p needle, o = SystemExit (StillContained p needle)).
Proof.
  unfold check_gradle, check_manifest, must_contain, must_not_contain.
  simpl.
  repeat match goal with
         | |- context [if ?b then _ else _] => destruct b
         | |- context [match read_text ?a ?b with _ => _ end] =>
             destruct (read_text a b)
         end; simpl; intros [= <-]; eauto.
Qed.

(** X4. Under the default configuration and without the directory move,
    a run never stops on one of the three residue checks: after the
    rewriter no scanned file holds the old package, the renamed native
    library or the renamed load call, so only the checks of the gradle
    file and of the manifest can fail. *)
Theorem default_run_passes_residue_checks (repo : path) (s : fs)
    (hits : list path) :
  let o := fst (main repo default_config false s) in
  o <> SystemExit (OldPackageLeft hits) /\
  o <> SystemExit (NativeSoAltered hits) /\
  o <> SystemExit (LoadLibraryAltered hits).
Proof.
  cbv zeta. destruct (exists_ s (android_root repo)) eqn:X.
  - pose proof (rewrite_files_completes repo _ _
                  (iter_text_files s (android_root repo))
                  default_rules_compiled default_rules_keep_storable
                  {| rw_fs := s; rw_changed := []; rw_scanned := 0 |}) as Ok1.
    destruct (rewrite_files repo (build_rules default_config)
                (iter_text_files s (android_root repo))
                {| rw_fs := s; rw_changed := []; rw_scanned := 0 |})
      as [st ok] eqn:E.
    simpl in Ok1. rewrite Ok1 in E
      by (intros f I; now apply iter_text_files_spec in I).
    clear Ok1 ok.
    assert (P : patch_tree repo default_config false s = (st, [], true)).
    { unfold patch_tree. now rewrite E. }
    rewrite (main_unfold _ _ _ _ _ _ _ X P). cbn [negb].
    assert (V : validate repo default_config (rw_fs st) =
                first_failure [check_gradle repo default_config (rw_fs st);
                               check_manifest repo default_config (rw_fs st)]).
    { unfold validate.
      rewrite (pass_then_scan repo _ (old_package default_config) s st
                 eq_refl default_rewritten_clean E).
      change (str "lib" ++ new_scheme default_config ++ str ".so")
        with (str "libtodddesk.so").
      change (load_library (new_scheme default_config))
        with (load_library (str "todddesk")).
      rewrite (pass_then_scan repo _ (str "libtodddesk.so") s st eq_refl)
        by (intros t u A;
            apply (rewritten_without_native_renames default_config t u A))
           || exact E.
      rewrite (pass_then_scan repo _ (load_library (str "todddesk")) s st
                 eq_refl)
        by (intros t u A;
            apply (rewritten_without_native_renames default_config t u A))
           || exact E.
      cbn [first_failure no_hits fold_right app].
      destruct (check_gradle _ _ _); [reflexivity|].
      destruct (check_manifest _ _ _); reflexivity. }
    rewrite V.
    destruct (first_failure _) as [o|] eqn:F.
    + destruct (checks_outcome _ _ _ _ F)
        as [-> | [[p [n ->]] | [p [n ->]]]];
        simpl; repeat split; discriminate.
    + destruct (write_report _ _ _ _ _) as [s' [|]]; simpl; repeat split;
        discriminate.
  - unfold main. rewrite X. simpl. repeat split; discriminate.
Qed.

(** ** Single rules *)

Lemma re_sub_plain (r : regex) (repl t : text) :
  existsb (N.eqb backslash) repl = false ->
  re_sub r repl t = Some (sub (r, [TLit repl]) t).
Proof. intros H. unfold re_sub, sub. now rewrite compile_plain. Qed.

(** X5. A rule that replaces a literal [old] by a text without backslash
    that cannot overlap an occurrence of [old] leaves no [old] in the
    text, and applied again it changes nothing. *)
Theorem literal_rule_clears (old new t : text) :
  old <> [] ->
  existsb (N.eqb backslash) new = false ->
  overlap old new = false ->
  exists out,
    re_sub (RLit old) new t = Some out /\
    contains old out = false /\
    re_sub (RLit old) new out = Some out.
Proof.
  intros N B O. exists (sub (RLit old, [TLit new]) t).
  assert (L : has_literal (RLit old) = true).
  { unfold has_literal. simpl. destruct old; [congruence | reflexivity]. }
  assert (C : contains old (sub (RLit old, [TLit new]) t) = false).
  { unfold sub. cbn [fst snd].
    apply (est_lit old (RLit old) new) with (p := None) (u := t) (x := []).
    - exact N.
    - exact O.
    - intros p c u. apply match_here_fits; [reflexivity | now left].
    - now apply scan_rewrites.
    - intros a b E Nb. destruct a; destruct b; try discriminate.
      congruence. }
  split; [now apply re_sub_plain|]. split; [exact C|].
  apply re_sub_absent with (l := old); [now left | exact C|].
  now rewrite compile_plain.
Qed.

Lemma word_no_backslash (w : text) :
  forallb is_word w = true -> existsb (N.eqb backslash) w = false.
Proof.
  induction w as [|c w IH]; [reflexivity|]. cbn [forallb existsb].
  intros H. apply andb_true_iff in H. destruct H as [Hc Hw].
  rewrite (IH Hw), orb_false_r. apply N.eqb_neq. intros <-.
  discriminate Hc.
Qed.

(** X6. The whole-word rule for a name, with a new name that is a word
    and cannot overlap the old one, leaves the old name nowhere as a whole
    word, and applied again it changes nothing. *)
Theorem word_rule_leaves_no_whole_word (old new t : text) :
  old <> [] -> forallb is_word old = true ->
  new <> [] -> forallb is_word new = true ->
  overlap old new = false ->
  exists out,
    re_sub (safe_word_replace old) new t = Some out /\
    word_free old out /\
    re_sub (safe_word_replace old) new out = Some out.
Proof.
  intros No Wo Nn Wn O.
  pose proof (word_no_backslash new Wn) as B.
  exists (sub (safe_word_replace old, [TLit new]) t).
  pose proof (word_rule_clears old new No Wo Nn Wn O t) as F.
  split; [now apply re_sub_plain|]. split; [exact F|].
  rewrite re_sub_plain by exact B. f_equal.
  now apply word_free_idle.
Qed.

Lemma template_value_chars (v : text) :
  template_value (List.map (fun c => TLit [c]) v ++ [TGroup 2]) = Some v.
Proof.
  induction v as [|c v IH]; [reflexivity|]. simpl.
  destruct (List.map _ v ++ [TGroup 2]) eqn:E.
  - destruct v; discriminate.
  - now rewrite IH.
Qed.

Lemma compile_field (name v : text) :
  plain_value v = true ->
  compile_template (string_field name) (keep_tags v) =
    Some (TGroup 1 :: List.map (fun c => TLit [c]) v ++ [TGroup 2]).
Proof.
  intros P. unfold compile_template.
  change (existsb (N.eqb backslash) (keep_tags v)) with true.
  change (ngroups (string_field name)) with 2.
  apply (parse_plain v P).
Qed.

Lemma no_lt_no_early_close (v : text) :
  ~ In 60%N v -> no_early_close v = true.
Proof.
  induction v as [|c v IH]; intros N; [reflexivity|].
  cbn [no_early_close]. rewrite IH by (intros I; apply N; now right).
  rewrite andb_true_r. apply negb_true_iff.
  unfold close_tag. simpl. destruct c as [|q]; [reflexivity|].
  destruct (Pos.eqb 60 q) eqn:E; [|reflexivity].
  apply Pos.eqb_eq in E. subst q. exfalso. apply N. now left.
Qed.

(** X7. The rule of a string field, for a field name and a value without
    [<], the value being one that the template parser reads as it is: in
    the text it gives, wherever the opening tag of the field stands, either
    no closing tag follows at all or the value and a closing tag follow at
    once; and applied again it changes nothing. *)
Theorem field_rule_sets_every_field (name v t : text) :
  plain_value v = true -> ~ In 60%N name -> ~ In 60%N v ->
  exists out,
    re_sub (string_field name) (keep_tags v) t = Some out /\
    field_done name v out /\
    re_sub (string_field name) (keep_tags v) out = Some out.
Proof.
  intros P Nn Nv.
  set (items := List.map (fun c => TLit [c]) v ++ [TGroup 2]).
  exists (sub (string_field name, TGroup 1 :: items) t).
  pose proof (field_rule_done name v items (template_value_chars v) Nn Nv t)
    as F.
  unfold re_sub. rewrite (compile_field name v P). fold items.
  split; [reflexivity|]. split; [exact F|]. f_equal.
  apply (field_done_idle name v items (template_value_chars v)
           (no_lt_no_early_close v Nv)).
  exact F.
Qed.

(** ** The pass of the rewriter *)

Lemma templates_ok_compile (rules : list rule) :
  templates_ok rules = true -> exists l, compile_rules rules = Some l.
Proof.
  induction rules as [|[r repl] rules IH]; simpl; [now exists []|].
  destruct (compile_template r repl) as [tpl|]; [|discriminate].
  simpl. intros H. destruct (IH H) as [l ->]. now eexists.
Qed.

Lemma rewrite_files_raise (repo : path) (rules : list rule) (g : path)
    (files : list path) (st : rewrite_state) :
  templates_ok rules = false -> is_file (rw_fs st) g = true ->
  rewrite_files repo rules (g :: files) st =
    ({| rw_fs := rw_fs st; rw_changed := rw_changed st;
        rw_scanned := S (rw_scanned st) |}, false).
Proof.
  intros T F. simpl. unfold replace_in_file.
  destruct (read_text_file _ _ F) as [src ->].
  apply (apply_rules_none rules src) in T. now rewrite T.
Qed.

(** With well-formed templates, a pass that raises has stopped at a file
    whose new text cannot be encoded, and has left that file empty. *)
Lemma rewrite_files_stopped (repo : path) (rules : list rule)
    (files : list path) :
  templates_ok rules = true ->
  forall st st' : rewrite_state,
    (forall f, In f files -> is_file (rw_fs st) f = true) ->
    rewrite_files repo rules files st = (st', false) ->
    exists f src dst,
      In f files /\ apply_rules rules src = Some dst /\ dst <> src /\
      encode dst = None /\ kind (rw_fs st') f = Some (File []).
Proof.
  intros T. induction files as [|g files IH]; intros st st' F H;
    [discriminate|].
  simpl in H. pose proof (F g (or_introl eq_refl)) as Fg.
  destruct (read_text_file _ _ Fg) as [src R].
  destruct (apply_rules rules src) as [dst|] eqn:A;
    [|apply apply_rules_none in A; congruence].
  assert (Next : forall st1,
            (forall f, In f files -> is_file (rw_fs st1) f = true) ->
            rewrite_files repo rules files st1 = (st', false) ->
            exists f src dst,
              In f (g :: files) /\ apply_rules rules src = Some dst /\
              dst <> src /\ encode dst = None /\
              kind (rw_fs st') f = Some (File [])).
  { intros st1 F1 H1. destruct (IH _ _ F1 H1) as [f [a [b [I Q]]]].
    exists f, a, b. split; [now right | exact Q]. }
  unfold replace_in_file in H. rewrite R, A in H.
  destruct (text_eqb dst src) eqn:E; cbn [negb] in H.
  - refine (Next _ _ H). intros f I. cbn [rw_fs]. apply F. now right.
  - rewrite (write_text_existing _ _ _ Fg) in H.
    destruct (encode dst) as [c|] eqn:Ec.
    + refine (Next _ _ H). intros f I. cbn [rw_fs].
      rewrite (is_file_set_file _ _ f c Fg). apply F. now right.
    + injection H as <-. exists g, src, dst.
      split; [now left|]. split; [exact A|].
      split; [now apply text_eqb_neq|]. split; [exact Ec|].
      exact (kind_set_same _ _ _ (is_file_nonempty _ _ Fg)).
Qed.

(** X9. With a replacement string that is a malformed template, none of
    the replacement strings holding a group reference by name (which
    interpreters before 3.12 read more liberally), and at least one text
    file below the android root, the pass of the rewriter raises at the
    first file before anything is written, and the run ends with an
    uncaught exception and the file system as it was found.  With
    well-formed templates a pass that raises has stopped at a file whose
    new text cannot be encoded, and has left that file empty. *)
Theorem malformed_template_stops_before_any_write (repo : path)
    (cfg : PatchConfig) (mv : bool) (s : fs) :
  (templates_ok (build_rules cfg) = false ->
   no_named_group (build_rules cfg) = true ->
   iter_text_files s (android_root repo) <> [] ->
   rewriter_pass repo cfg s =
     ({| rw_fs := s; rw_changed := []; rw_scanned := 1 |}, false) /\
   (exists_ s (android_root repo) = true ->
    main repo cfg mv s = (Uncaught, s))) /\
  (templates_ok (build_rules cfg) = true ->
   snd (rewriter_pass repo cfg s) = false ->
   exists f src dst,
     In f (iter_text_files s (android_root repo)) /\
     apply_rules (build_rules cfg) src = Some dst /\ dst <> src /\
     encode dst = None /\
     kind (rw_fs (fst (rewriter_pass repo cfg s))) f = Some (File [])).
Proof.
  assert (F : forall f, In f (iter_text_files s (android_root repo)) ->
                        is_file s f = true)
    by (intros f I; now apply iter_text_files_spec in I).
  split.
  - intros T _ N.
    assert (E : rewriter_pass repo cfg s =
                  ({| rw_fs := s; rw_changed := []; rw_scanned := 1 |},
                   false)).
    { unfold rewriter_pass.
      destruct (iter_text_files s (android_root repo)) as [|g l];
        [congruence|].
      apply rewrite_files_raise; [exact T|]. apply F. now left. }
    split; [exact E|]. intros X. unfold rewriter_pass in E.
    unfold main, patch_tree. rewrite X, E. reflexivity.
  - intros T H. unfold rewriter_pass in *.
    destruct (rewrite_files repo (build_rules cfg) _ _) as [st ok] eqn:E.
    cbn [snd fst] in *. subst ok.
    exact (rewrite_files_stopped _ _ _ T
             {| rw_fs := s; rw_changed := []; rw_scanned := 0 |} _ F E).
Qed.

(** A write that did not raise has put the encoding of the text in
    place. *)
Lemma write_text_done (s s' : fs) (p : path) (c : text) :
  write_text s p c = (s', true) ->
  exists b, encode c = Some b /\ kind s' p = Some (File b) /\
            read_text s' p = Ok (universal_newlines c).
Proof.
  unfold write_text. destruct (writable s p) eqn:W; [|discriminate].
  assert (N : p <> []) by (intros ->; discriminate).
  destruct (encode c) as [b|] eqn:E; [|discriminate].
  intros [= <-]. exists b. split; [reflexivity|].
  split; [exact (kind_set_same _ _ _ N) | exact (read_written _ _ _ _ N E)].
Qed.

Lemma rewrite_files_counts (repo : path) (rules : list rule)
    (files : list path) :
  forall (st st' : rewrite_state),
    rewrite_files repo rules files st = (st', true) ->
    rw_scanned st' = length files + rw_scanned st /\
    length (rw_changed st') <= length files + length (rw_changed st).
Proof.
  induction files as [|g files IH]; intros st st' H; simpl in H.
  - injection H as <-. simpl. lia.
  - destruct (replace_in_file (rw_fs st) g rules) as [s1 [b|]];
      [|discriminate].
    destruct (IH _ _ H) as [S C]. simpl in S, C. split; [simpl; lia|].
    destruct b; simpl in *; [rewrite length_app in C; simpl in C|]; lia.
Qed.

(** X10. A run that ends with status 0 has written the report: the report
    text for the changed files and the notes of the run could be encoded,
    the report file holds its encoding, and is read back as that text with
    its line ends read as line feeds; the number of scanned files it prints
    is the number of text files found below the android root, and the
    number of changed files is not greater. *)
Theorem successful_run_writes_report (repo : path) (cfg : PatchConfig)
    (mv : bool) (s s' : fs) (n k : nat) :
  main repo cfg mv s = (Exit0 n k, s') ->
  exists st notes b,
    patch_tree repo cfg mv s = (st, notes, true) /\
    validate repo cfg (rw_fs st) = None /\
    encode (report_text cfg (rw_changed st) notes) = Some b /\
    kind s' (report_path repo) = Some (File b) /\
    read_text s' (report_path repo) =
      Ok (universal_newlines (report_text cfg (rw_changed st) notes)) /\
    n = length (iter_text_files s (android_root repo)) /\
    k = length (rw_changed st) /\ k <= n.
Proof.
  intros M. destruct (exists_ s (android_root repo)) eqn:X;
    [|unfold main in M; rewrite X in M; discriminate].
  destruct (patch_tree repo cfg mv s) as [[st notes] ok] eqn:P.
  rewrite (main_unfold _ _ _ _ _ _ _ X P) in M.
  destruct ok; [|discriminate]. cbn [negb] in M.
  destruct (validate repo cfg (rw_fs st)) as [o|] eqn:V.
  - injection M as -> _.
    now pose proof (validate_status _ _ _ _ V).
  - destruct (write_report repo cfg (rw_changed st) notes (rw_fs st))
      as [s2 [|]] eqn:W; [|discriminate].
    injection M as <- <- <-.
    destruct (write_text_done _ _ _ _ W) as [b [Eb [Kb Rb]]].
    exists st, notes, b.
    split; [reflexivity|]. split; [exact V|]. split; [exact Eb|].
    split; [exact Kb|]. split; [exact Rb|].
    assert (C : rw_scanned st =
                  length (iter_text_files s (android_root repo)) /\
                length (rw_changed st) <= rw_scanned st);
      [|destruct C as [C1 C2]; split; [exact C1|];
        split; [reflexivity | exact C2]].
    unfold patch_tree in P.
    destruct (rewrite_files repo (build_rules cfg) _ _) as [st1 ok1] eqn:E.
    destruct ok1; [|discriminate]. cbn [negb] in P.
    destruct (rewrite_files_counts _ _ _ _ _ E) as [S C]. simpl in S, C.
    destruct mv.
    + destruct (move_kotlin_dir repo cfg (rw_fs st1) []) as [[s3 ns] ok2].
      injection P as <- _ _. simpl. lia.
    + injection P as <- _. lia.
Qed.

(** What [replace_in_file] has done when it did not raise. *)
Lemma replace_in_file_ok (s s' : fs) (f : path) (rules : list rule)
    (b : bool) :
  replace_in_file s f rules = (s', Ok b) ->
  exists src dst c,
    read_text s f = Ok src /\ apply_rules rules src = Some dst /\
    encode dst = Some c /\ b = rules_change rules s f /\
    (dst = src -> s' = s) /\
    (dst <> src -> s' = set_entry f (File c) s).
Proof.
  unfold replace_in_file, rules_change.
  destruct (read_text s f) as [src|] eqn:R; [|discriminate].
  destruct (apply_rules rules src) as [dst|] eqn:A; [|discriminate].
  pose proof (read_text_is_file _ _ _ R) as F.
  destruct (text_eqb dst src) eqn:E; cbn [negb].
  - intros [= <- <-]. apply text_eqb_eq in E. subst dst.
    destruct (encodes src (read_text_scalar _ _ _ R)) as [c Ec].
    exists src, src, c. repeat split; auto. congruence.
  - rewrite (write_text_existing _ _ _ F).
    destruct (encode dst) as [c|] eqn:Ec; [|discriminate].
    intros [= <- <-]. apply text_eqb_neq in E.
    exists src, dst, c. repeat split; auto. congruence.
Qed.

Lemma read_text_kind (s s' : fs) (p : path) :
  kind s' p = kind s p -> read_text s' p = read_text s p.
Proof. unfold read_text. now intros ->. Qed.

Lemma rewrite_files_result (repo : path) (rules : list rule)
    (files : list path) :
  NoDup files ->
  forall (st st' : rewrite_state),
    rewrite_files repo rules files st = (st', true) ->
    rw_changed st' =
      rw_changed st ++
      map (relative_to repo) (filter (rules_change rules (rw_fs st)) files) /\
    forall f, In f files ->
      exists t u c,
        read_text (rw_fs st) f = Ok t /\ apply_rules rules t = Some u /\
        encode u = Some c /\
        (u = t -> kind (rw_fs st') f = kind (rw_fs st) f) /\
        (u <> t -> kind (rw_fs st') f = Some (File c)) /\
        read_text (rw_fs st') f = Ok (universal_newlines u).
Proof.
  induction 1 as [|g files G N IH]; intros st st' H.
  - simpl in H. injection H as <-. simpl. rewrite app_nil_r.
    split; [reflexivity | intros f []].
  - pose proof (rewrite_files_frame repo rules files) as Fr.
    simpl in H.
    destruct (replace_in_file (rw_fs st) g rules) as [s1 [b|]] eqn:R;
      [|discriminate].
    destruct (replace_in_file_ok _ _ _ _ _ R)
      as [src [dst [c [R1 [R2 [Ec [B [Same Diff]]]]]]]].
    destruct (replace_in_file_result _ _ _ _ _ R)
      as [src' [dst' [R1' [R2' [R3 _]]]]].
    assert (src' = src) by congruence. subst src'.
    assert (dst' = dst) by congruence. subst dst'. clear R1' R2'.
    match type of H with rewrite_files _ _ _ ?x = _ =>
      specialize (Fr x g G) end.
    rewrite H in Fr. cbn [fst rw_fs] in Fr.
    destruct (IH _ _ H) as [C I]. cbn [rw_fs rw_changed] in C, I.
    assert (E : filter (rules_change rules s1) files =
                filter (rules_change rules (rw_fs st)) files).
    { apply filter_ext_in. intros f Hf. unfold rules_change.
      rewrite (replace_in_file_other _ _ _ f _ _ R); [reflexivity|].
      intros ->. contradiction. }
    split.
    + rewrite C, E. cbn [filter]. rewrite <- B.
      destruct b; [|reflexivity].
      cbn [map]. now rewrite <- app_assoc.
    + intros f [<-|Hf].
      * exists src, dst, c. split; [exact R1|]. split; [exact R2|].
        split; [exact Ec|]. split; [|split].
        -- intros Q. rewrite Fr. now rewrite (Same Q).
        -- intros Q. rewrite Fr, (Diff Q).
           apply kind_set_same.
           exact (is_file_nonempty _ _ (read_text_is_file _ _ _ R1)).
        -- now rewrite (read_text_kind _ _ _ Fr).
      * assert (Ne : g <> f) by (intros ->; contradiction).
        destruct (I f Hf) as [t [u [d [I1 [I2 [I3 [I4 [I5 I6]]]]]]]].
        exists t, u, d.
        rewrite (replace_in_file_other _ _ _ f _ _ R Ne) in I1.
        rewrite (replace_in_file_frame _ _ _ _ _ _ R Ne) in I4.
        repeat split; assumption.
Qed.

(** X11. When the walk lists no file twice and the pass of the rewriter
    completes, the changed files are, in the order of the walk, the
    relative paths of exactly the files whose text the rules change; for
    every text file below the android root the rules, applied once to the
    text read from it, give a text that can be encoded; the file keeps its
    bytes when that text is the text read and holds the encoding of that
    text otherwise, and in both cases it is read back as that text with its
    line ends read as line feeds. *)
Theorem rewriter_pass_result (repo : path) (cfg : PatchConfig) (s : fs)
    (st : rewrite_state) :
  NoDup (iter_text_files s (android_root repo)) ->
  rewriter_pass repo cfg s = (st, true) ->
  rw_changed st =
    map (relative_to repo)
      (filter (rules_change (build_rules cfg) s)
         (iter_text_files s (android_root repo))) /\
  forall f, In f (iter_text_files s (android_root repo)) ->
    exists t u c,
      read_text s f = Ok t /\
      apply_rules (build_rules cfg) t = Some u /\
      encode u = Some c /\
      (u = t -> kind (rw_fs st) f = kind s f) /\
      (u <> t -> kind (rw_fs st) f = Some (File c)) /\
      read_text (rw_fs st) f = Ok (universal_newlines u).
Proof.
  intros N H. unfold rewriter_pass in H.
  exact (rewrite_files_result _ _ _ N _ _ H).
Qed.

Lemma is_dir_set_file (s : fs) (f g : path) (c : bytes) :
  is_file s f = true -> is_dir (set_entry f (File c) s) g = is_dir s g.
Proof.
  intros F. unfold is_dir.
  destruct (list_eq_dec (list_eq_dec N.eq_dec) f g) as [<-|N].
  - rewrite (kind_set_same _ _ _ (is_file_nonempty _ _ F)).
    unfold is_file in F. now destruct (kind s f) as [[?|]|].
  - now rewrite kind_set_other.
Qed.

Lemma replace_in_file_shape (s s' : fs) (f q : path) (rules : list rule)
    (r : result bool) :
  replace_in_file s f rules = (s', r) ->
  is_file s' q = is_file s q /\ is_dir s' q = is_dir s q.
Proof.
  intros R. destruct (replace_in_file_cases s f rules) as [E|[F [c E]]];
    rewrite R in E; cbn [fst] in E; subst s'; [now split|].
  split; [now apply is_file_set_file | now apply is_dir_set_file].
Qed.

Lemma rewrite_files_shape (repo : path) (rules : list rule)
    (files : list path) (q : path) :
  forall st : rewrite_state,
    is_file (rw_fs (fst (rewrite_files repo rules files st))) q =
      is_file (rw_fs st) q /\
    is_dir (rw_fs (fst (rewrite_files repo rules files st))) q =
      is_dir (rw_fs st) q.
Proof.
  induction files as [|g files IH]; intros st; simpl; [now split|].
  destruct (replace_in_file (rw_fs st) g rules) as [s1 [b|]] eqn:R;
    [|exact (replace_in_file_shape _ _ _ q _ _ R)].
  destruct (replace_in_file_shape _ _ _ q _ _ R) as [F D].
  destruct (IH {| rw_fs := s1;
                  rw_changed := if b then rw_changed st ++ [relative_to repo g]
                                else rw_changed st;
                  rw_scanned := S (rw_scanned st) |}) as [F' D'].
  cbn [rw_fs] in F', D'. now rewrite F', D'.
Qed.

(** X12. The pass of the rewriter creates no path, deletes none and turns
    no file into a directory or a directory into a file, whether it
    completes or raises; the walk below any root lists the same files
    afterwards. *)
Theorem rewriter_keeps_tree_shape (repo : path) (cfg : PatchConfig)
    (s : fs) :
  let after := rw_fs (fst (rewriter_pass repo cfg s)) in
  (forall q, is_file after q = is_file s q /\ is_dir after q = is_dir s q) /\
  (forall root, iter_text_files after root = iter_text_files s root).
Proof.
  cbv zeta. split.
  - intros q. unfold rewriter_pass.
    exact (rewrite_files_shape repo _ _ q _).
  - intros root. unfold rewriter_pass.
    destruct (rewrite_files repo (build_rules cfg) _ _) as [st ok] eqn:H.
    exact (rewrite_files_listing _ root _ _ _ _ _ H).
Qed.

(** ** What a run that succeeds has checked *)

Lemma no_hits_two (a b : result (list path)) (why : list path -> failure) :
  no_hits [a; b] why = None -> a = Ok [] /\ b = Ok [].
Proof.
  unfold no_hits; simpl.
  destruct a as [[|x xs]|], b as [[|y ys]|]; simpl;
    try discriminate; now split.
Qed.

Lemma under_android_root (repo z : path) :
  z <> [] ->
  is_under (android_root repo)
    (repo ++ str "flutter" :: str "android" :: z) = true.
Proof.
  intros Z. unfold android_root.
  induction repo as [|a repo IH]; simpl.
  - destruct z; [contradiction | reflexivity].
  - now rewrite text_eqb_refl.
Qed.

Lemma main_success (repo : path) (cfg : PatchConfig) (mv : bool) (s : fs) :
  exit_status (fst (main repo cfg mv s)) = 0 ->
  exists st notes,
    patch_tree repo cfg mv s = (st, notes, true) /\
    validate repo cfg (rw_fs st) = None /\
    write_report repo cfg (rw_changed st) notes (rw_fs st) =
      (snd (main repo cfg mv s), true).
Proof.
  destruct (exists_ s (android_root repo)) eqn:X;
    [|unfold main; rewrite X; discriminate].
  destruct (patch_tree repo cfg mv s) as [[st notes] ok] eqn:P.
  rewrite (main_unfold _ _ _ _ _ _ _ X P).
  destruct ok; [|discriminate]. cbn [negb].
  destruct (validate repo cfg (rw_fs st)) as [o|] eqn:V.
  - intros E. cbn [fst] in E.
    rewrite (validate_status _ _ _ _ V) in E. discriminate.
  - destruct (write_report repo cfg (rw_changed st) notes (rw_fs st))
      as [s2 [|]] eqn:W; [|discriminate].
    intros _. exists st, notes. now repeat split.
Qed.

(** X13. In the tree left by a run that ends with status 0, a build.gradle
    that can be read holds the applicationId of the new package and not
    that of the old one; a manifest that can be read holds the new
    package, the new service name and the new scheme; and no text file
    below the android root holds the name of a renamed native library or
    of a loadLibrary call on a renamed library. *)
Theorem successful_run_key_entries (repo : path) (cfg : PatchConfig)
    (mv : bool) (s : fs) :
  exit_status (fst (main repo cfg mv s)) = 0 ->
  let s' := snd (main repo cfg mv s) in
  (forall c, read_text s' (gradle_path repo) = Ok c ->
     contains (str "applicationId " ++ dq ++ new_package cfg ++ dq) c = true /\
     contains (str "applicationId " ++ dq ++ old_package cfg ++ dq) c = false) /\
  (forall c, read_text s' (manifest_path repo) = Ok c ->
     contains (str "package=" ++ dq ++ new_package cfg ++ dq) c = true /\
     contains (str "android:name=" ++ dq ++ str "." ++ new_service cfg ++ dq) c
       = true /\
     contains (str "android:scheme=" ++ dq ++ new_scheme cfg ++ dq) c = true) /\
  (forall needle f c,
     In needle [str "lib" ++ new_scheme cfg ++ str ".so";
                str "libtodddesk.so";
                load_library (new_scheme cfg);
                load_library (str "todddesk")] ->
     In f (iter_text_files s' (android_root repo)) ->
     read_text s' f = Ok c -> contains needle c = false).
Proof.
  intros E. cbv zeta.
  destruct (main_success _ _ _ _ E) as [st [notes [_ [V W]]]].
  destruct (write_report_frame _ _ _ _ _ _ _ W) as [L R].
  pose proof (first_failure_none _ V) as A.
  split; [|split].
  - intros c Rc. rewrite R in Rc
      by (apply (under_android_root repo [str "app"; str "build.gradle"]);
          discriminate).
    assert (G : check_gradle repo cfg (rw_fs st) = None) by (apply A; simpl; auto).
    unfold check_gradle in G.
    destruct (is_file_exists _ _ (read_text_is_file _ _ _ Rc)) as [X _].
    rewrite X in G.
    pose proof (first_failure_none _ G) as B.
    assert (B1 := B _ (or_introl eq_refl)).
    assert (B2 := B _ (or_intror (or_introl eq_refl))).
    unfold must_contain in B1. unfold must_not_contain in B2.
    rewrite Rc in B1, B2.
    destruct (contains (str "applicationId " ++ dq ++ new_package cfg ++ dq) c);
      [|discriminate].
    destruct (contains (str "applicationId " ++ dq ++ old_package cfg ++ dq) c);
      [discriminate|]. now split.
  - intros c Rc. rewrite R in Rc
      by (apply (under_android_root repo
                   [str "app"; str "src"; str "main";
                    str "AndroidManifest.xml"]); discriminate).
    assert (G : check_manifest repo cfg (rw_fs st) = None) by (apply A; simpl; auto).
    unfold check_manifest in G.
    destruct (is_file_exists _ _ (read_text_is_file _ _ _ Rc)) as [X _].
    rewrite X in G.
    pose proof (first_failure_none _ G) as B.
    assert (B1 := B _ (or_introl eq_refl)).
    assert (B2 := B _ (or_intror (or_introl eq_refl))).
    assert (B3 := B _ (or_intror (or_intror (or_introl eq_refl)))).
    unfold must_contain in B1, B2, B3. rewrite Rc in B1, B2, B3.
    destruct (contains (str "package=" ++ dq ++ new_package cfg ++ dq) c);
      [|discriminate].
    destruct (contains (str "android:name=" ++ dq ++ str "." ++
                        new_service cfg ++ dq) c); [|discriminate].
    destruct (contains (str "android:scheme=" ++ dq ++ new_scheme cfg ++ dq) c);
      [|discriminate].
    now repeat split.
  - intros needle f c Hn Hf Rc. rewrite L in Hf.
    rewrite R in Rc by (exact (iter_text_files_under _ _ _ Hf)).
    destruct (no_hits_two _ _ _
                (A _ (or_intror (or_intror (or_intror (or_introl eq_refl))))))
      as [S1 S2].
    destruct (no_hits_two _ _ _
                (A _ (or_intror (or_intror (or_intror (or_intror
                        (or_introl eq_refl)))))))
      as [S3 S4].
    destruct Hn as [<-|[<-|[<-|[<-|[]]]]];
      eapply scan_any_clean; eauto.
Qed.

(** ** The directory of a package *)

Lemma components_plain (p : text) :
  existsb (N.eqb slash_char) p = false ->
  components p = if text_eqb p [] then [] else [p].
Proof.
  intros H. unfold components. rewrite (split_slashes_plain p [] H).
  simpl. destruct (text_eqb p []); reflexivity.
Qed.

Lemma is_absolute_plain (p : text) :
  existsb (N.eqb slash_char) p = false -> is_absolute p = false.
Proof.
  destruct p as [|c p]; [reflexivity|]. cbn [existsb]. intros H.
  apply orb_false_elim in H. destruct H as [Hc _].
  simpl. now rewrite N.eqb_sym.
Qed.

Lemma join_parts_exact (parts : list text) (base : path) :
  Forall (fun p => existsb (N.eqb slash_char) p = false) parts ->
  join_parts base parts =
    base ++ filter (fun c => negb (text_eqb c [])) parts.
Proof.
  intros F. revert base. induction F as [|p parts Hp _ IH]; intros base.
  - simpl. now rewrite app_nil_r.
  - cbn [join_parts filter]. rewrite (is_absolute_plain p Hp), IH.
    rewrite (components_plain p Hp). destruct (text_eqb p []); simpl.
    + now rewrite app_nil_r.
    + now rewrite <- app_assoc.
Qed.

Lemma join_parts_app (a b : list text) (base : path) :
  join_parts base (a ++ b) = join_parts (join_parts base a) b.
Proof.
  revert base. induction a as [|p a IH]; intros base; [reflexivity|].
  simpl. apply IH.
Qed.

Lemma split_dots_app (a b cur : text) :
  split_dots (a ++ dot :: b) cur = split_dots a cur ++ split_dots b [].
Proof.
  revert cur. induction a as [|c a IH]; intros cur.
  - reflexivity.
  - cbn [app split_dots]. destruct (N.eqb c dot).
    + cbn [app]. now rewrite IH.
    + apply IH.
Qed.

Lemma split_dots_one (s cur : text) :
  existsb (N.eqb dot) s = false -> split_dots s cur = [rev cur ++ s].
Proof.
  revert cur. induction s as [|c s IH]; intros cur H.
  - simpl. now rewrite app_nil_r.
  - cbn [existsb] in H. apply orb_false_elim in H. destruct H as [Hc Hs].
    rewrite N.eqb_sym in Hc. cbn [split_dots]. rewrite Hc, (IH _ Hs).
    simpl. now rewrite <- app_assoc.
Qed.

(** X14. For a package name without a slash, the package directory is the
    root followed by the non-empty parts of the name between its dots, so
    it is the root itself or lies below it.  When the last part of the
    name starts with a slash, the root and the parts before it are
    dropped: the package directory is made of the components of that last
    part alone. *)
Theorem package_dir_below_root_unless_absolute (root : path) :
  (forall package,
     no_slash package = true ->
     package_dir root package =
       root ++ filter (fun c => negb (text_eqb c [])) (split_dots package [])) /\
  (forall before last,
     existsb (N.eqb dot) last = false -> is_absolute last = true ->
     package_dir root (before ++ dot :: last) = components last).
Proof.
  split.
  - intros package H. apply negb_true_iff in H. unfold package_dir.
    apply join_parts_exact. now apply split_dots_no_slash.
  - intros before last D A. unfold package_dir.
    rewrite split_dots_app, join_parts_app, (split_dots_one last [] D).
    simpl. now rewrite A.
Qed.

(** ** The directory migrator works inside the Kotlin root *)

Lemma is_under_app (root x : path) :
  x <> [] -> is_under root (root ++ x) = true.
Proof.
  intros X. induction root as [|a root IH]; simpl.
  - destruct x; [contradiction | reflexivity].
  - now rewrite text_eqb_refl.
Qed.

Lemma outside_root (root q x : path) :
  q <> root -> is_under root q = false -> root ++ x <> q.
Proof.
  intros N O E. destruct x as [|c x].
  - rewrite app_nil_r in E. congruence.
  - rewrite <- E, is_under_app in O; discriminate.
Qed.

Lemma firstn_prefix_under (root : path) (k : nat) :
  k < length root -> is_under (firstn k root) root = true.
Proof.
  revert k. induction root as [|a root IH]; intros k H; simpl in H; [lia|].
  destruct k as [|k]; simpl; [reflexivity|].
  rewrite text_eqb_refl. apply IH. lia.
Qed.

Lemma mkdir_from_existing (todo done : path) (s s' : fs) (q : path) :
  mkdir_from done todo s = Ok s' -> kind s q <> None ->
  kind s' q = kind s q.
Proof.
  revert done s. induction todo as [|c todo IH]; intros done s; simpl.
  - now intros [= <-].
  - destruct (kind s (done ++ [c])) as [[?|]|] eqn:K;
      [discriminate | apply IH |].
    intros M E.
    assert (N : done ++ [c] <> q) by (intros <-; contradiction).
    rewrite (IH _ _ M); [now apply kind_set_other|].
    now rewrite kind_set_other.
Qed.

Lemma mkdir_parents_inside (root x : path) (s s' : fs) (q : path) :
  mkdir_parents s (parent (root ++ x)) = Ok s' ->
  q <> root -> is_under root q = false ->
  kind s q <> None \/ is_under q root = false ->
  kind s' q = kind s q.
Proof.
  unfold mkdir_parents, parent. intros M N O [E|A].
  - exact (mkdir_from_existing _ _ _ _ _ M E).
  - apply (mkdir_from_frame _ _ _ _ _ M). intros k _. simpl.
    rewrite removelast_firstn_len, firstn_firstn, firstn_app.
    set (m := Nat.min k (Nat.pred (length (root ++ x)))).
    destruct (Nat.lt_ge_cases m (length root)) as [L|L].
    + replace (m - length root) with 0 by lia.
      rewrite firstn_0, app_nil_r. intros <-.
      rewrite (firstn_prefix_under _ _ L) in A. discriminate.
    + rewrite firstn_all2 by exact L. now apply outside_root.
Qed.

Lemma copy2_inside (root y src : path) (s s' : fs) (q : path) :
  copy2 s src (root ++ y) = Ok s' ->
  q <> root -> is_under root q = false -> kind s' q = kind s q.
Proof.
  unfold copy2. destruct (kind s src) as [[b|]|]; try discriminate.
  destruct (path_eqb _ _); [discriminate|]. intros W N O.
  apply (write_bytes_frame _ _ _ _ _ W).
  destruct (is_dir s _).
  - rewrite <- app_assoc. now apply outside_root.
  - now apply outside_root.
Qed.

Lemma merge_files_inside (root x old_dir : path) (q : path) :
  q <> root -> is_under root q = false ->
  forall (s s' : fs) (ok : bool),
    merge_files old_dir (root ++ x) s = (s', ok) ->
    kind s q <> None \/ is_under q root = false ->
    kind s' q = kind s q.
Proof.
  intros N O s s' ok H D.
  refine (merge_files_inv (fun y => kind y q = kind s q)
            old_dir (root ++ x) _ _ s s' ok H eq_refl).
  - intros y y' rel M I. rewrite <- app_assoc in M. rewrite <- I.
    apply (mkdir_parents_inside _ _ _ _ _ M N O). now rewrite I.
  - intros y y' item rel C I. rewrite <- app_assoc in C. rewrite <- I.
    exact (copy2_inside _ _ _ _ _ _ C N O).
Qed.

Lemma is_under_inside (root x r : path) :
  is_under (root ++ x) r = true -> exists z, r = root ++ z.
Proof.
  intros H. apply is_under_split in H. destruct H as [z [_ ->]].
  exists (x ++ z). now rewrite app_assoc.
Qed.

Lemma move_inside (root xo xn : path) (s s' : fs) (q : path) :
  move s (root ++ xo) (root ++ xn) = Ok s' ->
  q <> root -> is_under root q = false -> kind s' q = kind s q.
Proof.
  unfold move. destruct (_ && _); [discriminate|].
  destruct (negb _); [discriminate|]. intros [= <-] N O.
  destruct q as [|a q]; [reflexivity|]. cbn [kind].
  apply find_map_rename. intros r. unfold rename_under.
  destruct (path_eqb r _ || is_under _ r) eqn:A; [|reflexivity].
  assert (R : r <> a :: q).
  { apply orb_true_iff in A. destruct A as [A|A].
    - apply path_eqb_eq in A. subst r. now apply outside_root.
    - destruct (is_under_inside _ _ _ A) as [z ->]. now apply outside_root. }
  assert (R' : (root ++ xn) ++ relative_to (root ++ xo) r <> a :: q)
    by (rewrite <- app_assoc; now apply outside_root).
  now rewrite (path_eqb_neq _ _ R), (path_eqb_neq _ _ R').
Qed.

(** X15. For package names without a slash the directory migrator works
    inside the Kotlin root only: a path that is neither the Kotlin root
    nor below it, and that exists or is not an ancestor of the Kotlin
    root, is afterwards what it was before, whether the migrator returns
    or raises. *)
Theorem move_kotlin_dir_stays_in_kotlin_root (repo : path)
    (cfg : PatchConfig) (s : fs) (notes : list note) (q : path) :
  no_slash (old_package cfg) = true -> no_slash (new_package cfg) = true ->
  q <> kotlin_root repo -> is_under (kotlin_root repo) q = false ->
  exists_ s q = true \/ is_under q (kotlin_root repo) = false ->
  kind (fst (fst (move_kotlin_dir repo cfg s notes))) q = kind s q.
Proof.
  intros So Sn N O D.
  assert (D' : kind s q <> None \/ is_under q (kotlin_root repo) = false).
  { destruct D as [D|D]; [left | now right].
    unfold exists_ in D. destruct (kind s q); [discriminate | discriminate]. }
  clear D. apply negb_true_iff in So, Sn. unfold move_kotlin_dir, package_dir.
  destruct (join_parts_plain (split_dots (old_package cfg) [])
              (kotlin_root repo)) as [xo ->];
    [now apply split_dots_no_slash|].
  destruct (join_parts_plain (split_dots (new_package cfg) [])
              (kotlin_root repo)) as [xn ->];
    [now apply split_dots_no_slash|].
  destruct (negb (exists_ s (kotlin_root repo))); [reflexivity|].
  destruct (negb (exists_ s _)); [reflexivity|].
  destruct (mkdir_parents s _) as [s1|] eqn:M; [|reflexivity].
  pose proof (mkdir_parents_inside _ _ _ _ _ M N O D') as K1.
  destruct (exists_ s1 _).
  - destruct (merge_files _ _ s1) as [s2 ok] eqn:G.
    assert (K2 : kind s2 q = kind s1 q).
    { apply (merge_files_inside _ _ _ _ N O _ _ _ G). now rewrite K1. }
    destruct ok; cbn [fst]; [|now rewrite K2].
    rewrite <- K1, <- K2. apply rmtree_frame.
    + intros E. symmetry in E. revert E. now apply outside_root.
    + destruct (is_under (kotlin_root repo ++ xo) q) eqn:I; [|reflexivity].
      destruct (is_under_inside _ _ _ I) as [z E]. symmetry in E.
      now apply outside_root in E.
  - destruct (move s1 _ _) as [s2|] eqn:V; cbn [fst]; [|exact K1].
    now rewrite (move_inside _ _ _ _ _ _ V N O).
Qed.

(** ** Moving a package onto itself *)

Lemma rglob_in (s : fs) (root item : path) :
  In item (rglob s root) <->
  In item (List.map fst s) /\ is_under root item = true.
Proof.
  unfold rglob. rewrite !in_map_iff. split.
  - intros [[r e] [<- H]]. apply filter_In in H. destruct H as [H1 H2].
    split; [|exact H2]. now exists (r, e).
  - intros [[[r e] [<- H1]] H2]. exists (r, e). split; [reflexivity|].
    apply filter_In. now split.
Qed.

Lemma set_entry_keys (p k : path) (e : entry) (s : fs) :
  In k (List.map fst s) -> In k (List.map fst (set_entry p e s)).
Proof.
  induction s as [|[r e'] s IH]; simpl; [intros []|].
  destruct (path_eqb r p); simpl; intros [H|H]; auto.
Qed.

Lemma mkdir_from_keys (todo done : path) (s s' : fs) (k : path) :
  mkdir_from done todo s = Ok s' ->
  In k (List.map fst s) -> In k (List.map fst s').
Proof.
  revert done s. induction todo as [|c todo IH]; intros done s; simpl.
  - now intros [= <-].
  - destruct (kind s (done ++ [c])) as [[?|]|]; [discriminate | apply IH |].
    intros M H. apply (IH _ _ M). now apply set_entry_keys.
Qed.

Lemma is_file_kind (s s' : fs) (p : path) :
  kind s' p = kind s p -> is_file s' p = is_file s p.
Proof. unfold is_file. now intros ->. Qed.

Lemma is_file_known (s : fs) (p : path) :
  is_file s p = true -> kind s p <> None.
Proof. unfold is_file. destruct (kind s p); [discriminate | discriminate]. Qed.

Lemma find_in_keys (q : path) (e : entry) (s : fs) :
  find_entry q s = Some e -> In q (List.map fst s).
Proof.
  induction s as [|[r e'] s IH]; simpl; [discriminate|].
  destruct (path_eqb r q) eqn:E; [|right; now apply IH].
  intros _. left. now apply path_eqb_eq.
Qed.

(** What a directory lists are the entries one component below it. *)
Lemma scandir_child (s : fs) (d q : path) :
  In q (scandir s d) -> exists c, q = d ++ [c].
Proof.
  unfold scandir. intros H. apply filter_In in H. destruct H as [_ H].
  apply andb_true_iff in H. destruct H as [N P].
  apply path_eqb_eq in P. subst d. exists (last q []).
  apply app_removelast_last. intros ->. discriminate.
Qed.

Lemma scandir_in (s : fs) (d : path) (c : text) :
  kind s (d ++ [c]) <> None -> In (d ++ [c]) (scandir s d).
Proof.
  intros K. unfold scandir. apply filter_In. split.
  - destruct (d ++ [c]) as [|a q] eqn:E; [now destruct d|].
    cbn [kind] in K. destruct (find_entry (a :: q) s) as [e|] eqn:F;
      [|contradiction].
    exact (find_in_keys _ _ _ F).
  - apply andb_true_iff. split.
    + destruct d; reflexivity.
    + unfold parent. rewrite removelast_last. apply path_eqb_refl.
Qed.

(** Merging a directory into itself: the first file met is copied onto
    itself, which raises; so a list of entries that goes through holds no
    file, and nothing is written. *)
Lemma merge_onto_itself (dir : path) (items : list path) :
  forall s s' : fs,
    Forall (fun i => is_under dir i = true) items ->
    merge_items dir dir items s = (s', true) ->
    s' = s /\ Forall (fun i => is_file s i = false) items.
Proof.
  induction items as [|h items IH]; intros s s' F.
  - intros [= <-]. now split.
  - pose proof (Forall_inv F) as Uh. apply Forall_inv_tail in F.
    cbn [merge_items]. destruct (is_file s h) eqn:Fh.
    + destruct (is_under_split _ _ Uh) as [z [_ ->]].
      unfold relative_to. rewrite skipn_app, skipn_all, Nat.sub_diag.
      cbn [skipn app].
      destruct (mkdir_parents s (parent (dir ++ z))) as [s1|] eqn:M;
        [|discriminate].
      assert (K : kind s1 (dir ++ z) = kind s (dir ++ z))
        by (apply (mkdir_from_existing _ _ _ _ _ M); now apply is_file_known).
      unfold copy2. unfold is_file in Fh. unfold is_dir. rewrite K.
      destruct (kind s (dir ++ z)) as [[c|]|]; try discriminate.
      now rewrite path_eqb_refl.
    + intros H. destruct (IH _ _ F H) as [-> Fi]. split; [reflexivity|].
      now constructor.
Qed.

Lemma scandir_under (s : fs) (dir y : path) :
  Forall (fun i => is_under dir i = true) (scandir s (dir ++ y)).
Proof.
  apply Forall_forall. intros q I.
  destruct (scandir_child _ _ _ I) as [c ->]. rewrite <- app_assoc.
  apply is_under_app. now destruct y.
Qed.

Lemma walk_stopped (f : path -> fs -> fs * bool) (subs : list path)
    (x : fs) :
  fold_left (fun (acc : fs * bool) (sub : path) =>
               if snd acc then f sub (fst acc) else acc) subs (x, false)
  = (x, false).
Proof. induction subs as [|sub subs IH]; [reflexivity | exact IH]. Qed.

(** A walk of a directory merged into itself that goes through has written
    nothing. *)
Lemma walk_onto_itself_idle (dir : path) :
  forall (depth : nat) (y : path) (s s' : fs),
    merge_walk depth dir dir (dir ++ y) s = (s', true) -> s' = s.
Proof.
  induction depth as [|depth IH]; intros y s s'; cbn [merge_walk];
    destruct (merge_items dir dir (scandir s (dir ++ y)) s)
      as [s1 [|]] eqn:M; try discriminate.
  destruct (merge_onto_itself _ _ _ _ (scandir_under s dir y) M) as [-> _].
  assert (Subs : Forall (fun q => exists c, q = dir ++ y ++ [c])
                   (filter (is_dir s) (scandir s (dir ++ y)))).
  { apply Forall_forall. intros q I. apply filter_In in I.
    destruct (scandir_child _ _ _ (proj1 I)) as [c ->]. exists c.
    now rewrite <- app_assoc. }
  revert Subs. generalize (filter (is_dir s) (scandir s (dir ++ y))).
  intros subs. induction subs as [|sub subs IHs]; intros Subs.
  - now intros [= <-].
  - cbn [fold_left snd fst]. destruct (Forall_inv Subs) as [c ->].
    destruct (merge_walk depth dir dir (dir ++ y ++ [c]) s)
      as [s2 [|]] eqn:W.
    + rewrite (IH _ _ _ W). apply IHs. exact (Forall_inv_tail Subs).
    + rewrite walk_stopped. discriminate.
Qed.

(** The walk of a directory merged into itself raises when a file lies
    below it and every path down to the file is a directory. *)
Lemma walk_onto_itself (dir z : path) (s : fs) :
  (forall k, k < length z -> is_dir s (dir ++ firstn k z) = true) ->
  is_file s (dir ++ z) = true ->
  forall (depth : nat) (pre post : path),
    z = pre ++ post -> post <> [] ->
    snd (merge_walk depth dir dir (dir ++ pre) s) = false.
Proof.
  intros D Fz.
  induction depth as [|depth IH]; intros pre post E Np; cbn [merge_walk];
    destruct (merge_items dir dir (scandir s (dir ++ pre)) s)
      as [s1 [|]] eqn:M; try reflexivity.
  destruct (merge_onto_itself _ _ _ _ (scandir_under s dir pre) M)
    as [-> Nf].
  destruct post as [|c post]; [contradiction|].
  assert (Kc : kind s (dir ++ pre ++ [c]) <> None).
  { destruct post as [|c' post].
    - subst z. apply is_file_known. exact Fz.
    - assert (Dc : is_dir s (dir ++ firstn (length (pre ++ [c])) z) = true).
      { apply D. subst z. rewrite !length_app. simpl. lia. }
      subst z. replace (pre ++ c :: c' :: post)
        with ((pre ++ [c]) ++ c' :: post) in Dc
        by (now rewrite <- app_assoc).
      rewrite firstn_app, firstn_all, Nat.sub_diag in Dc.
      cbn [firstn] in Dc. rewrite app_nil_r in Dc.
      unfold is_dir in Dc. destruct (kind s _); [discriminate | discriminate]. }
  assert (Ic : In (dir ++ pre ++ [c]) (scandir s (dir ++ pre))).
  { rewrite app_assoc. apply scandir_in. now rewrite <- app_assoc. }
  destruct post as [|c' post].
  - exfalso. rewrite Forall_forall in Nf. specialize (Nf _ Ic).
    subst z. congruence.
  - assert (Dc : is_dir s (dir ++ pre ++ [c]) = true).
    { assert (Dk : is_dir s (dir ++ firstn (length (pre ++ [c])) z) = true).
      { apply D. subst z. rewrite !length_app. simpl. lia. }
      subst z. replace (pre ++ c :: c' :: post)
        with ((pre ++ [c]) ++ c' :: post) in Dk
        by (now rewrite <- app_assoc).
      rewrite firstn_app, firstn_all, Nat.sub_diag in Dk.
      cbn [firstn] in Dk. now rewrite app_nil_r in Dk. }
    assert (Is : In (dir ++ pre ++ [c])
                    (filter (is_dir s) (scandir s (dir ++ pre))))
      by (apply filter_In; now split).
    assert (Subs : Forall (fun q => exists a, q = dir ++ pre ++ [a])
                     (filter (is_dir s) (scandir s (dir ++ pre)))).
    { apply Forall_forall. intros q I. apply filter_In in I.
      destruct (scandir_child _ _ _ (proj1 I)) as [a ->]. exists a.
      now rewrite <- app_assoc. }
    revert Is Subs. generalize (filter (is_dir s) (scandir s (dir ++ pre))).
    intros subs. induction subs as [|sub subs IHs]; intros Is Subs;
      [destruct Is|].
    cbn [fold_left snd fst]. destruct Is as [->|Is].
    + destruct (merge_walk depth dir dir (dir ++ pre ++ [c]) s)
        as [s2 ok] eqn:W.
      assert (Ok : ok = false).
      { change ok with (snd (s2, ok)). rewrite <- W.
        apply (IH (pre ++ [c]) (c' :: post));
          [subst z; now rewrite <- app_assoc | discriminate]. }
      subst ok. now rewrite walk_stopped.
    + destruct (Forall_inv Subs) as [a ->].
      destruct (merge_walk depth dir dir (dir ++ pre ++ [a]) s)
        as [s2 [|]] eqn:W.
      * rewrite (walk_onto_itself_idle _ _ _ _ _ W).
        apply IHs; [exact Is | exact (Forall_inv_tail Subs)].
      * now rewrite walk_stopped.
Qed.

(** X16. With the same old and new package name, a package directory below
    which a file lies, every path from the directory down to the file being
    a directory, makes the directory migrator raise: the file would be
    copied onto itself.  Every path that existed is still there. *)
Theorem same_package_move_raises (repo : path) (cfg : PatchConfig) (s : fs)
    (notes : list note) (item : path) :
  new_package cfg = old_package cfg ->
  exists_ s (kotlin_root repo) = true ->
  exists_ s (package_dir (kotlin_root repo) (old_package cfg)) = true ->
  In item (rglob s (package_dir (kotlin_root repo) (old_package cfg))) ->
  is_file s item = true ->
  (forall k,
     length (package_dir (kotlin_root repo) (old_package cfg)) <= k
       < length item ->
     is_dir s (firstn k item) = true) ->
  snd (move_kotlin_dir repo cfg s notes) = false /\
  forall p, exists_ s p = true ->
    exists_ (fst (fst (move_kotlin_dir repo cfg s notes))) p = true.
Proof.
  intros E K O I Fi Ds.
  assert (R : snd (move_kotlin_dir repo cfg s notes) = false).
  { unfold move_kotlin_dir. rewrite E, K, O. cbn [negb].
    revert O I Ds.
    generalize (package_dir (kotlin_root repo) (old_package cfg)).
    intros dir O I Ds.
    destruct (mkdir_parents s _) as [s1|] eqn:M; [|reflexivity].
    rewrite (mkdir_from_keeps _ _ _ _ _ M O).
    apply rglob_under in I. destruct (is_under_split _ _ I) as [z [Nz ->]].
    assert (Keep : forall q, kind s q <> None -> kind s1 q = kind s q)
      by (intros q; apply (mkdir_from_existing _ _ _ _ _ M)).
    assert (Fi1 : is_file s1 (dir ++ z) = true).
    { rewrite <- Fi. apply is_file_kind, Keep. now apply is_file_known. }
    assert (D1 : forall k, k < length z ->
                   is_dir s1 (dir ++ firstn k z) = true).
    { intros k Hk.
      assert (Dk : is_dir s (firstn (length dir + k) (dir ++ z)) = true)
        by (apply Ds; rewrite length_app; lia).
      rewrite firstn_app_2 in Dk. unfold is_dir in *.
      rewrite Keep; [exact Dk|].
      destruct (kind s (dir ++ firstn k z)); [discriminate | discriminate]. }
    pose proof (walk_onto_itself dir z s1 D1 Fi1 walk_limit [] z eq_refl Nz)
      as W.
    rewrite app_nil_r in W. unfold merge_files.
    assert (Dd : is_dir s1 dir = true).
    { specialize (D1 0). rewrite firstn_0, app_nil_r in D1. apply D1.
      destruct z; [contradiction | simpl; lia]. }
    rewrite Dd.
    destruct (merge_walk walk_limit dir dir dir s1) as [s2 ok].
    cbn [snd] in W. now subst ok. }
  split; [exact R|].
  intros p Hp. destruct (move_kotlin_dir repo cfg s notes) as [[s' ns] ok] eqn:V.
  cbn [snd] in R. subst ok. cbn [fst].
  exact (move_raise_keeps _ _ _ _ _ _ _ V Hp).
Qed.

(** ** Moving the package directory to a new place *)

Lemma mkdir_from_ok (todo done : path) (s : fs) :
  (forall k, 1 <= k <= length todo ->
     is_file s (done ++ firstn k todo) = false) ->
  exists s', mkdir_from done todo s = Ok s'.
Proof.
  revert done s. induction todo as [|c todo IH]; intros done s H; simpl.
  - now eexists.
  - destruct (kind s (done ++ [c])) as [[x|]|] eqn:K.
    + assert (H1 : is_file s (done ++ firstn 1 (c :: todo)) = false)
        by (apply H; simpl; lia).
      simpl in H1. unfold is_file in H1. rewrite K in H1. discriminate H1.
    + apply IH. intros k Hk. rewrite <- app_assoc. apply (H (S k)).
      simpl. lia.
    + apply IH. intros k Hk. rewrite <- app_assoc.
      rewrite <- (H (S k)) by (simpl; lia). apply is_file_kind.
      apply kind_set_other. intros E.
      apply (f_equal (@length text)) in E.
      rewrite !length_app, length_firstn in E. simpl in E. lia.
Qed.

Lemma mkdir_from_made (todo done : path) (s s' : fs) :
  mkdir_from done todo s = Ok s' -> is_dir s done = true ->
  is_dir s' (done ++ todo) = true.
Proof.
  revert done s. induction todo as [|c todo IH]; intros done s; simpl.
  - intros [= <-]. now rewrite app_nil_r.
  - replace (done ++ c :: todo) with ((done ++ [c]) ++ todo)
      by (now rewrite <- app_assoc).
    destruct (kind s (done ++ [c])) as [[x|]|] eqn:K; [discriminate | |].
    + intros M _. apply (IH _ _ M). unfold is_dir. now rewrite K.
    + intros M _. apply (IH _ _ M). unfold is_dir.
      rewrite kind_set_same; [reflexivity|]. now destruct done.
Qed.

Lemma find_map_in (g : path -> path) (p p' : path) (s : fs) :
  (forall r, In r (List.map fst s) -> path_eqb (g r) p' = path_eqb r p) ->
  find_entry p' (List.map (fun qe => (g (fst qe), snd qe)) s) =
    find_entry p s.
Proof.
  induction s as [|[r e] s IH]; simpl; intros G; [reflexivity|].
  rewrite (G r (or_introl eq_refl)).
  destruct (path_eqb r p); [reflexivity|].
  apply IH. intros r' Hr. apply G. now right.
Qed.

Lemma find_map_none (g : path -> path) (p : path) (s : fs) :
  (forall r, In r (List.map fst s) -> path_eqb (g r) p = false) ->
  find_entry p (List.map (fun qe => (g (fst qe), snd qe)) s) = None.
Proof.
  induction s as [|[r e] s IH]; simpl; intros G; [reflexivity|].
  rewrite (G r (or_introl eq_refl)). apply IH. intros r' Hr. apply G.
  now right.
Qed.

Lemma key_found (r : path) (s : fs) :
  In r (List.map fst s) -> find_entry r s <> None.
Proof.
  induction s as [|[q e] s IH]; simpl; [intros []|].
  intros [<-|H]; [now rewrite path_eqb_refl|].
  destruct (path_eqb q r); [discriminate | now apply IH].
Qed.

Lemma path_eqb_app (a z rel : path) :
  path_eqb (a ++ z) (a ++ rel) = path_eqb z rel.
Proof. induction a as [|c a IH]; simpl; [|rewrite text_eqb_refl]; auto. Qed.

Lemma proper_prefix_ne (l x : path) (k : nat) :
  l <> [] -> firstn k (removelast l) <> l ++ x.
Proof.
  intros N E. apply (f_equal (@length text)) in E.
  rewrite removelast_firstn_len, firstn_firstn, length_firstn, length_app in E.
  destruct l; [contradiction|]. simpl in E. lia.
Qed.

Lemma at_or_under (old r : path) :
  path_eqb r old || is_under old r = true <-> exists z, r = old ++ z.
Proof.
  split.
  - intros A. apply orb_true_iff in A. destruct A as [A|A].
    + apply path_eqb_eq in A. exists []. now rewrite app_nil_r.
    + destruct (is_under_split _ _ A) as [z [_ ->]]. now exists z.
  - intros [z ->]. destruct z as [|c z].
    + now rewrite app_nil_r, path_eqb_refl.
    + rewrite is_under_app by discriminate. apply orb_true_r.
Qed.

Lemma rename_at_or_under (old new z : path) :
  rename_under old new (old ++ z) = new ++ z.
Proof.
  unfold rename_under.
  rewrite (proj2 (at_or_under old (old ++ z))) by now exists z.
  unfold relative_to. now rewrite skipn_app, skipn_all, Nat.sub_diag.
Qed.

Lemma rename_elsewhere (old new r : path) :
  path_eqb r old || is_under old r = false -> rename_under old new r = r.
Proof. unfold rename_under. now intros ->. Qed.

(** X17. The move branch of the directory migrator.  When the old package
    directory is a directory, nothing exists at or below the new package
    directory, no ancestor of the new directory is a file and the new
    directory does not lie inside the old one, the migrator returns with
    the note of the move; whatever was at a path below the old directory
    is then at the same relative path below the new one, and nothing is
    left at or below the old one. *)
Theorem move_carries_package_files (repo : path) (cfg : PatchConfig)
    (s : fs) (notes : list note) :
  let old_dir := package_dir (kotlin_root repo) (old_package cfg) in
  let new_dir := package_dir (kotlin_root repo) (new_package cfg) in
  exists_ s (kotlin_root repo) = true ->
  is_dir s old_dir = true ->
  (forall rel, kind s (new_dir ++ rel) = None) ->
  (forall k, is_file s (firstn k new_dir) = false) ->
  is_under old_dir new_dir = false ->
  exists s',
    move_kotlin_dir repo cfg s notes =
      (s', notes ++ [Moved old_dir new_dir], true) /\
    (forall rel, kind s' (new_dir ++ rel) = kind s (old_dir ++ rel)) /\
    (forall rel, kind s' (old_dir ++ rel) = None).
Proof.
  intros old_dir new_dir K D Free Anc Apart.
  assert (Nn : new_dir <> []).
  { intros E. specialize (Free []). rewrite E in Free. discriminate. }
  assert (No : old_dir <> []).
  { intros E. rewrite E in Apart. destruct new_dir; [contradiction|].
    discriminate. }
  assert (Ko : kind s old_dir = Some Dir).
  { unfold is_dir in D. destruct (kind s old_dir) as [[?|]|]; try discriminate.
    reflexivity. }
  assert (Differs : forall l, old_dir <> new_dir ++ l).
  { intros l E. rewrite E, Free in Ko. discriminate. }
  destruct (mkdir_from_ok (parent new_dir) [] s) as [s1 M].
  { intros k _. simpl. unfold parent.
    rewrite removelast_firstn_len, firstn_firstn. apply Anc. }
  assert (K1 : forall rel, kind s1 (new_dir ++ rel) = None).
  { intros rel. rewrite <- (Free rel).
    apply (mkdir_from_frame _ _ _ _ _ M). intros k _. simpl.
    now apply proper_prefix_ne. }
  assert (K2 : forall rel, kind s1 (old_dir ++ rel) = kind s (old_dir ++ rel)).
  { intros rel. apply (mkdir_from_frame _ _ _ _ _ M). intros k _. simpl.
    intros E. unfold parent in E.
    assert (E' : new_dir =
                 old_dir ++ (rel ++ skipn k (removelast new_dir) ++
                             [last new_dir []])).
    { pose proof (app_removelast_last [] Nn) as P.
      pose proof (firstn_skipn k (removelast new_dir)) as Q.
      assert (P' : new_dir =
                   (firstn k (removelast new_dir) ++
                    skipn k (removelast new_dir)) ++ [last new_dir []])
        by (rewrite Q; exact P).
      rewrite E in P'. rewrite <- !app_assoc in P'. exact P'. }
    rewrite E', is_under_app in Apart; [discriminate|].
    now destruct rel, (skipn k (removelast new_dir)). }
  assert (Keys : forall r rel, In r (List.map fst s1) -> r <> new_dir ++ rel).
  { intros r rel Hr E. apply key_found in Hr. apply Hr.
    specialize (K1 rel). rewrite <- E in K1.
    destruct r; [|exact K1].
    symmetry in E. apply app_eq_nil in E. destruct E. contradiction. }
  exists (List.map (fun qe => (rename_under old_dir new_dir (fst qe), snd qe))
            s1).
  split; [|split].
  - unfold move_kotlin_dir. fold old_dir new_dir.
    assert (Xo : exists_ s old_dir = true)
      by (unfold exists_; now rewrite Ko).
    rewrite K, Xo. cbn [negb]. unfold mkdir_parents. rewrite M.
    assert (Xn : exists_ s1 new_dir = false).
    { unfold exists_. specialize (K1 []). rewrite app_nil_r in K1.
      now rewrite K1. }
    rewrite Xn. unfold move. rewrite Apart, andb_false_r.
    pose proof (mkdir_from_made _ _ _ _ M eq_refl) as Dp. simpl in Dp.
    now rewrite Dp.
  - intros rel. rewrite <- K2.
    assert (A : forall a b : path, a <> [] -> forall x : fs,
                  kind x (a ++ b) = find_entry (a ++ b) x)
      by (intros [|c a] b Ha x; [contradiction | reflexivity]).
    rewrite !A by assumption.
    apply find_map_in. intros r Hr.
    destruct (path_eqb r old_dir || is_under old_dir r) eqn:Un.
    + apply at_or_under in Un. destruct Un as [z ->].
      now rewrite rename_at_or_under, !path_eqb_app.
    + rewrite (rename_elsewhere _ _ _ Un).
      rewrite (path_eqb_neq _ _ (Keys r rel Hr)).
      symmetry. apply path_eqb_neq. intros ->.
      rewrite (proj2 (at_or_under old_dir (old_dir ++ rel))) in Un;
        [discriminate | now exists rel].
  - intros rel.
    assert (A : kind
                  (List.map
                     (fun qe => (rename_under old_dir new_dir (fst qe), snd qe))
                     s1) (old_dir ++ rel) =
                find_entry (old_dir ++ rel)
                  (List.map
                     (fun qe => (rename_under old_dir new_dir (fst qe), snd qe))
                     s1))
      by (destruct old_dir; [contradiction | reflexivity]).
    rewrite A. apply find_map_none. intros r Hr. apply path_eqb_neq.
    destruct (path_eqb r old_dir || is_under old_dir r) eqn:Un.
    + apply at_or_under in Un. destruct Un as [z ->].
      rewrite rename_at_or_under. intros E.
      apply app_eq_app in E. destruct E as [l [[E _]|[E _]]].
      * destruct l as [|c l].
        -- rewrite app_nil_r in E. apply (Differs []).
           now rewrite app_nil_r.
        -- rewrite E, is_under_app in Apart; discriminate.
      * exact (Differs l E).
    + rewrite (rename_elsewhere _ _ _ Un). intros ->.
      rewrite (proj2 (at_or_under old_dir (old_dir ++ rel))) in Un;
        [discriminate | now exists rel].
Qed.

(** ** The move flag with nothing to move *)

Lemma exists_split (s : fs) (p : path) :
  exists_ s p = is_file s p || is_dir s p.
Proof.
  unfold exists_, is_file, is_dir. now destruct (kind s p) as [[?|]|].
Qed.

Lemma report_text_split (cfg : PatchConfig) (changed : list path) :
  exists pre,
    forall notes,
      report_text cfg changed notes =
        pre ++ match notes with
               | [] => str "- (none)" ++ nl
               | _ => flat_map (fun x => note_text x ++ nl) notes
               end.
Proof.
  eexists. intros notes. unfold report_text. rewrite !app_assoc.
  reflexivity.
Qed.

Lemma abs_posix_scalar (p : path) :
  encodable_path p = true -> forallb is_scalar (abs_posix p) = true.
Proof.
  unfold encodable_path, abs_posix. destruct p as [|c p]; [reflexivity|].
  generalize (c :: p). clear c p. intros p.
  induction p as [|c p IH]; [reflexivity|]. cbn [forallb flat_map].
  intros H. apply andb_true_iff in H. destruct H as [Hc Hp].
  rewrite !forallb_app, Hc, (IH Hp). reflexivity.
Qed.

(** Whether the report can be written does not depend on a note that can
    be encoded, and the note changes the report only. *)
Lemma write_report_notes (repo : path) (cfg : PatchConfig)
    (changed : list path) (n : note) (s : fs) :
  forallb is_scalar (note_text n) = true ->
  snd (write_report repo cfg changed [n] s) =
    snd (write_report repo cfg changed [] s) /\
  forall q, q <> report_path repo ->
    kind (fst (write_report repo cfg changed [n] s)) q =
    kind (fst (write_report repo cfg changed [] s)) q.
Proof.
  intros Sn.
  assert (Frame : forall q, q <> report_path repo ->
            kind (fst (write_report repo cfg changed [n] s)) q =
            kind (fst (write_report repo cfg changed [] s)) q).
  { intros q N. unfold write_report.
    destruct (write_text s (report_path repo) (report_text cfg changed [n]))
      as [a oka] eqn:A.
    destruct (write_text s (report_path repo) (report_text cfg changed []))
      as [b okb] eqn:B.
    cbn [fst].
    rewrite (write_text_frame _ _ _ _ _ _ A (not_eq_sym N)).
    now rewrite (write_text_frame _ _ _ _ _ _ B (not_eq_sym N)). }
  split; [|exact Frame].
  destruct (report_text_split cfg changed) as [pre P].
  assert (Same : forallb is_scalar (report_text cfg changed [n]) =
                 forallb is_scalar (report_text cfg changed [])).
  { rewrite !P. cbn [flat_map]. rewrite !forallb_app, Sn. cbn [forallb].
    reflexivity. }
  unfold write_report, write_text.
  destruct (writable s (report_path repo)); [|reflexivity].
  pose proof (encode_scalar (report_text cfg changed [n])) as E1.
  pose proof (encode_scalar (report_text cfg changed [])) as E2.
  rewrite Same in E1.
  destruct (encode (report_text cfg changed [n])) as [b1|],
           (encode (report_text cfg changed [])) as [b2|];
    try reflexivity; exfalso.
  - assert (X : forallb is_scalar (report_text cfg changed []) = true)
      by (apply E1; discriminate).
    apply E2 in X. now apply X.
  - assert (X : forallb is_scalar (report_text cfg changed []) = true)
      by (apply E2; discriminate).
    apply E1 in X. now apply X.
Qed.

(** X18. When the Kotlin root or the old package directory does not exist,
    and the names of both can be encoded, the run with --move-kotlin-dir
    ends as the run without it: the same outcome and scan counts, and the
    same tree except for the report, which carries the note of the skipped
    move. *)
Theorem move_flag_with_nothing_to_move (repo : path) (cfg : PatchConfig)
    (s : fs) :
  exists_ s (kotlin_root repo) = false \/
  exists_ s (package_dir (kotlin_root repo) (old_package cfg)) = false ->
  encodable_path (kotlin_root repo) = true ->
  encodable_path (package_dir (kotlin_root repo) (old_package cfg)) = true ->
  fst (main repo cfg true s) = fst (main repo cfg false s) /\
  forall q, q <> report_path repo ->
    kind (snd (main repo cfg true s)) q = kind (snd (main repo cfg false s)) q.
Proof.
  intros Missing Er Eo.
  destruct (exists_ s (android_root repo)) eqn:X;
    [|unfold main; rewrite X; now split].
  destruct (rewrite_files repo (build_rules cfg)
              (iter_text_files s (android_root repo))
              {| rw_fs := s; rw_changed := []; rw_scanned := 0 |})
    as [st ok] eqn:R.
  assert (Sh : forall p, exists_ (rw_fs st) p = exists_ s p).
  { intros p. rewrite !exists_split.
    destruct (rewrite_files_shape repo (build_rules cfg)
                (iter_text_files s (android_root repo)) p
                {| rw_fs := s; rw_changed := []; rw_scanned := 0 |})
      as [F D].
    rewrite R in F, D. cbn [fst rw_fs] in F, D. now rewrite F, D. }
  assert (Pf : patch_tree repo cfg false s = (st, [], negb (negb ok)))
    by (unfold patch_tree; rewrite R; now destruct ok).
  assert (Pt : exists n,
            forallb is_scalar (note_text n) = true /\
            (patch_tree repo cfg true s =
               ({| rw_fs := rw_fs st; rw_changed := rw_changed st;
                   rw_scanned := rw_scanned st |},
                (if ok then [n] else []), ok) \/
             (ok = false /\ patch_tree repo cfg true s = (st, [], false)))).
  { pose proof (abs_posix_scalar _ Er) as Sr.
    pose proof (abs_posix_scalar _ Eo) as So.
    assert (Nr : forallb is_scalar
                   (note_text (KotlinRootNotFound (kotlin_root repo))) = true)
      by (cbn [note_text]; now rewrite forallb_app, Sr).
    assert (No : forallb is_scalar
                   (note_text (OldDirNotFound
                      (package_dir (kotlin_root repo) (old_package cfg))))
                 = true)
      by (cbn [note_text]; now rewrite forallb_app, So).
    unfold patch_tree. rewrite R. destruct ok; cbn [negb].
    - unfold move_kotlin_dir. rewrite !Sh.
      destruct Missing as [E|E].
      + rewrite E. cbn [negb]. eexists. split; [exact Nr|].
        left. reflexivity.
      + destruct (exists_ s (kotlin_root repo)); cbn [negb].
        * rewrite E. cbn [negb]. eexists. split; [exact No|].
          left. reflexivity.
        * eexists. split; [exact Nr|]. left. reflexivity.
    - eexists. split; [exact Nr|]. right. now split. }
  destruct Pt as [n [Sn [Pt|[-> Pt]]]].
  - rewrite (main_unfold _ _ _ _ _ _ _ X Pf),
            (main_unfold _ _ _ _ _ _ _ X Pt).
    destruct ok; cbn [negb rw_fs rw_changed rw_scanned];
      [|split; reflexivity].
    destruct (validate repo cfg (rw_fs st)); [split; reflexivity|].
    destruct (write_report_notes repo cfg (rw_changed st) n (rw_fs st) Sn)
      as [Wk Wf].
    destruct (write_report repo cfg (rw_changed st) [n] (rw_fs st))
      as [a oka],
             (write_report repo cfg (rw_changed st) [] (rw_fs st))
      as [b okb].
    cbn [fst snd] in Wk, Wf. subst okb.
    destruct oka; split; try reflexivity; exact Wf.
  - rewrite (main_unfold _ _ _ _ _ _ _ X Pf),
            (main_unfold _ _ _ _ _ _ _ X Pt).
    split; reflexivity.
Qed.

(** ** The fixed captions under the default names *)

Lemma absent_longer (P l u : text) :
  contains P l = true -> contains P u = false -> contains l u = false.
Proof.
  intros H C. destruct (contains l u) eqn:E; [|reflexivity].
  rewrite (contains_trans _ _ _ H E) in C. discriminate.
Qed.

(** X19. Under the default configuration the four rules of the fixed
    captions (rule group 5) never replace anything: the global rule for
    the application name comes first, and after the first six rules the
    text holds no [RustDesk] any more, so each caption rule returns the
    text as it is.  The rules give the same text as the rules without that
    group. *)
Theorem fixed_captions_never_fire_by_default (t : text) :
  let rules := build_rules default_config in
  (forall u rl,
     apply_rules (firstn 6 rules) t = Some u ->
     In rl (List.map literal_rule (fixed_strings default_config)) ->
     contains (str "RustDesk") u = false /\
     re_sub (fst rl) (snd rl) u = Some u) /\
  apply_rules rules t = apply_rules (firstn 6 rules ++ skipn 10 rules) t.
Proof.
  cbv zeta.
  assert (Part : forall u rl,
            apply_rules (firstn 6 (build_rules default_config)) t = Some u ->
            In rl (List.map literal_rule (fixed_strings default_config)) ->
            contains (str "RustDesk") u = false /\
            re_sub (fst rl) (snd rl) u = Some u).
  { intros u rl A I.
    assert (C : compile_rules (firstn 6 (build_rules default_config)) =
                Some (firstn 6 default_rules)) by reflexivity.
    rewrite (apply_rules_run _ _ t C) in A.
    assert (Cl : cleared_at (firstn 6 default_rules) (1, str "RustDesk") = true)
      by (vm_compute; reflexivity).
    apply cleared_at_sound with (w := t) in Cl. cbn [snd] in Cl.
    assert (E : run (firstn 6 default_rules) t = u) by congruence.
    rewrite E in Cl. split; [exact Cl|].
    destruct I as [<-|[<-|[<-|[<-|[]]]]]; cbn [fst snd literal_rule];
      (eapply re_sub_absent;
       [ left; reflexivity
       | apply (absent_longer (str "RustDesk")); [vm_compute; reflexivity | exact Cl]
       | vm_compute; discriminate ]). }
  split; [exact Part|].
  assert (S : build_rules default_config =
              firstn 6 (build_rules default_config) ++
              List.map literal_rule (fixed_strings default_config) ++
              skipn 10 (build_rules default_config)) by reflexivity.
  transitivity
    (apply_rules
       (firstn 6 (build_rules default_config) ++
        List.map literal_rule (fixed_strings default_config) ++
        skipn 10 (build_rules default_config)) t);
    [now rewrite <- S|].
  rewrite !apply_rules_app.
  destruct (apply_rules (firstn 6 (build_rules default_config)) t) as [u|] eqn:A;
    [|reflexivity].
  rewrite apply_rules_app.
  rewrite (apply_rules_fixed (List.map literal_rule
                                (fixed_strings default_config)) u);
    [reflexivity|].
  apply Forall_forall. intros rl I. exact (proj2 (Part u rl eq_refl I)).
Qed.

End Properties.

(** ** The statements at concrete inputs *)

Lemma old_package_gone_or_run_fails_witness :
  contains (old_package default_config)
    (str "android { defaultConfig { applicationId " ++ dq ++
     str "com.celonis.work" ++ dq ++ str " } }") = false /\
  exit_status
    (fst (@main ascii_only sample_repo nested_config false sample_tree)) <> 0.
Proof.
  split.
  - apply (proj1 (@old_package_gone_or_run_fails ascii_only sample_repo
                    default_config true sample_tree))
      with (f := sample_app ++ [str "build.gradle"]).
    + vm_compute. reflexivity.
    + vm_compute. pick_member.
    + vm_compute. reflexivity.
  - eapply (proj2 (@old_package_gone_or_run_fails ascii_only sample_repo
                     nested_config false sample_tree))
      with (f := sample_app ++ [str "build.gradle"]).
    + vm_compute. reflexivity.
    + vm_compute. reflexivity.
    + vm_compute. pick_member.
    + vm_compute. reflexivity.
    + vm_compute. reflexivity.
Defined.

Lemma residue_aborts_before_report_witness :
  exit_status
    (fst (@main ascii_only sample_repo nested_config false sample_tree)) <> 0 /\
  kind (snd (@main ascii_only sample_repo nested_config false sample_tree))
       (report_path sample_repo) = None.
Proof.
  destruct (fun st notes ok E P c =>
              @residue_aborts_before_report ascii_only sample_repo
                nested_config false sample_tree st notes ok
                (sample_app ++ [str "build.gradle"]) c E P)
    with (st := fst (fst (@patch_tree ascii_only sample_repo nested_config
                            false sample_tree)))
         (notes := @nil note) (ok := true)
         (c := str "android { defaultConfig { applicationId " ++ dq ++
               str "com.carriez.flutter_hbb.todd" ++ dq ++ str " } }")
    as [H1 [H2 H3]].
  - vm_compute. reflexivity.
  - vm_compute. reflexivity.
  - vm_compute. pick_member.
  - vm_compute. reflexivity.
  - vm_compute. reflexivity.
  - split; [exact H1|]. rewrite H3 by now left. vm_compute. reflexivity.
Defined.

Lemma missing_android_root_aborts_witness :
  @main ascii_only sample_repo default_config true [] =
    (SystemExit (NoAndroidRoot (android_root sample_repo)), []).
Proof.
  apply (@missing_android_root_aborts ascii_only sample_repo default_config
           true []).
  vm_compute. reflexivity.
Defined.

Lemma rewriter_writes_iff_changed_witness :
  @replace_in_file ascii_only sample_tree (sample_app ++ [str "build.gradle"])
    (build_rules default_config) =
  (set_entry (sample_app ++ [str "build.gradle"])
     (File (utf8 (str "android { defaultConfig { applicationId " ++ dq ++
                  str "com.celonis.work" ++ dq ++ str " } }")))
     sample_tree,
   Ok true).
Proof.
  destruct (@rewriter_writes_iff_changed ascii_only sample_repo
              (build_rules default_config) sample_tree
              (sample_app ++ [str "build.gradle"]) (utf8 sample_gradle_text)
              [] 0) as [src [R [_ [_ H]]]].
  - vm_compute. reflexivity.
  - vm_compute in R. injection R as <-.
    destruct (H (str "android { defaultConfig { applicationId " ++ dq ++
                 str "com.celonis.work" ++ dq ++ str " } }")) as [_ [H2 _]].
    + vm_compute. reflexivity.
    + refine (proj1 (H2 _ _ _)).
      * apply text_eqb_neq. vm_compute. reflexivity.
      * vm_compute. reflexivity.
Defined.

(** C9 as stated fails.  With an application name that holds a lone
    surrogate, the rules give for the [strings.xml] of the tree a text that
    differs from the text read, and the file is not written back: the new
    text has no encoding, the file is left empty, the loop raises and the
    run ends with an uncaught exception. *)
Theorem rewriter_write_fails_on_surrogate :
  @read_text name_tree sample_strings = Ok sample_name_field /\
  (exists dst,
     @apply_rules ascii_only (build_rules surrogate_config) sample_name_field
       = Some dst /\
     dst <> sample_name_field /\ encode dst = None) /\
  @replace_in_file ascii_only name_tree sample_strings
    (build_rules surrogate_config) =
    (set_entry sample_strings (File []) name_tree, Raise) /\
  @main ascii_only sample_repo surrogate_config false name_tree =
    (Uncaught, set_entry sample_strings (File []) name_tree).
Proof.
  split; [vm_compute; reflexivity|]. split; [|split; vm_compute; reflexivity].
  eexists. split; [vm_compute; reflexivity|].
  split; [apply text_eqb_neq|]; vm_compute; reflexivity.
Qed.

(** The sample tree holds the old package in [notes.bin]; the run with the
    defaults ends with status 0 all the same. *)
Lemma only_listed_extensions_witness :
  @validate ascii_only sample_repo default_config
    (set_entry (sample_app ++ [str "notes.bin"])
       (File (utf8 (str "com.carriez.flutter_hbb")))
       (snd (@main ascii_only sample_repo default_config true sample_tree)))
  = None.
Proof.
  rewrite (proj2 (proj2 (proj2 (@only_listed_extensions ascii_only
             sample_repo default_config
             (snd (@main ascii_only sample_repo default_config true
                     sample_tree)))))).
  - vm_compute. reflexivity.
  - vm_compute. reflexivity.
  - vm_compute. reflexivity.
Defined.

Lemma whole_word_rule_spares_longer_identifier_witness :
  @re_sub ascii_only (safe_word_replace (str "InputService"))
    (str "ToddService")
    (str "class InputServiceImpl : InputService()") =
  Some (str "class InputServiceImpl : ToddService()").
Proof.
  destruct (@whole_word_rule_spares_longer_identifier ascii_only
              default_config (str "class ") (str "InputServiceImpl")
              (str " : InputService()")) as [_ H].
  - discriminate.
  - vm_compute. reflexivity.
  - vm_compute. reflexivity.
  - apply text_eqb_neq. vm_compute. reflexivity.
  - vm_compute. reflexivity.
  - vm_compute. reflexivity.
  - etransitivity; [exact H|]. vm_compute. reflexivity.
Defined.

(** C7. With [--accessibility-desc "2 apps"] the replacement of rule 2 is
    the template [\12 apps\2]: it refers to a group 12 that the pattern
    does not have, the substitution raises [re.error] and no text is
    produced, where the field was to receive the configured value.  With
    the default value the field is rewritten, over the line break. *)
Theorem field_rule_raises_on_digit_value :
  In (string_field (str "accessibility_service_description"),
      keep_tags (accessibility_desc digit_config))
     (@build_rules digit_config) /\
  @re_sub ascii_only (string_field (str "accessibility_service_description"))
    (keep_tags (accessibility_desc digit_config)) sample_field = None /\
  @apply_rules ascii_only (build_rules digit_config) sample_field = None /\
  fst (@main ascii_only sample_repo digit_config false sample_tree)
    = Uncaught /\
  @apply_rules ascii_only (build_rules default_config) sample_field =
    Some (str "<string name=" ++ dq ++
          str "accessibility_service_description" ++ dq ++
          str ">Made by Todd</string>").
Proof.
  split; [vm_compute; pick_member|].
  repeat split; vm_compute; reflexivity.
Qed.

(** C8. The merge branch on a tree where the new package directory holds a
    directory [Main.kt] and the old one a file [Main.kt]: [copy2] puts the
    file inside that directory, at [Main.kt/Main.kt], and the old directory
    is then deleted; the file is not at its relative sub-path [Main.kt] in
    the destination. *)
Theorem merge_nests_file_in_directory :
  @is_file conflict_tree (sample_old_dir ++ [str "Main.kt"]) = true /\
  @is_dir conflict_tree (sample_new_dir ++ [str "Main.kt"]) = true /\
  let r := @move_kotlin_dir sample_repo default_config conflict_tree [] in
  snd r = true /\
  snd (fst r) = [MergeInto sample_new_dir; DeletedOld sample_old_dir] /\
  kind (fst (fst r)) (sample_new_dir ++ [str "Main.kt"]) = Some Dir /\
  kind (fst (fst r)) (sample_new_dir ++ [str "Main.kt"; str "Main.kt"]) =
    Some (File (utf8 (str "class Main"))) /\
  exists_ (fst (fst r)) sample_old_dir = false.
Proof. repeat split; vm_compute; reflexivity. Qed.

(** C2. The protection of the native names that the header of the script
    promises fails.  With [--old-app-name rustdesk] the global substitution
    of rule 1 rewrites both native names and no later rule restores them:
    on a tree whose only text file is a Kotlin source with the call
    [System.loadLibrary("rustdesk")], the run ends with status 0 and the
    file holds the call on [ToddDesk].  With [--old-scheme so] the rule of
    the scheme rewrites the extension of [librustdesk.so] before [://].
    With the defaults a native name that is the value of the [app_name]
    field is replaced with the field. *)
Theorem native_names_lost :
  @apply_rules ascii_only (build_rules lowercase_config) native_so
    = Some (str "libToddDesk.so") /\
  @apply_rules ascii_only (build_rules lowercase_config) native_load
    = Some (load_library (str "ToddDesk")) /\
  (let r := @main ascii_only sample_repo lowercase_config false native_tree in
   @read_text native_tree sample_kotlin_file = Ok sample_kotlin_text /\
   contains native_load sample_kotlin_text = true /\
   fst r = Exit0 1 1 /\
   read_text (snd r) sample_kotlin_file =
     Ok (str "package com.celonis.work; class ToddService { init { " ++
         load_library (str "ToddDesk") ++ str " } }")) /\
  (contains native_so (str "see librustdesk.so://x") = true /\
   @apply_rules ascii_only (build_rules so_scheme_config)
     (str "see librustdesk.so://x") = Some (str "see librustdesk.todddesk://x")) /\
  (contains native_so sample_name_field = true /\
   @apply_rules ascii_only (build_rules default_config) sample_name_field
     = Some (str "<string name=" ++ dq ++ str "app_name" ++ dq ++
             str ">ToddDesk</string>")).
Proof. repeat split; vm_compute; reflexivity. Qed.

(** C4 as stated fails.  Under the defaults, take two log tags in a row
    that share a quote: quote, input service, quote, input service, quote.
    The first is rewritten to the Todd log tag, whose closing quote then
    opens a new match of rule 6: a second application of the rules
    rewrites the second tag too, and a second pass of the rewriter over the
    patched tree writes the file again and reports one changed file.  On
    the sample tree the second pass changes nothing. *)
Theorem second_pass_rewrites_log_tag :
  @apply_rules ascii_only (build_rules default_config) sample_log_text =
    Some (dq ++ str "Todd service" ++ dq ++ str "input service" ++ dq) /\
  @apply_rules ascii_only (build_rules default_config)
    (dq ++ str "Todd service" ++ dq ++ str "input service" ++ dq) =
    Some (dq ++ str "Todd service" ++ dq ++ str "Todd service" ++ dq) /\
  (let once := fst (@rewriter_pass ascii_only sample_repo default_config
                      log_tree) in
   let twice := fst (@rewriter_pass ascii_only sample_repo default_config
                       (rw_fs once)) in
   rw_changed twice = [[str "flutter"; str "android"; str "app";
                        str "notes.md"]] /\
   rw_fs twice <> rw_fs once) /\
  (let once := fst (@rewriter_pass ascii_only sample_repo default_config
                      sample_tree) in
   let twice := fst (@rewriter_pass ascii_only sample_repo default_config
                       (rw_fs once)) in
   rw_changed twice = [] /\ rw_fs twice = rw_fs once).
Proof.
  repeat split; try (vm_compute; reflexivity).
  vm_compute. discriminate.
Qed.

(** On the sample tree no file holds a log tag after the first pass, and
    the second pass changes nothing; and the manifest line of the sample,
    once rewritten, is left as it is. *)
Lemma second_pass_changes_nothing_witness :
  (let once := @rewriter_pass ascii_only sample_repo default_config
                 sample_tree in
   let twice := @rewriter_pass ascii_only sample_repo default_config
                  (rw_fs (fst once)) in
   snd twice = true /\ rw_changed (fst twice) = [] /\
   rw_fs (fst twice) = rw_fs (fst once)) /\
  @apply_rules ascii_only (build_rules default_config)
    (str "<service android:name=" ++ dq ++ str ".ToddService" ++ dq ++
     str "/>") =
  Some (str "<service android:name=" ++ dq ++ str ".ToddService" ++ dq ++
        str "/>").
Proof.
  split.
  - apply (proj2 (@second_pass_changes_nothing ascii_only sample_repo
                    sample_tree)).
    intros f u I R. vm_compute in I.
    repeat (destruct I as [<- | I];
            [vm_compute in R; injection R as R; subst u;
             vm_compute; reflexivity|]).
    destruct I.
  - apply (proj1 (@second_pass_changes_nothing ascii_only sample_repo
                    sample_tree))
      with (t := str "<service android:name=" ++ dq ++
                 str ".InputService" ++ dq ++ str "/>").
    + vm_compute. reflexivity.
    + vm_compute. reflexivity.
Defined.

Lemma plain_config_never_raises_witness :
  templates_ok (build_rules default_config) = true /\
  @apply_rules ascii_only (build_rules default_config) (str "RustDesk")
    <> None.
Proof.
  apply (@plain_config_never_raises ascii_only default_config).
  vm_compute. reflexivity.
Defined.

Lemma renamed_native_names_never_survive_witness :
  @scan_any ascii_only
    (rw_fs (fst (@rewriter_pass ascii_only sample_repo lowercase_config
                   sample_tree)))
    (android_root sample_repo) (str "libtodddesk.so") = Ok [] /\
  @scan_any ascii_only
    (rw_fs (fst (@rewriter_pass ascii_only sample_repo lowercase_config
                   sample_tree)))
    (android_root sample_repo) (load_library (str "todddesk")) = Ok [].
Proof.
  apply (proj2 (@renamed_native_names_never_survive ascii_only
                  lowercase_config) sample_repo sample_tree).
  vm_compute. reflexivity.
Defined.

Lemma literal_rule_clears_witness :
  exists out,
    @re_sub ascii_only (RLit (str "RustDesk")) (str "ToddDesk")
      (str "RustDesk and RustDesk") = Some out /\
    contains (str "RustDesk") out = false /\
    @re_sub ascii_only (RLit (str "RustDesk")) (str "ToddDesk") out = Some out.
Proof.
  apply (@literal_rule_clears ascii_only (str "RustDesk") (str "ToddDesk")).
  - vm_compute. discriminate.
  - vm_compute. reflexivity.
  - vm_compute. reflexivity.
Defined.

Lemma word_rule_leaves_no_whole_word_witness :
  exists out,
    @re_sub ascii_only (safe_word_replace (str "InputService"))
      (str "ToddService") (str "InputService MyInputService") = Some out /\
    @word_free ascii_only (str "InputService") out /\
    @re_sub ascii_only (safe_word_replace (str "InputService"))
      (str "ToddService") out = Some out.
Proof.
  apply (@word_rule_leaves_no_whole_word ascii_only (str "InputService")
           (str "ToddService")).
  - vm_compute. discriminate.
  - vm_compute. reflexivity.
  - vm_compute. discriminate.
  - vm_compute. reflexivity.
  - vm_compute. reflexivity.
Defined.

Lemma field_rule_sets_every_field_witness :
  exists out,
    @re_sub ascii_only (string_field (str "app_name"))
      (keep_tags (str "ToddDesk")) sample_name_field = Some out /\
    @field_done ascii_only (str "app_name") (str "ToddDesk") out /\
    @re_sub ascii_only (string_field (str "app_name"))
      (keep_tags (str "ToddDesk")) out = Some out.
Proof.
  apply (@field_rule_sets_every_field ascii_only (str "app_name")
           (str "ToddDesk")).
  - vm_compute. reflexivity.
  - vm_compute. intuition discriminate.
  - vm_compute. intuition discriminate.
Defined.

Lemma malformed_template_stops_before_any_write_witness :
  @rewriter_pass ascii_only sample_repo digit_config sample_tree =
    ({| rw_fs := sample_tree; rw_changed := []; rw_scanned := 1 |}, false) /\
  @main ascii_only sample_repo digit_config true sample_tree =
    (Uncaught, sample_tree).
Proof.
  destruct (proj1 (@malformed_template_stops_before_any_write ascii_only
                     sample_repo digit_config true sample_tree))
    as [P M].
  - vm_compute. reflexivity.
  - vm_compute. reflexivity.
  - vm_compute. discriminate.
  - split; [exact P|]. apply M. vm_compute. reflexivity.
Defined.

Lemma successful_run_writes_report_witness :
  exists st notes b,
    @patch_tree ascii_only sample_repo default_config true sample_tree =
      (st, notes, true) /\
    @validate ascii_only sample_repo default_config (rw_fs st) = None /\
    encode (report_text default_config (rw_changed st) notes) = Some b /\
    kind (snd (@main ascii_only sample_repo default_config true sample_tree))
         (report_path sample_repo) = Some (File b) /\
    read_text
      (snd (@main ascii_only sample_repo default_config true sample_tree))
      (report_path sample_repo) =
      Ok (universal_newlines
            (report_text default_config (rw_changed st) notes)) /\
    3 = length (@iter_text_files ascii_only sample_tree
                  (android_root sample_repo)) /\
    3 = length (rw_changed st) /\ 3 <= 3.
Proof.
  apply (@successful_run_writes_report ascii_only sample_repo default_config
           true sample_tree).
  vm_compute. reflexivity.
Defined.

Lemma rewriter_pass_result_witness :
  rw_changed (fst (@rewriter_pass ascii_only sample_repo default_config
                     sample_tree)) =
    map (relative_to sample_repo)
      (filter (@rules_change ascii_only (build_rules default_config)
                 sample_tree)
         (@iter_text_files ascii_only sample_tree (android_root sample_repo))).
Proof.
  apply (@rewriter_pass_result ascii_only sample_repo default_config
           sample_tree).
  - vm_compute. repeat constructor; simpl; intuition discriminate.
  - vm_compute. reflexivity.
Defined.

Lemma successful_run_key_entries_witness :
  contains (str "applicationId " ++ dq ++ str "com.celonis.work" ++ dq)
    (str "android { defaultConfig { applicationId " ++ dq ++
     str "com.celonis.work" ++ dq ++ str " } }") = true /\
  contains (str "applicationId " ++ dq ++ str "com.carriez.flutter_hbb" ++ dq)
    (str "android { defaultConfig { applicationId " ++ dq ++
     str "com.celonis.work" ++ dq ++ str " } }") = false.
Proof.
  apply (proj1 (@successful_run_key_entries ascii_only sample_repo
                  default_config true sample_tree ltac:(vm_compute; reflexivity))).
  vm_compute. reflexivity.
Defined.

Lemma package_dir_below_root_unless_absolute_witness :
  package_dir (kotlin_root sample_repo) (str "com.celonis.work") =
    kotlin_root sample_repo ++ [str "com"; str "celonis"; str "work"] /\
  package_dir (kotlin_root sample_repo) (str "com./tmp") = [str "tmp"].
Proof.
  split.
  - apply (proj1 (package_dir_below_root_unless_absolute
                    (kotlin_root sample_repo)) (str "com.celonis.work")).
    vm_compute. reflexivity.
  - apply (proj2 (package_dir_below_root_unless_absolute
                    (kotlin_root sample_repo)) (str "com") (str "/tmp")).
    + vm_compute. reflexivity.
    + vm_compute. reflexivity.
Defined.

Lemma move_kotlin_dir_stays_in_kotlin_root_witness :
  kind (fst (fst (move_kotlin_dir sample_repo default_config sample_tree [])))
    (sample_app ++ [str "build.gradle"]) =
  kind sample_tree (sample_app ++ [str "build.gradle"]).
Proof.
  apply (move_kotlin_dir_stays_in_kotlin_root sample_repo default_config
           sample_tree []).
  - vm_compute. reflexivity.
  - vm_compute. reflexivity.
  - vm_compute. discriminate.
  - vm_compute. reflexivity.
  - left. vm_compute. reflexivity.
Defined.

Lemma same_package_move_raises_witness :
  snd (move_kotlin_dir sample_repo same_package_config sample_tree []) = false.
Proof.
  apply (same_package_move_raises sample_repo same_package_config sample_tree
           [] (sample_old_dir ++ [str "InputService.kt"])).
  - vm_compute. reflexivity.
  - vm_compute. reflexivity.
  - vm_compute. reflexivity.
  - vm_compute. pick_member.
  - vm_compute. reflexivity.
  - intros k Hk. vm_compute in Hk. assert (E : k = 11) by lia. subst k.
    vm_compute. reflexivity.
Defined.

Lemma move_carries_package_files_witness :
  exists s',
    move_kotlin_dir sample_repo default_config sample_tree [] =
      (s', [Moved sample_old_dir sample_new_dir], true) /\
    kind s' (sample_new_dir ++ [str "InputService.kt"]) =
      Some (File sample_kotlin_text) /\
    kind s' (sample_old_dir ++ [str "InputService.kt"]) = None.
Proof.
  destruct (move_carries_package_files sample_repo default_config sample_tree
              []) as [s' [M [A B]]].
  - vm_compute. reflexivity.
  - vm_compute. reflexivity.
  - intros rel. vm_compute. reflexivity.
  - intros k.
    do 12 (destruct k as [|k]; [vm_compute; reflexivity|]).
    vm_compute. reflexivity.
  - vm_compute. reflexivity.
  - exists s'. split; [exact M|]. split.
    + exact (A [str "InputService.kt"]).
    + exact (B [str "InputService.kt"]).
Defined.

Lemma move_flag_with_nothing_to_move_witness :
  fst (@main ascii_only sample_repo default_config true bare_tree) =
  fst (@main ascii_only sample_repo default_config false bare_tree).
Proof.
  apply (@move_flag_with_nothing_to_move ascii_only sample_repo default_config
           bare_tree).
  - left. vm_compute. reflexivity.
  - vm_compute. reflexivity.
  - vm_compute. reflexivity.
Defined.

(** X20. The condition of X18 on the names is needed.  Below a directory
    whose name is not valid UTF-8 and without a Kotlin root, the run
    without --move-kotlin-dir ends with status 0, and the run with it
    raises while it writes the report, whose note names the Kotlin root,
    and leaves the report empty. *)
Theorem move_flag_note_without_encoding :
  encodable_path (kotlin_root surrogate_repo) = false /\
  exists_ surrogate_tree (kotlin_root surrogate_repo) = false /\
  fst (@main ascii_only surrogate_repo default_config false surrogate_tree)
    = Exit0 0 0 /\
  fst (@main ascii_only surrogate_repo default_config true surrogate_tree)
    = Uncaught /\
  kind (snd (@main ascii_only surrogate_repo default_config true
               surrogate_tree))
       (report_path surrogate_repo) = Some (File []).
Proof. repeat split; vm_compute; reflexivity. Qed.

Lemma default_run_passes_residue_checks_witness :
  fst (@main ascii_only sample_repo default_config true sample_tree) <>
    SystemExit (OldPackageLeft [sample_app ++ [str "build.gradle"]]).
Proof.
  apply (@default_run_passes_residue_checks ascii_only sample_repo sample_tree
           [sample_app ++ [str "build.gradle"]]).
Defined.

Lemma rewriter_keeps_tree_shape_witness :
  is_file
    (rw_fs (fst (@rewriter_pass ascii_only sample_repo digit_config
                   sample_tree)))
    (sample_app ++ [str "build.gradle"]) = true.
Proof.
  rewrite (proj1 (proj1 (@rewriter_keeps_tree_shape ascii_only sample_repo
                           digit_config sample_tree)
                    (sample_app ++ [str "build.gradle"]))).
  vm_compute. reflexivity.
Defined.

Lemma fixed_captions_never_fire_by_default_witness :
  contains (str "RustDesk") (str "Show ToddDesk") = false /\
  @re_sub ascii_only (RLit (str "Show RustDesk")) (str "Show ToddDesk")
    (str "Show ToddDesk") = Some (str "Show ToddDesk").
Proof.
  apply (proj1 (@fixed_captions_never_fire_by_default ascii_only
                  (str "Show RustDesk"))
           (str "Show ToddDesk")
           (RLit (str "Show RustDesk"), str "Show ToddDesk")).
  - vm_compute. reflexivity.
  - vm_compute. pick_member.
Defined.
